(** * TelegramChess server: the rules engine, the session timeout, the rating
    store and the matchmaking queue, embedded from the JavaScript source.

    JavaScript strings are modelled as [string] (sequences of 8-bit
    characters); case conversion follows JavaScript on the ASCII letters,
    which is all the engine ever converts on the positions it reaches.
    Numbers that the server uses as integers (coordinates, ratings,
    millisecond timestamps) are [Z]; the one place where the source can
    produce [NaN] ([parseInt] inside [_squareToCoords]) is modelled with
    [JsNumber].  An uncaught [TypeError] is the [None] of the engine monad.
    The engine is the same in both revisions of the server; the rating
    adjustment differs and is given for both.

    The request handlers are functions on the three maps of the server.
    Ids, names and squares in request bodies are texts, a missing field
    being the empty text; what a handler reads from outside (the clock, the
    coin of [Math.random], the identifier of [crypto.randomUUID]) is an
    argument.  The HTTP layer, CORS and the Telegram bot are left out. *)

From Stdlib Require Import ZArith Ascii String List Bool Lia DecimalString.
From stdpp Require Import base option list gmap strings.

Local Open Scope Z_scope.

(** String concatenation computes by [simpl] in this file. *)
#[local] Arguments String.append !_ _ / : simpl nomatch.

(** ** Characters and strings *)

(** Case conversion is that of JavaScript on the ASCII letters and the
    identity on every other character.  JavaScript also converts letters
    beyond ASCII: a cell holding such a letter gets another type and colour
    from [get] and [boardState] than here, so the theorem on those two is
    stated for boards of piece letters. *)

Definition charCode (ch : ascii) : Z := Z.of_nat (nat_of_ascii ch).
Definition fromCharCode (z : Z) : ascii := ascii_of_nat (Z.to_nat z).

Definition toUpperCase (ch : ascii) : ascii :=
  let n := charCode ch in
  if (97 <=? n) && (n <=? 122) then fromCharCode (n - 32) else ch.

Definition toLowerCase (ch : ascii) : ascii :=
  let n := charCode ch in
  if (65 <=? n) && (n <=? 90) then fromCharCode (n + 32) else ch.

Definition ascii_eqb (a b : ascii) : bool := Ascii.eqb a b.

(** A string is falsy exactly when it is empty. *)
Definition truthy (s : string) : bool :=
  match s with EmptyString => false | String _ _ => true end.

Definition str1 (ch : ascii) : string := String ch EmptyString.

(** [String(n)] for an integer. *)
Definition stringOfZ (z : Z) : string := NilZero.string_of_int (Z.to_int z).

(** ** JavaScript numbers that may be NaN *)

Inductive JsNumber : Type :=
| Num (z : Z)
| NaN.

(** [parseInt(ch, 10)] of a one-character string: a decimal digit parses,
    anything else (letters, signs, blanks) is [NaN]. *)
Definition parseInt (ch : ascii) : JsNumber :=
  let n := charCode ch in
  if (48 <=? n) && (n <=? 57) then Num (n - 48) else NaN.

Definition js_rsub (k : Z) (n : JsNumber) : JsNumber :=
  match n with Num z => Num (k - z) | NaN => NaN end.

(** Comparisons with [NaN] are false. *)
Definition js_lt (n : JsNumber) (k : Z) : bool :=
  match n with Num z => z <? k | NaN => false end.
Definition js_gt (n : JsNumber) (k : Z) : bool :=
  match n with Num z => k <? z | NaN => false end.

(** ** Board *)

Inductive Color : Type := W | B.

Definition Color_eqb (a b : Color) : bool :=
  match a, b with W, W | B, B => true | _, _ => false end.

Definition opposite (c : Color) : Color :=
  match c with W => B | B => W end.

(** A cell is [null] or a one-character string. *)
Abbreviation Cell := (option ascii) (only parsing).
Abbreviation Board := (list (list (option ascii))) (only parsing).

(** [board[r][c]] for integer indices; a missing column reads as
    [undefined], which every use treats like [null].  Every board the engine
    builds has eight rows, so a missing row never arises for indices that
    passed [_inBounds]. *)
Definition cellAt (b : Board) (r c : Z) : Cell :=
  match b !! Z.to_nat r with
  | Some row => match row !! Z.to_nat c with Some x => x | None => None end
  | None => None
  end.

(** [board[r][c] = v] for indices inside the board. *)
Definition setCell (b : Board) (r c : Z) (v : Cell) : Board :=
  alter (fun row => <[Z.to_nat c := v]> row) (Z.to_nat r) b.

(** [!cell]: a cell is falsy exactly when it holds no piece. *)
Definition isEmpty (cell : Cell) : bool :=
  match cell with None => true | Some _ => false end.

Definition isWhitePiece (p : ascii) : bool := ascii_eqb p (toUpperCase p).
Definition colorOfPiece (p : ascii) : Color := if isWhitePiece p then W else B.

Record Move : Type := mkMove {
  mv_from : string;
  mv_to : string;
  mv_piece : ascii;
  mv_captured : option ascii;
  mv_promotion : option ascii
}.

Record HistEntry : Type := mkEntry {
  he_mv : Move;
  he_captured : Cell;
  he_turn : Color
}.

Record SimpleChess : Type := mkChess {
  board : Board;
  turnColor : Color;
  _history : list HistEntry
}.

Definition initialBoard : Board :=
  [ map Some ["r"; "n"; "b"; "q"; "k"; "b"; "n"; "r"]%char;
    map Some ["p"; "p"; "p"; "p"; "p"; "p"; "p"; "p"]%char;
    replicate 8 None; replicate 8 None; replicate 8 None; replicate 8 None;
    map Some ["P"; "P"; "P"; "P"; "P"; "P"; "P"; "P"]%char;
    map Some ["R"; "N"; "B"; "Q"; "K"; "B"; "N"; "R"]%char ].

Definition reset : SimpleChess :=
  {| board := initialBoard; turnColor := W; _history := [] |}.

Definition turn (st : SimpleChess) : Color := turnColor st.

(** ** Squares *)

Definition _coordsToSquare (r c : Z) : string :=
  String (fromCharCode (97 + c)) (stringOfZ (8 - r)).

(** [null] unless the text has two characters; then the file is the code of
    the first character minus 97 and the rank is 8 minus [parseInt] of the
    second, and the pair is answered unless one of the four comparisons
    [file < 0], [file > 7], [rank < 0], [rank > 7] holds. *)
Definition _squareToCoords (square : string) : option (JsNumber * Z) :=
  match square with
  | String c0 (String c1 EmptyString) =>
      let file := charCode c0 - 97 in
      let rank := js_rsub 8 (parseInt c1) in
      if (file <? 0) || (7 <? file) || js_lt rank 0 || js_gt rank 7
      then None
      else Some (rank, file)
  | _ => None
  end.

Definition _inBounds (r c : Z) : bool :=
  (0 <=? r) && (r <? 8) && (0 <=? c) && (c <? 8).

(** ** Pseudo-legal move generation *)

Definition knightDirs : list (Z * Z) :=
  [(-2, -1); (-2, 1); (-1, -2); (-1, 2); (1, -2); (1, 2); (2, -1); (2, 1)].
Definition bishopDirs : list (Z * Z) :=
  [(-1, -1); (-1, 1); (1, -1); (1, 1)].
Definition rookDirs : list (Z * Z) :=
  [(-1, 0); (1, 0); (0, -1); (0, 1)].
Definition queenDirs : list (Z * Z) :=
  [(-1, -1); (-1, 1); (1, -1); (1, 1); (-1, 0); (1, 0); (0, -1); (0, 1)].
Definition kingDirs : list (Z * Z) :=
  [(-1, -1); (-1, 0); (-1, 1); (0, -1); (0, 1); (1, -1); (1, 0); (1, 1)].

Section Generator.
Variable b : Board.
Variable fromSquare : string.
Variable piece : ascii.

Let isWhite : bool := isWhitePiece piece.

Definition quietMove (rr cc : Z) : Move :=
  mkMove fromSquare (_coordsToSquare rr cc) (toLowerCase piece) None None.
Definition captureMove (rr cc : Z) (target : ascii) : Move :=
  mkMove fromSquare (_coordsToSquare rr cc) (toLowerCase piece)
         (Some (toLowerCase target)) None.

(** One iteration of the knight and king loops: a single jump. *)
Definition jumpMoves (r c : Z) (d : Z * Z) : list Move :=
  let rr := r + d.1 in
  let cc := c + d.2 in
  if negb (_inBounds rr cc) then []
  else match cellAt b rr cc with
       | Some target =>
           if negb (Bool.eqb (isWhitePiece target) isWhite)
           then [captureMove rr cc target] else []
       | None => [quietMove rr cc]
       end.

(** The [while (this._inBounds(rr, cc))] loop of a sliding piece along one
    direction; [fuel] bounds the number of iterations. *)
Fixpoint slideMoves (fuel : nat) (rr cc dr dc : Z) : list Move :=
  match fuel with
  | O => []
  | S fuel' =>
      if _inBounds rr cc then
        match cellAt b rr cc with
        | Some target =>
            if negb (Bool.eqb (isWhitePiece target) isWhite)
            then [captureMove rr cc target] else []
        | None => quietMove rr cc :: slideMoves fuel' (rr + dr) (cc + dc) dr dc
        end
      else []
  end.

Definition pawnMoves (r c : Z) : list Move :=
  let dir := if isWhite then -1 else 1 in
  let startRow := if isWhite then 6 else 1 in
  let r1 := r + dir in
  let forward :=
    if _inBounds r1 c && isEmpty (cellAt b r1 c) then
      let single :=
        if (r1 =? 0) || (r1 =? 7)
        then mkMove fromSquare (_coordsToSquare r1 c) (toLowerCase piece)
                    None (Some (if isWhite then "q" else "q")%char)
        else quietMove r1 c in
      let r2 := r + 2 * dir in
      single ::
        (if (r =? startRow) && isEmpty (cellAt b r2 c)
         then [quietMove r2 c] else [])
    else [] in
  let captures :=
    flat_map (fun dc =>
      let rr := r + dir in
      let cc := c + dc in
      if _inBounds rr cc then
        match cellAt b rr cc with
        | Some target =>
            if negb (Bool.eqb (isWhitePiece target) isWhite) then
              if (rr =? 0) || (rr =? 7)
              then [mkMove fromSquare (_coordsToSquare rr cc) (toLowerCase piece)
                           (Some (toLowerCase target)) (Some "q"%char)]
              else [captureMove rr cc target]
            else []
        | None => []
        end
      else []) [-1; 1] in
  forward ++ captures.
End Generator.

(** Eight steps leave the board from any square in any direction. *)
Definition slideFuel : nat := 8%nat.

(** Nothing for an empty square or a piece of the side not to move;
    otherwise the moves of the piece by kind, in the order of the source. *)
Definition _generatePieceMoves (st : SimpleChess) (r c : Z) : list Move :=
  match cellAt (board st) r c with
  | None => []
  | Some piece =>
      let color := colorOfPiece piece in
      if negb (Color_eqb color (turnColor st)) then []
      else
        let fromSquare := _coordsToSquare r c in
        let lower := toLowerCase piece in
        let slide dirs :=
          flat_map (fun d : Z * Z =>
            slideMoves (board st) fromSquare piece slideFuel
                       (r + d.1) (c + d.2) d.1 d.2) dirs in
        if ascii_eqb lower "p" then pawnMoves (board st) fromSquare piece r c
        else if ascii_eqb lower "n"
        then flat_map (jumpMoves (board st) fromSquare piece r c) knightDirs
        else if ascii_eqb lower "b" then slide bishopDirs
        else if ascii_eqb lower "r" then slide rookDirs
        else if ascii_eqb lower "q" then slide queenDirs
        else if ascii_eqb lower "k"
        then flat_map (jumpMoves (board st) fromSquare piece r c) kingDirs
        else []
  end.

(** ** Check detection *)

Definition coords8 : list Z := seqZ 0 8.

Definition allSquares : list (Z * Z) :=
  flat_map (fun r => map (fun c => (r, c)) coords8) coords8.

Definition isKingOf (isWhite : bool) (cell : Cell) : bool :=
  match cell with
  | Some piece =>
      ascii_eqb (toLowerCase piece) "k"
      && Bool.eqb isWhite (isWhitePiece piece)
  | None => false
  end.

(** The first king of the colour in row-major order: the inner [break] and
    the outer [if (kingRow !== -1) break] stop at the first hit. *)
Definition findKing (bd : Board) (isWhite : bool) : option (Z * Z) :=
  List.find (fun rc => isKingOf isWhite (cellAt bd rc.1 rc.2)) allSquares.

(** The engine with [turnColor] forced, as [_isInCheck] does around each call
    of the generator before putting the saved colour back. *)
Definition withTurn (st : SimpleChess) (c : Color) : SimpleChess :=
  {| board := board st; turnColor := c; _history := _history st |}.

Definition hitsSquare (kingRow kingCol : Z) (mv : Move) : bool :=
  match _squareToCoords (mv_to mv) with
  | Some (Num r, c) => (r =? kingRow) && (c =? kingCol)
  | _ => false
  end.

Definition attacksFrom (st : SimpleChess) (isWhite : bool)
    (kingRow kingCol : Z) (rc : Z * Z) : bool :=
  match cellAt (board st) rc.1 rc.2 with
  | None => false
  | Some piece =>
      let pieceIsWhite := isWhitePiece piece in
      if Bool.eqb pieceIsWhite isWhite then false
      else
        let moves :=
          _generatePieceMoves (withTurn st (if pieceIsWhite then W else B))
                              rc.1 rc.2 in
        existsb (hitsSquare kingRow kingCol) moves
  end.

Definition _isInCheck (st : SimpleChess) (color : Color) : bool :=
  let isWhite := Color_eqb color W in
  match findKing (board st) isWhite with
  | None => false
  | Some (kingRow, kingCol) =>
      existsb (attacksFrom st isWhite kingRow kingCol) allSquares
  end.

(** ** The engine monad: state passing with uncaught exceptions *)

Definition M (A : Type) : Type := SimpleChess -> option (A * SimpleChess).

Definition ret {A : Type} (a : A) : M A := fun st => Some (a, st).
Definition throw {A : Type} : M A := fun _ => None.
Definition bind {A C : Type} (m : M A) (k : A -> M C) : M C :=
  fun st => match m st with
            | Some (a, st') => k a st'
            | None => None
            end.
Definition getState : M SimpleChess := fun st => Some (st, st).
Definition putState (st' : SimpleChess) : M unit := fun _ => Some (tt, st').

Notation "x <- m ;; k" := (bind m (fun x => k))
  (at level 100, m at next level, right associativity).
Notation "m ;;; k" := (bind m (fun _ => k))
  (at level 100, right associativity).

(** ** Applying and undoing a move *)

(** Reading [fromCoords[0]] of a [null] pair, indexing the board with [NaN],
    and [piece.toUpperCase()] on an empty origin square raise. *)
Definition _makeMove (mv : Move) : M unit :=
  st <- getState ;;
  match _squareToCoords (mv_from mv), _squareToCoords (mv_to mv) with
  | Some (Num r1, c1), Some (Num r2, c2) =>
      let piece := cellAt (board st) r1 c1 in
      let captured := cellAt (board st) r2 c2 in
      let history := _history st ++ [mkEntry mv captured (turnColor st)] in
      let b1 := setCell (board st) r2 c2 piece in
      let b2 := setCell b1 r1 c1 None in
      let flipped := match turnColor st with W => B | B => W end in
      match mv_promotion mv with
      | Some promo =>
          match piece with
          | Some p =>
              let placed :=
                if isWhitePiece p then toUpperCase promo else toLowerCase promo in
              putState (mkChess (setCell b2 r2 c2 (Some placed)) flipped history)
          | None => throw
          end
      | None => putState (mkChess b2 flipped history)
      end
  | _, _ => throw
  end.

(** [this._history.pop()]: the last entry and the remaining stack. *)
Definition popLast {A : Type} (l : list A) : option (A * list A) :=
  match rev l with
  | [] => None
  | x :: r => Some (x, rev r)
  end.

(** [null] on an empty history; otherwise the moved piece (a pawn again
    after a promotion) goes back, the captured cell is restored and the side
    to move is the recorded one. *)
Definition undo : M (option Move) :=
  st <- getState ;;
  match popLast (_history st) with
  | None => ret None
  | Some (entry, rest) =>
      let mv := he_mv entry in
      match _squareToCoords (mv_from mv), _squareToCoords (mv_to mv) with
      | Some (Num r1, c1), Some (Num r2, c2) =>
          let piece := cellAt (board st) r2 c2 in
          match
            (match mv_promotion mv with
             | Some _ =>
                 match piece with
                 | Some p => Some (Some (if isWhitePiece p then "P" else "p")%char)
                 | None => None
                 end
             | None => Some piece
             end)
          with
          | Some restorePiece =>
              let b1 := setCell (board st) r1 c1 restorePiece in
              let b2 := setCell b1 r2 c2 (he_captured entry) in
              putState (mkChess b2 (he_turn entry) rest) ;;;
              ret (Some mv)
          | None => throw
          end
      | _, _ => throw
      end
  end.

(** ** Legal moves *)

Record MovesOpts : Type := mkOpts {
  verbose : bool;
  square : option string
}.

(** [moves()] answers with move objects when [verbose], with text otherwise. *)
Inductive MoveOut : Type :=
| Verbose (mv : Move)
| Text (s : string).

Definition promotionText (mv : Move) : string :=
  match mv_promotion mv with Some p => str1 p | None => EmptyString end.

Definition moveText (mv : Move) : string :=
  (mv_from mv ++ mv_to mv ++ promotionText mv)%string.

(** The pseudo-legal candidates of the side to move, row by row. *)
Definition sideMoves (st : SimpleChess) : list Move :=
  flat_map (fun rc : Z * Z =>
    match cellAt (board st) rc.1 rc.2 with
    | None => []
    | Some piece =>
        if negb (Color_eqb (colorOfPiece piece) (turnColor st)) then []
        else _generatePieceMoves st rc.1 rc.2
    end) allSquares.

(** The filtering loop: make the move, test the mover's king, undo. *)
Fixpoint filterLegal (candidates : list Move) (legalMoves : list Move)
    : M (list Move) :=
  match candidates with
  | [] => ret legalMoves
  | mv :: rest =>
      _makeMove mv ;;;
      st <- getState ;;
      let inCheck :=
        _isInCheck st (match turnColor st with W => B | B => W end) in
      undo ;;;
      filterLegal rest (if inCheck then legalMoves else legalMoves ++ [mv])
  end.

(** The body of [moves] up to the rendering of the answer. *)
Definition legalMovesOf (sq : option string) : M (list Move) :=
  st <- getState ;;
  match (match sq with
         | Some s => if truthy s then Some s else None
         | None => None
         end) with
  | Some s =>
      match _squareToCoords s with
      | None => ret []
      | Some (Num r, c) => filterLegal (_generatePieceMoves st r c) []
      | Some (NaN, _) => throw
      end
  | None => filterLegal (sideMoves st) []
  end.

Definition renderMove (verbose : bool) (mv : Move) : MoveOut :=
  if verbose then Verbose mv else Text (moveText mv).

Definition moves (opts : MovesOpts) : M (list MoveOut) :=
  legal <- legalMovesOf (square opts) ;;
  ret (map (renderMove (verbose opts)) legal).

(** ** The public move operation *)

Record MoveRequest : Type := mkRequest {
  rq_from : string;
  rq_to : string;
  rq_promotion : option string
}.

(** [move] takes a move object or its text form. *)
Inductive MoveArg : Type :=
| ArgText (s : string)
| ArgObject (rq : MoveRequest).

Definition lowerString (s : string) : string :=
  string_of_list_ascii (map toLowerCase (list_ascii_of_string s)).

Definition requestOfArg (a : MoveArg) : MoveRequest :=
  match a with
  | ArgObject rq => rq
  | ArgText s =>
      let promotion :=
        if (4 <? String.length s)%nat
        then Some (lowerString (String.substring 4 (String.length s - 4) s))
        else None in
      mkRequest (String.substring 0 2 s) (String.substring 2 2 s)
                (match promotion with
                 | Some p => if truthy p then Some p else None
                 | None => None
                 end)
  end.

(** [mv.promotion && mv.promotion !== lm.promotion] *)
Definition promotionMismatch (rq : MoveRequest) (lm : Move) : bool :=
  match rq_promotion rq with
  | Some p =>
      truthy p
      && negb (match mv_promotion lm with
               | Some q => String.eqb p (str1 q)
               | None => false
               end)
  | None => false
  end.

Definition matchesRequest (rq : MoveRequest) (lm : Move) : bool :=
  String.eqb (mv_from lm) (rq_from rq) && String.eqb (mv_to lm) (rq_to rq)
  && negb (promotionMismatch rq lm).

(** The first legal move with the requested squares whose promotion does not
    contradict a requested one is applied and answered; [null] otherwise. *)
Definition move (a : MoveArg) : M (option Move) :=
  let rq := requestOfArg a in
  legalMoves <- legalMovesOf None ;;
  match List.find (matchesRequest rq) legalMoves with
  | Some lm => _makeMove lm ;;; ret (Some lm)
  | None => ret None
  end.

Definition _currentInCheck (st : SimpleChess) : bool :=
  _isInCheck st (turnColor st).

Definition in_check (st : SimpleChess) : bool := _currentInCheck st.

Definition in_checkmate : M bool :=
  st <- getState ;;
  if negb (_currentInCheck st) then ret false
  else l <- moves (mkOpts false None) ;; ret (length l =? 0)%nat.

Definition in_stalemate : M bool :=
  st <- getState ;;
  if _currentInCheck st then ret false
  else l <- moves (mkOpts false None) ;; ret (length l =? 0)%nat.

(** ** Reading a square *)

Record PieceInfo : Type := mkPieceInfo {
  pi_type : ascii;
  pi_color : Color
}.

Definition get (sq : string) : M (option PieceInfo) :=
  st <- getState ;;
  match _squareToCoords sq with
  | None => ret None
  | Some (Num r, c) =>
      match cellAt (board st) r c with
      | None => ret None
      | Some piece =>
          ret (Some (mkPieceInfo (toLowerCase piece)
                                 (if isWhitePiece piece then W else B)))
      end
  | Some (NaN, _) => throw
  end.

(** ** Serialisation *)

Definition stringOfNat (n : nat) : string := stringOfZ (Z.of_nat n).

Definition flushEmpty (empty : nat) (fen : string) : string :=
  if (0 <? empty)%nat then (fen ++ stringOfNat empty)%string else fen.

(** The inner loop of [fen] over the cells of one rank. *)
Fixpoint fenCells (cells : list Cell) (empty : nat) (fen : string) : string :=
  match cells with
  | [] => flushEmpty empty fen
  | None :: rest => fenCells rest (S empty) fen
  | Some cell :: rest =>
      fenCells rest 0%nat (flushEmpty empty fen ++ str1 cell)%string
  end.

Definition fenRank (bd : Board) (fen : string) (r : Z) : string :=
  let fen1 := fenCells (map (cellAt bd r) coords8) 0%nat fen in
  if r <? 7 then (fen1 ++ "/")%string else fen1.

Definition colorText (c : Color) : string :=
  match c with W => "w" | B => "b" end.

(** The ranks from the eighth to the first, a slash after each but the last,
    then the side to move and the fixed tail. *)
Definition fen (st : SimpleChess) : string :=
  (fold_left (fenRank (board st)) coords8 EmptyString
   ++ " " ++ colorText (turnColor st) ++ " - - 0 1")%string.

(** ** Loading a position *)

(** White space of [trim] and of the pattern [\s] among 8-bit characters. *)
Definition isWhitespace (ch : ascii) : bool :=
  let n := charCode ch in
  ((9 <=? n) && (n <=? 13)) || (n =? 32) || (n =? 160).

Fixpoint trimStart (s : string) : string :=
  match s with
  | EmptyString => EmptyString
  | String ch rest => if isWhitespace ch then trimStart rest else s
  end.

Fixpoint trimEnd (s : string) : string :=
  match s with
  | EmptyString => EmptyString
  | String ch rest =>
      match trimEnd rest with
      | EmptyString => if isWhitespace ch then EmptyString else str1 ch
      | kept => String ch kept
      end
  end.

Definition trim (s : string) : string := trimEnd (trimStart s).

(** [s.split(/\s+/)]: [cur] is the piece being read, [inRun] tells that the
    previous character was white space. *)
Fixpoint splitWhitespace (s cur : string) (inRun : bool) : list string :=
  match s with
  | EmptyString => [cur]
  | String ch rest =>
      if isWhitespace ch then
        if inRun then splitWhitespace rest EmptyString true
        else cur :: splitWhitespace rest EmptyString true
      else splitWhitespace rest (cur ++ str1 ch)%string false
  end.

(** [s.split('/')] *)
Fixpoint splitSlash (s cur : string) : list string :=
  match s with
  | EmptyString => [cur]
  | String ch rest =>
      if ascii_eqb ch "/" then cur :: splitSlash rest EmptyString
      else splitSlash rest (cur ++ str1 ch)%string
  end.

Definition isRunDigit (ch : ascii) : bool :=
  let n := charCode ch in (49 <=? n) && (n <=? 56).

(** The [for (const ch of rows[r])] loop; [col] runs along with the row. *)
Fixpoint parseRank (chars : string) (row : list Cell) (col : nat) : list Cell :=
  match chars with
  | EmptyString => row
  | String ch rest =>
      if (7 <? col)%nat then row
      else if isRunDigit ch then
        let empty := Z.to_nat (charCode ch - 48) in
        parseRank rest (row ++ replicate empty None) (col + empty)%nat
      else parseRank rest (row ++ [Some ch]) (col + 1)%nat
  end.

Definition padRank (row : list Cell) : list Cell :=
  row ++ replicate (8 - length row) None.

(** [parts[0]] of [fen.trim().split(/\s+/)]. *)
Definition placementOf (fen : string) : string :=
  match splitWhitespace (trim fen) EmptyString false with
  | p :: _ => p
  | [] => EmptyString
  end.

(** [parts[1] || 'w'], read as black only when it is exactly ["b"]. *)
Definition turnOf (fen : string) : Color :=
  match splitWhitespace (trim fen) EmptyString false with
  | _ :: t :: _ => if String.eqb t "b" then B else W
  | _ => W
  end.

Definition rowsOf (fen : string) : list string :=
  splitSlash (placementOf fen) EmptyString.

(** On a string nothing inside the [try] block raises, so the [catch] branch
    is never taken; the three fields are assigned only after all eight ranks
    are read. *)
Definition load (fen : string) : M bool :=
  let rows := rowsOf fen in
  if negb (length rows =? 8)%nat then ret false
  else
    let board := map (fun chars => padRank (parseRank chars [] 0%nat)) rows in
    putState (mkChess board (turnOf fen) []) ;;;
    ret true.

(** ** Rating store *)

(** Ratings are integers.  The source computes on doubles, which agrees with
    the integer arithmetic below while magnitudes stay under 2^53 and rounds
    beyond; every theorem that depends on the arithmetic is stated for
    ratings in the exact range ([plainRating]). *)

Definition getRating (scoreboard : gmap string Z) (userId : string) : Z :=
  default 1500 (scoreboard !! userId).

(** The final revision: the loser pays 4 when rated above the winner,
    3 otherwise, and the floor is 0. *)
Definition updateRatings (winnerId loserId : string)
    (scoreboard : gmap string Z) : gmap string Z :=
  let winnerRating := getRating scoreboard winnerId in
  let loserRating := getRating scoreboard loserId in
  let newWinnerRating := winnerRating + 5 in
  let penalty := if winnerRating <? loserRating then 4 else 3 in
  let newLoserRating := Z.max 0 (loserRating - penalty) in
  <[loserId := newLoserRating]> (<[winnerId := newWinnerRating]> scoreboard).

(** The earlier revision of the server: the loser pays 4 when rated below the
    winner, 3 otherwise, and the floor is 1. *)
Module Earlier.
Definition updateRatings (winnerId loserId : string)
    (scoreboard : gmap string Z) : gmap string Z :=
  let winnerRating := getRating scoreboard winnerId in
  let loserRating := getRating scoreboard loserId in
  let newWinnerRating := winnerRating + 5 in
  let penalty := if loserRating <? winnerRating then 4 else 3 in
  let newLoserRating := Z.max 1 (loserRating - penalty) in
  <[loserId := newLoserRating]> (<[winnerId := newWinnerRating]> scoreboard).
End Earlier.

(** ** Game sessions and the move timeout *)

Record Player : Type := mkPlayer {
  player_id : string;
  player_name : string
}.

Record GameResult : Type := mkResult {
  winnerId : option string;
  loserId : option string;
  reason : string
}.

Record Game : Type := mkGame {
  game_id : string;
  players_w : Player;
  players_b : Player;
  engine : SimpleChess;
  game_turn : Color;
  over : bool;
  result : option GameResult;
  lastMove : Z
}.

Definition playerOf (game : Game) (c : Color) : Player :=
  match c with W => players_w game | B => players_b game end.

Definition MOVE_TIMEOUT_MS : Z := 5 * 60 * 1000.

(** The server state a timeout check reads and writes: the rating table and
    the game object (absent when the lookup found none). *)
Record TimeoutState : Type := mkTimeoutState {
  ts_scoreboard : gmap string Z;
  ts_game : option Game
}.

(** [now] is the value [Date.now()] returns during the call. *)
Definition checkTimeout (now : Z) (s : TimeoutState) : bool * TimeoutState :=
  match ts_game s with
  | None => (false, s)
  | Some game =>
      if over game then (false, s)
      else if negb (lastMove game =? 0) && (MOVE_TIMEOUT_MS <? now - lastMove game)
      then
        let loserColor := turn (engine game) in
        let winnerColor := match loserColor with W => B | B => W end in
        let winner := player_id (playerOf game winnerColor) in
        let loser := player_id (playerOf game loserColor) in
        let scoreboard' := updateRatings winner loser (ts_scoreboard s) in
        let game' :=
          mkGame (game_id game) (players_w game) (players_b game) (engine game)
                 (game_turn game) true
                 (Some (mkResult (Some winner) (Some loser) "timeout"))
                 (lastMove game) in
        (true, mkTimeoutState scoreboard' (Some game'))
      else (false, s)
  end.

(** ** Matchmaking queue *)

(** Rating differences are integers here, finite and exact, as the source's
    are for ratings of magnitude up to 2^52.  For larger ratings the
    difference computed by the source is rounded and can be [Infinity],
    which is not below the initial [bestDiff]; the theorems on pairing are
    stated for ratings in the exact range. *)

Record QueueEntry : Type := mkQueueEntry {
  qe_id : string;
  qe_name : string;
  qe_rating : option Z;
  qe_ts : Z
}.

(** The queue is a [Map]: its iteration order is insertion order, which the
    tie-break depends on, so it is kept as an association list. *)
Abbreviation Queue := (list (string * QueueEntry)) (only parsing).

Fixpoint queueGet (queue : Queue) (id : string) : option QueueEntry :=
  match queue with
  | [] => None
  | (k, u) :: rest => if String.eqb k id then Some u else queueGet rest id
  end.

(** [x ?? 1500] *)
Definition ratingOr1500 (r : option Z) : Z := default 1500 r.

(** [bestDiff] starts at [Infinity], which is [None] here. *)
Definition belowBest (diff : Z) (bestDiff : option Z) : bool :=
  match bestDiff with
  | None => true
  | Some d => diff <? d
  end.

Definition scanStep (playerId : string) (playerRating : option Z)
    (acc : option string * option Z) (kv : string * QueueEntry)
    : option string * option Z :=
  if String.eqb kv.1 playerId then acc
  else
    let diff := Z.abs (ratingOr1500 (qe_rating kv.2) - ratingOr1500 playerRating) in
    if belowBest diff acc.2 then (Some kv.1, Some diff) else acc.

Definition findBestOpponent (queue : Queue) (playerId : string)
    (playerRating : option Z) : option QueueEntry :=
  match (fold_left (scanStep playerId playerRating) queue (None, None)).1 with
  | Some bestId => if truthy bestId then queueGet queue bestId else None
  | None => None
  end.

(** ** The remaining queries of the engine *)

Definition in_draw : M bool := in_stalemate.

(** [this.in_checkmate() || this.in_stalemate()] *)
Definition game_over : M bool :=
  mate <- in_checkmate ;;
  if mate then ret true else in_stalemate.

(** The piece object of [boardState] and of [get] for an occupied cell. *)
Definition pieceInfo (piece : ascii) : PieceInfo :=
  mkPieceInfo (toLowerCase piece) (if isWhitePiece piece then W else B).

(** Every row of the board, whatever its length, cell by cell. *)
Definition boardState (st : SimpleChess) : list (list (option PieceInfo)) :=
  map (fun row => map (fun cell : Cell => option_map pieceInfo cell) row)
      (board st).

(** [history()] answers the recorded moves, oldest first. *)
Definition history (verbose : bool) (st : SimpleChess) : list MoveOut :=
  map (fun entry => renderMove verbose (he_mv entry)) (_history st).

(** ** The server: in-memory state and request handlers *)

(** A [Map] with text keys, kept in insertion order. *)
Fixpoint mapGet {V : Type} (m : list (string * V)) (k : string) : option V :=
  match m with
  | [] => None
  | (k', v) :: rest => if String.eqb k' k then Some v else mapGet rest k
  end.

(** [m.set(k, v)]: an existing key keeps its place, a new one goes last. *)
Fixpoint mapSet {V : Type} (k : string) (v : V) (m : list (string * V))
    : list (string * V) :=
  match m with
  | [] => [(k, v)]
  | (k', v') :: rest =>
      if String.eqb k' k then (k, v) :: rest else (k', v') :: mapSet k v rest
  end.

(** [m.delete(k)] *)
Definition mapDelete {V : Type} (k : string) (m : list (string * V))
    : list (string * V) :=
  List.filter (fun kv => negb (String.eqb kv.1 k)) m.

(** The three maps of the server. *)
Record Server : Type := mkServer {
  sv_queue : Queue;
  sv_scoreboard : gmap string Z;
  sv_games : list (string * Game)
}.

Definition emptyServer : Server := mkServer [] ∅ [].

(** The body of [POST /match] with text ids; [rating] is absent when the
    request carries no number there. *)
Record MatchRequest : Type := mkMatchRequest {
  mr_id : string;
  mr_name : string;
  mr_rating : option Z
}.

(** What the handler reads from its environment: the two clock readings, the
    coin [Math.random() < 0.5] and the identifier [crypto.randomUUID()]. *)
Record MatchEnv : Type := mkMatchEnv {
  me_now : Z;
  me_whiteFirst : bool;
  me_gameId : string;
  me_gameNow : Z
}.

Record Opponent : Type := mkOpponent {
  op_id : string;
  op_name : string;
  op_rating : Z
}.

Inductive MatchResponse : Type :=
| MatchError (status : Z) (error : string)
| NotMatched
| Matched (gameId : string) (color : Color) (opponent : Opponent) (fen : string).

(** [Number(rating) || getRating(id)]: a missing, non-numeric or zero rating
    falls back to the stored one. *)
Definition parsedRatingOf (scoreboard : gmap string Z) (id : string)
    (rating : option Z) : Z :=
  match rating with
  | Some r => if r =? 0 then getRating scoreboard id else r
  | None => getRating scoreboard id
  end.

(** [createGame(playerA, playerB)]: the game object stored under the new
    identifier. *)
Definition createGame (whiteFirst : bool) (gameId : string) (now : Z)
    (aId aName bId bName : string) : Game :=
  let white := if whiteFirst then (aId, aName) else (bId, bName) in
  let black := if whiteFirst then (bId, bName) else (aId, aName) in
  mkGame gameId (mkPlayer white.1 white.2) (mkPlayer black.1 black.2)
         reset W false None now.

Definition postMatch (env : MatchEnv) (rq : MatchRequest) (s : Server)
    : MatchResponse * Server :=
  let id := mr_id rq in
  let name := mr_name rq in
  if negb (truthy id) || negb (truthy name)
  then (MatchError 400 "id and name are required", s)
  else
    let parsedRating := parsedRatingOf (sv_scoreboard s) id (mr_rating rq) in
    let scoreboard :=
      match sv_scoreboard s !! id with
      | Some _ => sv_scoreboard s
      | None => <[id := parsedRating]> (sv_scoreboard s)
      end in
    let queue :=
      mapSet id (mkQueueEntry id name (Some parsedRating) (me_now env))
             (sv_queue s) in
    match findBestOpponent queue id (Some parsedRating) with
    | Some opp =>
        let queue' := mapDelete (qe_id opp) (mapDelete id queue) in
        let game :=
          createGame (me_whiteFirst env) (me_gameId env) (me_gameNow env)
                     id name (qe_id opp) (qe_name opp) in
        let myColor :=
          if String.eqb (player_id (players_w game)) id then W else B in
        let opponent :=
          mkOpponent (qe_id opp) (qe_name opp) (getRating scoreboard (qe_id opp)) in
        (Matched (me_gameId env) myColor opponent (fen (engine game)),
         mkServer queue' scoreboard (mapSet (me_gameId env) game (sv_games s)))
    | None => (NotMatched, mkServer queue scoreboard (sv_games s))
    end.

Definition seatOf (game : Game) (id : string) : option Color :=
  if String.eqb (player_id (players_w game)) id then Some W
  else if String.eqb (player_id (players_b game)) id then Some B
  else None.

(** [GET /match/:id]: the first game, in insertion order, that is not over
    and has the player on one of its seats. *)
Definition getMatch (id : string) (s : Server) : MatchResponse :=
  match List.find (fun kv : string * Game =>
                     (String.eqb (player_id (players_w kv.2)) id
                      || String.eqb (player_id (players_b kv.2)) id)
                     && negb (over kv.2)) (sv_games s) with
  | Some (gid, game) =>
      let myColor := if String.eqb (player_id (players_w game)) id then W else B in
      let opponent :=
        match myColor with W => players_b game | B => players_w game end in
      Matched gid myColor
              (mkOpponent (player_id opponent) (player_name opponent)
                          (getRating (sv_scoreboard s) (player_id opponent)))
              (fen (engine game))
  | None => NotMatched
  end.

(** The state object of [GET /game/:id] and of [POST /game/:id/move]; only
    the former carries [lastMove]. *)
Record GameStateView : Type := mkView {
  gv_fen : string;
  gv_turn : Color;
  gv_over : bool;
  gv_result : option GameResult;
  gv_rating_w : Z;
  gv_rating_b : Z;
  gv_lastMove : option Z
}.

Inductive GameResponse : Type :=
| GameError (status : Z) (error : string)
| GameState (view : GameStateView).

Definition viewOf (scoreboard : gmap string Z) (game : Game)
    (shownLastMove : option Z) : GameStateView :=
  mkView (fen (engine game)) (turn (engine game)) (over game) (result game)
         (getRating scoreboard (player_id (players_w game)))
         (getRating scoreboard (player_id (players_b game)))
         shownLastMove.

(** [checkTimeout(game)] on the game object stored under [gameId]: the object
    is changed in place, so it stays under its key. *)
Definition checkTimeoutIn (now : Z) (gameId : string) (game : Game) (s : Server)
    : bool * Game * Server :=
  let r := checkTimeout now (mkTimeoutState (sv_scoreboard s) (Some game)) in
  let game' := default game (ts_game r.2) in
  (r.1, game',
   mkServer (sv_queue s) (ts_scoreboard r.2) (mapSet gameId game' (sv_games s))).

Definition getGame (now : Z) (gameId : string) (s : Server)
    : GameResponse * Server :=
  match mapGet (sv_games s) gameId with
  | None => (GameError 404 "game not found", s)
  | Some game =>
      let '(_, game', s') := checkTimeoutIn now gameId game s in
      (GameState (viewOf (sv_scoreboard s') game' (Some (lastMove game'))), s')
  end.

(** [GET /score/:id] *)
Definition getScore (id : string) (s : Server) : string * Z :=
  (id, getRating (sv_scoreboard s) id).

(** The body of [POST /game/:id/move]; a missing field is the empty text. *)
Record MoveBody : Type := mkMoveBody {
  mb_playerId : string;
  mb_from : string;
  mb_to : string;
  mb_promotion : option string
}.

Definition requestOfBody (body : MoveBody) : MoveRequest :=
  mkRequest (lowerString (mb_from body)) (lowerString (mb_to body))
            (match mb_promotion body with
             | Some p => if truthy p then Some (lowerString p) else None
             | None => None
             end).

(** The engine object of a game after a call that changed it. *)
Definition setEngine (game : Game) (e : SimpleChess) : Game :=
  mkGame (game_id game) (players_w game) (players_b game) e (game_turn game)
         (over game) (result game) (lastMove game).

(** [game.turn = engine.turn(); game.lastMove = Date.now()] *)
Definition stampMove (game : Game) (stamp : Z) : Game :=
  mkGame (game_id game) (players_w game) (players_b game) (engine game)
         (turn (engine game)) (over game) (result game) stamp.

(** [game.over = true; game.result = result] *)
Definition finished (game : Game) (r : GameResult) : Game :=
  mkGame (game_id game) (players_w game) (players_b game) (engine game)
         (game_turn game) true (Some r) (lastMove game).

Definition putGame (gameId : string) (game : Game) (scoreboard : gmap string Z)
    (s : Server) : Server :=
  mkServer (sv_queue s) scoreboard (mapSet gameId game (sv_games s)).

(** [now] is the clock reading of the timeout check, [stamp] the one stored
    as the time of the move.  [None] is an exception out of the engine. *)
Definition postMove (now stamp : Z) (gameId : string) (body : MoveBody)
    (s : Server) : option (GameResponse * Server) :=
  match mapGet (sv_games s) gameId with
  | None => Some (GameError 404 "game not found", s)
  | Some game0 =>
      let '(timedOutNow, game, s1) := checkTimeoutIn now gameId game0 s in
      if timedOutNow
      then Some (GameState (viewOf (sv_scoreboard s1) game None), s1)
      else if negb (truthy (mb_playerId body)) || negb (truthy (mb_from body))
              || negb (truthy (mb_to body))
      then Some (GameError 400 "playerId, from and to are required", s1)
      else if over game then Some (GameError 400 "game already over", s1)
      else
        match seatOf game (mb_playerId body) with
        | None => Some (GameError 403 "you are not a player in this game", s1)
        | Some myColor =>
            if negb (Color_eqb myColor (turn (engine game)))
            then Some (GameError 400 "not your turn", s1)
            else
              match move (ArgObject (requestOfBody body)) (engine game) with
              | None => None
              | Some (None, e1) =>
                  Some (GameError 400 "illegal move",
                        putGame gameId (setEngine game e1) (sv_scoreboard s1) s1)
              | Some (Some _, e1) =>
                  let game1 := stampMove (setEngine game e1) stamp in
                  match in_checkmate e1 with
                  | None => None
                  | Some (true, e2) =>
                      let game2 := setEngine game1 e2 in
                      let loserColor := turn e2 in
                      let winnerColor := match loserColor with W => B | B => W end in
                      let winner := player_id (playerOf game2 winnerColor) in
                      let loser := player_id (playerOf game2 loserColor) in
                      let scoreboard := updateRatings winner loser (sv_scoreboard s1) in
                      let game3 :=
                        finished game2 (mkResult (Some winner) (Some loser) "checkmate") in
                      Some (GameState (viewOf scoreboard game3 None),
                            putGame gameId game3 scoreboard s1)
                  | Some (false, e2) =>
                      match in_stalemate e2 with
                      | None => None
                      | Some (stale, e3) =>
                          let game2 := setEngine game1 e3 in
                          let game3 :=
                            if stale
                            then finished game2 (mkResult None None "stalemate")
                            else game2 in
                          Some (GameState (viewOf (sv_scoreboard s1) game3 None),
                                putGame gameId game3 (sv_scoreboard s1) s1)
                      end
                  end
              end
        end
  end.

(** ** The first server *)

(** [src/server.js] pairs players without creating a game: both players of
    a pair get a notice in [matches], which a poll hands out once.  The
    messages sent through the bot do not feed back into the state and are
    left out. *)
Module Legacy.

Record Notice : Type := mkNotice {
  nt_id : string;
  nt_name : string;
  nt_rating : option Z
}.

Record State : Type := mkState {
  st_queue : Queue;
  st_matches : list (string * Notice)
}.

Inductive Response : Type :=
| Error (status : Z) (error : string)
| NotMatched
| Matched (opponent : Notice).

(** [Number(rating) || 1500] *)
Definition ratingOf (rating : option Z) : Z :=
  match rating with
  | Some r => if r =? 0 then 1500 else r
  | None => 1500
  end.

Definition noticeOf (u : QueueEntry) : Notice :=
  mkNotice (qe_id u) (qe_name u) (qe_rating u).

Definition postMatch (now : Z) (id name : string) (rating : option Z)
    (s : State) : Response * State :=
  if negb (truthy id) then (Error 400 "id required", s)
  else
    (* [queue.get(id)] right after [queue.set(id, ...)] is the entry stored *)
    let me := mkQueueEntry id name (Some (ratingOf rating)) now in
    let queue := mapSet id me (st_queue s) in
    match findBestOpponent queue (qe_id me) (qe_rating me) with
    | Some opponent =>
        let queue' := mapDelete (qe_id opponent) (mapDelete id queue) in
        let a := noticeOf me in
        let b := noticeOf opponent in
        (Matched b,
         mkState queue'
                 (mapSet (qe_id opponent) a (mapSet (qe_id me) b (st_matches s))))
    | None => (NotMatched, mkState queue (st_matches s))
    end.

Definition getMatch (id : string) (s : State) : Response * State :=
  match mapGet (st_matches s) id with
  | Some m => (Matched m, mkState (st_queue s) (mapDelete id (st_matches s)))
  | None => (NotMatched, s)
  end.

End Legacy.

(** * Vocabulary of the statements *)

(** ** Well-formed boards and generated moves *)

(** Eight ranks of eight files each. *)
Definition wfBoard (bd : Board) : Prop :=
  length bd = 8%nat /\ Forall (fun row => length row = 8%nat) bd.

Definition isPawn (p : ascii) : bool := ascii_eqb (toLowerCase p) "p".
Definition lastRank (rr : Z) : bool := (rr =? 0) || (rr =? 7).

(** A candidate for the piece on [(r, c)]: it starts there, ends on another
    square of the board, belongs to the side to move, and carries the queen
    promotion exactly when a pawn reaches a last rank. *)
Definition goodMove (st : SimpleChess) (r c : Z) (mv : Move) : Prop :=
  exists p rr cc,
    cellAt (board st) r c = Some p /\
    colorOfPiece p = turnColor st /\
    _inBounds rr cc = true /\
    (rr <> r \/ cc <> c) /\
    mv_from mv = _coordsToSquare r c /\
    mv_to mv = _coordsToSquare rr cc /\
    mv_piece mv = toLowerCase p /\
    mv_promotion mv = if isPawn p && lastRank rr then Some "q"%char else None.

(** A move without promotion of [piece] from [fromSquare] to [(rr, cc)]. *)
Definition plainTo (fromSquare : string) (piece : ascii) (mv : Move)
    (rr cc : Z) : Prop :=
  _inBounds rr cc = true /\
  mv_from mv = fromSquare /\
  mv_to mv = _coordsToSquare rr cc /\
  mv_piece mv = toLowerCase piece /\
  mv_promotion mv = None.

Definition promotes (p : ascii) (rr : Z) : bool := isPawn p && lastRank rr.

(** The board after the piece [p] went from [(r, c)] to [(rr, cc)]. *)
Definition movedBoard (bd : Board) (r c rr cc : Z) (p : ascii) : Board :=
  let b2 := setCell (setCell bd rr cc (Some p)) r c None in
  if promotes p rr
  then setCell b2 rr cc (Some (if isWhitePiece p then "Q" else "q")%char)
  else b2.

(** ** Legal moves and reachable positions *)

(** The test [moves] runs on a candidate: the mover's king after the move. *)
Definition leavesKingSafe (st : SimpleChess) (mv : Move) : bool :=
  match _makeMove mv st with
  | Some (_, st1) => negb (_isInCheck st1 (turnColor st))
  | None => false
  end.

(** Every move of the list is a candidate for some square of the board. *)
Definition candidatesOf (st : SimpleChess) (cands : list Move) : Prop :=
  forall mv, In mv cands -> exists r c, _inBounds r c = true /\ goodMove st r c mv.

(** The positions reached from the initial one by successful calls of
    [move], given text or objects. *)
Inductive reachable : SimpleChess -> Prop :=
| reachable_reset : reachable reset
| reachable_move (st st' : SimpleChess) (a : MoveArg) (lm : Move) :
    reachable st ->
    move a st = Some (Some lm, st') ->
    reachable st'.

(** The invariant of play: an eight by eight board whose occupied cells hold
    one of the twelve piece letters. *)
Definition isPieceLetter (p : ascii) : bool :=
  existsb (ascii_eqb p) (list_ascii_of_string "rnbqkpRNBQKP").

Definition cellOk (cell : Cell) : Prop :=
  match cell with Some p => isPieceLetter p = true | None => True end.

Definition piecesOnly (bd : Board) : Prop := Forall (Forall cellOk) bd.

Definition validState (st : SimpleChess) : Prop :=
  wfBoard (board st) /\ piecesOnly (board st).

(** [_makeMove] applies the move and the mover's king is then not attacked. *)
Definition kingSafeAfter (st : SimpleChess) (mv : Move) : Prop :=
  exists st1,
    _makeMove mv st = Some (tt, st1) /\ _isInCheck st1 (turnColor st) = false.

(** The request a listed move stands for, as an object. *)
Definition requestOfMove (mv : Move) : MoveRequest :=
  mkRequest (mv_from mv) (mv_to mv) (option_map str1 (mv_promotion mv)).

(** Applying a listed move: directly with [_makeMove], or by handing it back
    to [move] as text or as an object; each time the mover's king is not
    attacked afterwards. *)
Definition appliesSafely (st : SimpleChess) (mv : Move) : Prop :=
  kingSafeAfter st mv
  /\ forall a,
       a = ArgText (moveText mv) \/ a = ArgObject (requestOfMove mv) ->
       exists lm st',
         move a st = Some (Some lm, st')
         /\ _isInCheck st' (turnColor st) = false.

(** ** A line of play that ends before a promotion *)

(** Plays the moves of the line in turn with [move]; [None] when one of them
    is refused. *)
Fixpoint playText (line : list string) (st : SimpleChess) : option SimpleChess :=
  match line with
  | [] => Some st
  | m :: rest =>
      match move (ArgText m) st with
      | Some (Some _, st') => playText rest st'
      | _ => None
      end
  end.

(** After 1. h4 g5 2. hxg5 h6 3. gxh6 a6 4. h7 a5 the white pawn on h7 can
    take the knight on g8 and promote. *)
Definition promotionLine : list string :=
  ["h2h4"; "g7g5"; "h4g5"; "h7h6"; "g5h6"; "a7a6"; "h6h7"; "a6a5"].

Definition promotionPosition : SimpleChess :=
  default reset (playText promotionLine reset).

Definition h7g8 : Move :=
  mkMove "h7" "g8" "p"%char (Some "n"%char) (Some "q"%char).

(** A pawn move of the position that ends on a last rank. *)
Definition promotingPawnMove (lm : Move) (rr cc : Z) : Prop :=
  mv_piece lm = "p"%char
  /\ _squareToCoords (mv_to lm) = Some (Num rr, cc)
  /\ (rr = 0 \/ rr = 7).

Definition queenOf (c : Color) : ascii :=
  match c with W => "Q"%char | B => "q"%char end.

(** ** The text of a rank *)

Fixpoint strAll (f : ascii -> bool) (s : string) : bool :=
  match s with
  | EmptyString => true
  | String ch rest => f ch && strAll f rest
  end.

(** The text of a rank without the accumulator of [fenCells]. *)
Fixpoint rankText (cells : list Cell) (empty : nat) : string :=
  match cells with
  | [] => flushEmpty empty EmptyString
  | None :: rest => rankText rest (S empty)
  | Some cell :: rest =>
      (flushEmpty empty EmptyString ++ String cell (rankText rest 0%nat))%string
  end.

Definition digitChar (n : nat) : ascii := fromCharCode (48 + Z.of_nat n).

Definition isFenChar (ch : ascii) : bool := isRunDigit ch || isPieceLetter ch.

(** The placement field of [fen]: the eight rank texts joined by slashes. *)
Definition placementText (rows : list (list Cell)) : string :=
  match rows with
  | [r0; r1; r2; r3; r4; r5; r6; r7] =>
      (rankText r0 0 ++ "/" ++ rankText r1 0 ++ "/" ++ rankText r2 0 ++ "/"
       ++ rankText r3 0 ++ "/" ++ rankText r4 0 ++ "/" ++ rankText r5 0 ++ "/"
       ++ rankText r6 0 ++ "/" ++ rankText r7 0)%string
  | _ => EmptyString
  end.

(** ** Sample inputs and the reading of loaded ranks *)

(** A lone white king on a1: Black has no king. *)
Definition loneKing : SimpleChess :=
  mkChess (replicate 7 (replicate 8 None)
           ++ [Some "K"%char :: replicate 7 None]) W [].

(** What the characters of a rank stand for: a digit from 1 to 8 is a run of
    that many empty squares, any other character is a piece. *)
Fixpoint expandRank (chars : string) : list Cell :=
  match chars with
  | EmptyString => []
  | String ch rest =>
      (if isRunDigit ch then replicate (Z.to_nat (charCode ch - 48)) None
       else [Some ch]) ++ expandRank rest
  end.

(** The row [load] stores for the rank text [chars]. *)
Definition loadedRank (chars : string) : list Cell :=
  padRank (parseRank chars [] 0%nat).

(** ** Texts that name a square *)

Definition isDecimalDigit (ch : ascii) : bool :=
  let n := charCode ch in (48 <=? n) && (n <=? 57).

(** [a1] to [h8]. *)
Definition wellFormedSquare (sq : string) : bool :=
  match sq with
  | String f (String r EmptyString) =>
      (97 <=? charCode f) && (charCode f <=? 104)
      && (49 <=? charCode r) && (charCode r <=? 56)
  | _ => false
  end.

(** The texts on which the range test of [_squareToCoords] decides: those
    that are not two characters long, those whose file is outside a to h, and
    those whose rank character is a decimal digit. *)
Definition rangeTested (sq : string) : bool :=
  match sq with
  | String f (String r EmptyString) =>
      negb ((97 <=? charCode f) && (charCode f <=? 104)) || isDecimalDigit r
  | _ => true
  end.

(** ** Timeout and matchmaking *)

(** The game is still running and the time since the last move strictly
    exceeds the timeout. *)
Definition timedOut (now : Z) (game : Game) : Prop :=
  over game = false /\ MOVE_TIMEOUT_MS < now - lastMove game.

(** The game marked over by timeout: the side to move loses, the other
    side wins. *)
Definition forfeit (game : Game) : Game :=
  let loserColor := turn (engine game) in
  mkGame (game_id game) (players_w game) (players_b game) (engine game)
         (game_turn game) true
         (Some (mkResult (Some (player_id (playerOf game (opposite loserColor))))
                         (Some (player_id (playerOf game loserColor)))
                         "timeout"))
         (lastMove game).

Definition sampleGame : Game :=
  mkGame "g1" (mkPlayer "ann" "Ann") (mkPlayer "bob" "Bob") reset W false None
         1000.

(** The absolute rating difference of a waiting entry to the joiner. *)
Definition ratingGap (playerRating : option Z) (u : QueueEntry) : Z :=
  Z.abs (ratingOr1500 (qe_rating u) - ratingOr1500 playerRating).

(** The entry [u] at position [i] is closest: no other player's entry has a
    smaller rating difference to the joiner, and those before it in
    iteration order have a strictly larger one. *)
Definition closestFirst (playerId : string) (playerRating : option Z)
    (queue : Queue) (i : nat) (u : QueueEntry) : Prop :=
  forall j k' u',
    queue !! j = Some (k', u') -> k' <> playerId ->
    ratingGap playerRating u <= ratingGap playerRating u'
    /\ ((j < i)%nat -> ratingGap playerRating u < ratingGap playerRating u').


(** ** Play, destinations and kings *)

(** [n] calls of [undo] in a row. *)
Fixpoint undoTimes (n : nat) : M unit :=
  match n with
  | O => ret tt
  | S n' => undo ;;; undoTimes n'
  end.

(** The square [(rr, cc)] is inside the board, it is empty or holds a piece
    of the other colour than [piece], and [captured] of the move is the
    lower-cased piece that stands there, absent when it is empty. *)
Definition landsOn (bd : Board) (piece : ascii) (mv : Move) (rr cc : Z) : Prop :=
  _inBounds rr cc = true
  /\ mv_to mv = _coordsToSquare rr cc
  /\ mv_captured mv = option_map toLowerCase (cellAt bd rr cc)
  /\ forall target,
       cellAt bd rr cc = Some target ->
       isWhitePiece target <> isWhitePiece piece.

(** The move comes out of the generator for some square of the board. *)
Definition generatedBy (st : SimpleChess) (mv : Move) : Prop :=
  exists r c, _inBounds r c = true /\ In mv (_generatePieceMoves st r c).

(** Fool's mate: 1. f3 e5 2. g4 Qh4. *)
Definition foolsMate : SimpleChess :=
  default reset (playText ["f2f3"; "e7e5"; "g2g4"; "d8h4"]%string reset).

(** The square holds a king of the colour. *)
Definition kingAt (bd : Board) (col : Color) (r c : Z) : Prop :=
  exists p, cellAt bd r c = Some p
            /\ toLowerCase p = "k"%char /\ colorOfPiece p = col.

(** Exactly one square of the board holds a king of the colour. *)
Definition uniqueKing (bd : Board) (col : Color) : Prop :=
  exists kr kc,
    _inBounds kr kc = true /\ kingAt bd col kr kc
    /\ forall r c, _inBounds r c = true -> kingAt bd col r c -> r = kr /\ c = kc.

(** ** Requests and the states the server reaches *)

Inductive Request : Type :=
| PostMatch (env : MatchEnv) (rq : MatchRequest)
| GetMatch (id : string)
| GetGame (now : Z) (gameId : string)
| PostMove (now stamp : Z) (gameId : string) (body : MoveBody)
| GetScore (id : string).

(** The state after a request; [None] when the handler raises. *)
Definition handle (rq : Request) (s : Server) : option Server :=
  match rq with
  | PostMatch env mr => Some (postMatch env mr s).2
  | GetMatch _ => Some s
  | GetGame now gameId => Some (getGame now gameId s).2
  | PostMove now stamp gameId body => snd <$> postMove now stamp gameId body s
  | GetScore _ => Some s
  end.

(** The states reached from the start of the process by handled requests. *)
Inductive serverReachable : Server -> Prop :=
| serverReachable_start : serverReachable emptyServer
| serverReachable_step (s s' : Server) (rq : Request) :
    serverReachable s -> handle rq s = Some s' -> serverReachable s'.

Fixpoint handleAll (rqs : list Request) (s : Server) : option Server :=
  match rqs with
  | [] => Some s
  | rq :: rest =>
      match handle rq s with
      | Some s' => handleAll rest s'
      | None => None
      end
  end.

(** Every entry waits under its own id, ids are non-empty and distinct. *)
Definition entryOk (kv : string * QueueEntry) : Prop :=
  kv.1 = qe_id kv.2 /\ truthy kv.1 = true.

Definition queueKeys (queue : Queue) : Prop :=
  NoDup (map fst queue) /\ Forall entryOk queue.

Definition ended (game : Game) : Prop :=
  (over game = true <-> result game <> None).

(** A stored game: filed under its own id, in a position reached by legal
    play, with two different players, and with its [turn] and [over] fields
    in step with the engine and the result. *)
Definition gameOk (kv : string * Game) : Prop :=
  game_id kv.2 = kv.1
  /\ reachable (engine kv.2)
  /\ player_id (players_w kv.2) <> player_id (players_b kv.2)
  /\ game_turn kv.2 = turn (engine kv.2)
  /\ ended kv.2.

Definition serverOk (s : Server) : Prop :=
  queueKeys (sv_queue s) /\ (length (sv_queue s) <= 1)%nat
  /\ Forall gameOk (sv_games s).

(** The legal moves of the side to move, as [moves] computes them. *)
Definition legalNow (st : SimpleChess) : list Move :=
  List.filter (leavesKingSafe st) (sideMoves st).

(** ** The move handler with its engine calls resolved *)

(** The game is running and the time since its last move exceeds the limit. *)
Definition expired (now : Z) (game : Game) : bool :=
  negb (over game) && negb (lastMove game =? 0)
  && (MOVE_TIMEOUT_MS <? now - lastMove game).

(** The player who is not to move, and the player who is. *)
Definition winnerOf (game : Game) : string :=
  player_id (playerOf game (opposite (turn (engine game)))).

Definition loserOf (game : Game) : string :=
  player_id (playerOf game (turn (engine game))).

(** The game object after a move that led to the engine state [e1]. *)
Definition played (game : Game) (e1 : SimpleChess) (stamp : Z) : Game :=
  stampMove (setEngine game e1) stamp.

(** The end-of-game test after a move: checkmate is rated, stalemate is not. *)
Definition settle (game1 : Game) (scoreboard : gmap string Z)
    : Game * gmap string Z :=
  let e := engine game1 in
  if in_check e && (length (legalNow e) =? 0)%nat
  then (finished game1 (mkResult (Some (winnerOf game1)) (Some (loserOf game1))
                                 "checkmate"),
        updateRatings (winnerOf game1) (loserOf game1) scoreboard)
  else if (length (legalNow e) =? 0)%nat
  then (finished game1 (mkResult None None "stalemate"), scoreboard)
  else (game1, scoreboard).

Definition missingFields (body : MoveBody) : bool :=
  negb (truthy (mb_playerId body)) || negb (truthy (mb_from body))
  || negb (truthy (mb_to body)).

(** The move handler with every engine call replaced by what it computes in
    a position reached by legal play. *)
Definition postMoveResolved (now stamp : Z) (gameId : string) (body : MoveBody)
    (s : Server) : option (GameResponse * Server) :=
  match mapGet (sv_games s) gameId with
  | None => Some (GameError 404 "game not found", s)
  | Some game =>
      if expired now game
      then
        let scoreboard :=
          updateRatings (winnerOf game) (loserOf game) (sv_scoreboard s) in
        Some (GameState (viewOf scoreboard (forfeit game) None),
              putGame gameId (forfeit game) scoreboard s)
      else if missingFields body
      then Some (GameError 400 "playerId, from and to are required", s)
      else if over game then Some (GameError 400 "game already over", s)
      else
        match seatOf game (mb_playerId body) with
        | None => Some (GameError 403 "you are not a player in this game", s)
        | Some myColor =>
            if negb (Color_eqb myColor (turn (engine game)))
            then Some (GameError 400 "not your turn", s)
            else
              match List.find (matchesRequest (requestOfBody body))
                              (legalNow (engine game)) with
              | None => Some (GameError 400 "illegal move", s)
              | Some lm =>
                  match _makeMove lm (engine game) with
                  | None => None
                  | Some (_, e1) =>
                      let r := settle (played game e1 stamp) (sv_scoreboard s) in
                      Some (GameState (viewOf r.2 r.1 None),
                            putGame gameId r.1 r.2 s)
                  end
              end
        end
  end.

(** ** Joins *)

(** The entry a join request stores, and the queue right after storing it. *)
Definition entryOf (env : MatchEnv) (rq : MatchRequest) (s : Server)
    : QueueEntry :=
  mkQueueEntry (mr_id rq) (mr_name rq)
               (Some (parsedRatingOf (sv_scoreboard s) (mr_id rq) (mr_rating rq)))
               (me_now env).

Definition registered (rq : MatchRequest) (s : Server) : gmap string Z :=
  match sv_scoreboard s !! mr_id rq with
  | Some _ => sv_scoreboard s
  | None =>
      <[mr_id rq := parsedRatingOf (sv_scoreboard s) (mr_id rq) (mr_rating rq)]>
        (sv_scoreboard s)
  end.

Definition wellFormedJoin (rq : MatchRequest) : Prop :=
  truthy (mr_id rq) = true /\ truthy (mr_name rq) = true.

(** ** The requests of a sample session *)

Definition annJoins : Request :=
  PostMatch (mkMatchEnv 1000 true "g0" 1000) (mkMatchRequest "ann" "Ann" (Some 1500)).

Definition bobJoins : Request :=
  PostMatch (mkMatchEnv 2000 true "g1" 2001) (mkMatchRequest "bob" "Bob" None).

Definition moveOf (now : Z) (playerId from to : string) : Request :=
  PostMove now (now + 1) "g1" (mkMoveBody playerId from to None).

(** Ann waits alone. *)
Definition sampleLobby : Server :=
  default emptyServer (handleAll [annJoins] emptyServer).

(** Bob has joined and plays white against Ann. *)
Definition sampleTable : Server :=
  default emptyServer (handleAll [annJoins; bobJoins] emptyServer).

(** After 1. f3 e5 2. g4, with Ann (black) to move. *)
Definition sampleBeforeMate : Server :=
  default emptyServer
    (handleAll [annJoins; bobJoins; moveOf 3000 "bob" "f2" "f3";
                moveOf 4000 "ann" "E7" "E5"; moveOf 5000 "bob" "g2" "g4"]
               emptyServer).

Definition mateBody : MoveBody := mkMoveBody "ann" "d8" "h4" None.

(** After 2... Qh4 mate. *)
Definition sampleAfterMate : Server :=
  default emptyServer (handle (PostMove 6000 6001 "g1" mateBody) sampleBeforeMate).

(** The game of the sample session once it has ended. *)
Definition sampleMatedGame : Game :=
  default sampleGame (mapGet (sv_games sampleAfterMate) "g1").

(** ** Polls, ratings and positions *)

(** The test [GET /match/:id] applies to each stored game. *)
Definition activeFor (id : string) (kv : string * Game) : bool :=
  (String.eqb (player_id (players_w kv.2)) id
   || String.eqb (player_id (players_b kv.2)) id)
  && negb (over kv.2).

(** [a] and [b] hold the two seats of the game, in either order. *)
Definition seats (game : Game) (a b : string) : Prop :=
  (a = player_id (players_w game) /\ b = player_id (players_b game))
  \/ (a = player_id (players_b game) /\ b = player_id (players_w game)).

(** Between [s] and [s'] the game went from running to over with a winner
    and a loser, and the ratings were adjusted for exactly that result. *)
Definition ratedNow (s s' : Server) (gameId : string) : Prop :=
  exists game game' w l why,
    mapGet (sv_games s) gameId = Some game /\ over game = false
    /\ mapGet (sv_games s') gameId = Some game' /\ over game' = true
    /\ result game' = Some (mkResult (Some w) (Some l) why)
    /\ seats game w l
    /\ sv_scoreboard s' = updateRatings w l (sv_scoreboard s).

Definition addresses (rq : Request) (gameId : string) : Prop :=
  match rq with
  | GetGame _ g | PostMove _ _ g _ => g = gameId
  | _ => False
  end.

(** The game object is as it was, up to the end-of-game marking. *)
Definition untouched (game game' : Game) : Prop :=
  engine game' = engine game
  /\ players_w game' = players_w game /\ players_b game' = players_b game
  /\ lastMove game' = lastMove game.

Definition legacyLobby : Legacy.State :=
  (Legacy.postMatch 10 "ann" "Ann" (Some 1500) (Legacy.mkState [] [])).2.

(** ** Ratings the source computes exactly *)

(** An integer rating on which the double arithmetic of the source is exact:
    the difference of two such ratings, and a gain of 5 or a penalty of 4 on
    one of them, stay below 2^53 in magnitude.  Beyond that range the source
    rounds (a rating of 2^53 gains 4, and the difference of 2^1023 and
    -(2^1023) is [Infinity]); the integer arithmetic of [updateRatings] and
    [findBestOpponent] describes the source on such ratings only. *)
Definition plainRating (z : Z) : Prop := Z.abs z <= 2 ^ 52.

Definition plainQueue (queue : Queue) : Prop :=
  Forall (fun kv : string * QueueEntry =>
            plainRating (ratingOr1500 (qe_rating kv.2))) queue.

(** Every stored rating and every waiting rating is plain. *)
Definition plainServer (s : Server) : Prop :=
  map_Forall (fun (_ : string) r => plainRating r) (sv_scoreboard s)
  /\ plainQueue (sv_queue s).

(** The rating a join competes with is plain. *)
Definition plainRequest (rq : Request) (s : Server) : Prop :=
  match rq with
  | PostMatch env mr =>
      plainRating (parsedRatingOf (sv_scoreboard s) (mr_id mr) (mr_rating mr))
  | _ => True
  end.

(** The states reached by requests during which every rating involved
    stayed plain, so that the source computed what the model computes. *)
Inductive serverReachablePlain : Server -> Prop :=
| serverReachablePlain_start : serverReachablePlain emptyServer
| serverReachablePlain_step (s s' : Server) (rq : Request) :
    serverReachablePlain s -> plainRequest rq s ->
    handle rq s = Some s' -> plainServer s' ->
    serverReachablePlain s'.

(** * Properties *)

(** ** Squares and bounds *)

Lemma inBounds_iff (r c : Z) :
  _inBounds r c = true <-> (0 <= r < 8 /\ 0 <= c < 8).
Proof. unfold _inBounds. rewrite !andb_true_iff. lia. Qed.

Lemma inBounds_allSquares (r c : Z) :
  _inBounds r c = true -> In (r, c) allSquares.
Proof.
  intros H. apply inBounds_iff in H. destruct H as [Hr Hc].
  assert (Er : r = 0 \/ r = 1 \/ r = 2 \/ r = 3 \/ r = 4 \/ r = 5 \/ r = 6 \/ r = 7)
    by lia.
  assert (Ec : c = 0 \/ c = 1 \/ c = 2 \/ c = 3 \/ c = 4 \/ c = 5 \/ c = 6 \/ c = 7)
    by lia.
  destruct Er as [->|[->|[->|[->|[->|[->|[->| ->]]]]]]];
    destruct Ec as [->|[->|[->|[->|[->|[->|[->| ->]]]]]]];
    vm_compute; tauto.
Qed.

Lemma allSquares_inBounds (rc : Z * Z) :
  In rc allSquares -> _inBounds rc.1 rc.2 = true.
Proof.
  intros H.
  assert (F : forallb (fun rc : Z * Z => _inBounds rc.1 rc.2) allSquares = true)
    by reflexivity.
  rewrite forallb_forall in F. exact (F rc H).
Qed.

(** A property checked on the sixty-four squares holds inside the bounds. *)
Lemma on_all_squares (P : Z * Z -> bool) :
  forallb P allSquares = true ->
  forall r c, _inBounds r c = true -> P (r, c) = true.
Proof.
  intros F r c H. rewrite forallb_forall in F.
  apply F, inBounds_allSquares, H.
Qed.

Lemma squareToCoords_coordsToSquare (r c : Z) :
  _inBounds r c = true ->
  _squareToCoords (_coordsToSquare r c) = Some (Num r, c).
Proof.
  intros H.
  pose (P := fun rc : Z * Z =>
    match _squareToCoords (_coordsToSquare rc.1 rc.2) with
    | Some (Num r', c') => (r' =? rc.1) && (c' =? rc.2)
    | _ => false
    end).
  assert (HP : P (r, c) = true) by (apply on_all_squares; [reflexivity | exact H]).
  unfold P in HP; cbn [fst snd] in HP.
  destruct (_squareToCoords (_coordsToSquare r c)) as [[[r'|] c']|]; try discriminate.
  apply andb_true_iff in HP. destruct HP as [H1 H2].
  apply Z.eqb_eq in H1, H2. by subst.
Qed.

Lemma coordsToSquare_inj (r c r' c' : Z) :
  _inBounds r c = true -> _inBounds r' c' = true ->
  _coordsToSquare r c = _coordsToSquare r' c' -> r = r' /\ c = c'.
Proof.
  intros H H' E.
  pose proof (squareToCoords_coordsToSquare r c H) as E1.
  rewrite E, (squareToCoords_coordsToSquare r' c' H') in E1.
  by inversion E1.
Qed.

Lemma parseInt_Num (ch : ascii) (z : Z) :
  parseInt ch = Num z -> 0 <= z <= 9.
Proof.
  unfold parseInt.
  destruct ((48 <=? charCode ch) && (charCode ch <=? 57)) eqn:E; [|discriminate].
  intros [= <-]. apply andb_true_iff in E. lia.
Qed.

Lemma squareToCoords_inBounds (sq : string) (r c : Z) :
  _squareToCoords sq = Some (Num r, c) -> _inBounds r c = true.
Proof.
  unfold _squareToCoords.
  destruct sq as [|c0 [|c1 [|? ?]]]; try discriminate.
  destruct (parseInt c1) as [z|] eqn:Ep; simpl.
  - destruct ((charCode c0 - 97 <? 0) || (7 <? charCode c0 - 97)
              || (8 - z <? 0) || (7 <? 8 - z)) eqn:E; [discriminate|].
    intros [= <- <-]. apply inBounds_iff.
    rewrite !orb_false_iff in E. lia.
  - destruct ((charCode c0 - 97 <? 0) || (7 <? charCode c0 - 97) || false || false);
      discriminate.
Qed.

Lemma find_all_false {A : Type} (f : A -> bool) (l : list A) :
  (forall x, In x l -> f x = false) -> List.find f l = None.
Proof.
  induction l as [|x l IH]; intros H; simpl; [reflexivity|].
  rewrite (H x) by by left. apply IH. intros y Hy. apply H. by right.
Qed.

Lemma find_some_exists {A : Type} (f : A -> bool) (l : list A) (x : A) :
  In x l -> f x = true -> exists y, List.find f l = Some y.
Proof.
  intros Hin Hf. destruct (List.find f l) as [y|] eqn:E; [by exists y|].
  pose proof (List.find_none f l E x Hin). congruence.
Qed.

(** ** Boards of eight ranks and eight files *)

Lemma wfBoard_setCell (bd : Board) (r c : Z) (v : Cell) :
  wfBoard bd -> wfBoard (setCell bd r c v).
Proof.
  intros [Hl Hr]. split; unfold setCell.
  - by rewrite length_alter.
  - apply Forall_alter; [exact Hr|].
    intros row _ Hrow. by rewrite length_insert.
Qed.

Lemma wfBoard_row (bd : Board) (r : Z) :
  wfBoard bd -> 0 <= r < 8 ->
  exists row, bd !! Z.to_nat r = Some row /\ length row = 8%nat.
Proof.
  intros [Hl Hr] Hb.
  destruct (lookup_lt_is_Some_2 bd (Z.to_nat r)) as [row Hrow]; [lia|].
  exists row. split; [exact Hrow|].
  exact (Forall_lookup_1 (fun row => length row = 8%nat) bd _ _ Hr Hrow).
Qed.

Lemma cellAt_setCell (bd : Board) (r c : Z) (v : Cell) (r' c' : Z) :
  wfBoard bd -> _inBounds r c = true -> _inBounds r' c' = true ->
  cellAt (setCell bd r c v) r' c' =
  if decide (r = r' /\ c = c') then v else cellAt bd r' c'.
Proof.
  intros Hwf H H'. apply inBounds_iff in H, H'.
  destruct H as [Hr Hc], H' as [Hr' Hc'].
  unfold cellAt, setCell.
  destruct (decide (r = r')) as [<-|Hne].
  - rewrite list_lookup_alter_eq.
    destruct (wfBoard_row bd r Hwf Hr) as (row & -> & Hlen). simpl.
    destruct (decide (c = c')) as [<-|Hnc].
    + rewrite list_lookup_insert_eq by lia.
      by rewrite decide_True.
    + rewrite list_lookup_insert_ne by lia.
      by rewrite decide_False by tauto.
  - rewrite list_lookup_alter_ne by lia.
    by rewrite decide_False by tauto.
Qed.

(** Two well-formed boards with the same cells are the same board. *)
Lemma board_ext (bd bd' : Board) :
  wfBoard bd -> wfBoard bd' ->
  (forall r c, _inBounds r c = true -> cellAt bd r c = cellAt bd' r c) ->
  bd = bd'.
Proof.
  intros Hwf Hwf' Hcells.
  apply (list_eq_same_length _ _ 8%nat); [apply Hwf' | apply Hwf|].
  intros i row row' Hi Hrow Hrow'.
  assert (Hlen : length row = 8%nat)
    by exact (Forall_lookup_1 (fun row => length row = 8%nat) bd _ _
                (proj2 Hwf) Hrow).
  assert (Hlen' : length row' = 8%nat)
    by exact (Forall_lookup_1 (fun row => length row = 8%nat) bd' _ _
                (proj2 Hwf') Hrow').
  apply (list_eq_same_length _ _ 8%nat); [exact Hlen' | exact Hlen|].
  intros j x x' Hj Hx Hx'.
  specialize (Hcells (Z.of_nat i) (Z.of_nat j)).
  unfold cellAt in Hcells. rewrite !Nat2Z.id in Hcells.
  rewrite Hrow, Hrow', Hx, Hx' in Hcells.
  apply Hcells, inBounds_iff. lia.
Qed.

Lemma map_cellAt_row (bd : Board) (r : Z) (row : list Cell) :
  bd !! Z.to_nat r = Some row -> length row = 8%nat ->
  map (cellAt bd r) coords8 = row.
Proof.
  intros Hrow Hlen. unfold cellAt. rewrite Hrow.
  do 9 (destruct row as [|? row]; try discriminate).
  reflexivity.
Qed.

(** ** What the generator produces *)

Section GeneratorFacts.
Variable bd : Board.
Variable fromSquare : string.
Variable piece : ascii.

Lemma jumpMoves_plain (r c : Z) (d : Z * Z) (mv : Move) :
  In mv (jumpMoves bd fromSquare piece r c d) ->
  plainTo fromSquare piece mv (r + d.1) (c + d.2).
Proof.
  unfold jumpMoves.
  destruct (_inBounds (r + d.1) (c + d.2)) eqn:Hb; simpl; [|tauto].
  destruct (cellAt bd (r + d.1) (c + d.2)) as [target|].
  - destruct (negb _); simpl; [|tauto].
    intros [<-|[]]. by repeat split.
  - intros [<-|[]]. by repeat split.
Qed.

Lemma slideMoves_plain (fuel : nat) (rr cc dr dc : Z) (mv : Move) :
  In mv (slideMoves bd fromSquare piece fuel rr cc dr dc) ->
  exists k : Z,
    0 <= k /\ plainTo fromSquare piece mv (rr + k * dr) (cc + k * dc).
Proof.
  revert rr cc. induction fuel as [|fuel IH]; intros rr cc; simpl; [tauto|].
  destruct (_inBounds rr cc) eqn:Hb; [|simpl; tauto].
  assert (Here : forall m, m = quietMove fromSquare piece rr cc
                           \/ (exists t, m = captureMove fromSquare piece rr cc t) ->
                           plainTo fromSquare piece m (rr + 0 * dr) (cc + 0 * dc)).
  { intros m Hm. replace (rr + 0 * dr) with rr by lia.
    replace (cc + 0 * dc) with cc by lia.
    destruct Hm as [->|[t ->]]; by repeat split. }
  destruct (cellAt bd rr cc) as [target|].
  - destruct (negb _); simpl; [|tauto].
    intros [<-|[]]. exists 0. split; [lia|]. apply Here. right. by eexists.
  - intros [<-|Hin].
    + exists 0. split; [lia|]. apply Here. by left.
    + destruct (IH _ _ Hin) as (k & Hk & Hp).
      exists (k + 1). split; [lia|].
      replace (rr + (k + 1) * dr) with (rr + dr + k * dr) by lia.
      replace (cc + (k + 1) * dc) with (cc + dc + k * dc) by lia.
      exact Hp.
Qed.
End GeneratorFacts.

Lemma isPawn_lower (p : ascii) (x : ascii) :
  ascii_eqb (toLowerCase p) x = true -> x <> "p"%char -> isPawn p = false.
Proof.
  unfold isPawn, ascii_eqb. intros H Hx.
  apply Ascii.eqb_eq in H. rewrite H.
  by apply Ascii.eqb_neq.
Qed.

Lemma dirs_nonzero (dirs : list (Z * Z)) (d : Z * Z) :
  forallb (fun d : Z * Z => negb ((d.1 =? 0) && (d.2 =? 0))) dirs = true ->
  In d dirs -> d.1 <> 0 \/ d.2 <> 0.
Proof.
  intros F Hin. rewrite forallb_forall in F. specialize (F d Hin).
  apply negb_true_iff, andb_false_iff in F.
  destruct F as [F|F]; apply Z.eqb_neq in F; tauto.
Qed.

Lemma pawnMoves_shape (bd : Board) (fromSquare : string) (piece : ascii)
    (r c : Z) (mv : Move) :
  In mv (pawnMoves bd fromSquare piece r c) ->
  exists rr cc,
    _inBounds rr cc = true /\ rr <> r /\
    mv_from mv = fromSquare /\ mv_to mv = _coordsToSquare rr cc /\
    mv_piece mv = toLowerCase piece /\
    mv_promotion mv = if lastRank rr then Some "q"%char else None.
Proof.
  unfold pawnMoves. intros Hin. apply in_app_or in Hin.
  set (dir := if isWhitePiece piece then -1 else 1) in *.
  assert (Hdir : dir = -1 \/ dir = 1) by (unfold dir; destruct (isWhitePiece piece); lia).
  destruct Hin as [Hin|Hin].
  - destruct (_inBounds (r + dir) c && isEmpty (cellAt bd (r + dir) c)) eqn:E;
      [|destruct Hin].
    apply andb_true_iff in E. destruct E as [Hb _].
    destruct Hin as [<-|Hin].
    + exists (r + dir), c. split; [exact Hb|]. split; [lia|].
      unfold lastRank.
      destruct ((r + dir =? 0) || (r + dir =? 7)); simpl;
        destruct (isWhitePiece piece); by repeat split.
    + destruct ((r =? (if isWhitePiece piece then 6 else 1))
                && isEmpty (cellAt bd (r + 2 * dir) c)) eqn:E2; [|destruct Hin].
      destruct Hin as [<-|[]].
      apply andb_true_iff in E2. destruct E2 as [Hs _].
      apply Z.eqb_eq in Hs. apply inBounds_iff in Hb.
      exists (r + 2 * dir), c.
      assert (Hr2 : r + 2 * dir = 4 \/ r + 2 * dir = 3)
        by (unfold dir in *; destruct (isWhitePiece piece); lia).
      split; [apply inBounds_iff; lia|]. split; [lia|].
      unfold lastRank.
      replace ((r + 2 * dir =? 0) || (r + 2 * dir =? 7)) with false
        by (symmetry; apply orb_false_iff; lia).
      by repeat split.
  - apply in_flat_map in Hin. destruct Hin as (dc & _ & Hin).
    destruct (_inBounds (r + dir) (c + dc)) eqn:Hb; [|destruct Hin].
    destruct (cellAt bd (r + dir) (c + dc)) as [target|]; [|destruct Hin].
    destruct (negb _); [|destruct Hin].
    exists (r + dir), (c + dc). split; [exact Hb|]. split; [lia|].
    unfold lastRank.
    destruct ((r + dir =? 0) || (r + dir =? 7)); simpl in Hin;
      destruct Hin as [<-|[]]; by repeat split.
Qed.

Lemma generatePieceMoves_good (st : SimpleChess) (r c : Z) (mv : Move) :
  _inBounds r c = true ->
  In mv (_generatePieceMoves st r c) ->
  goodMove st r c mv.
Proof.
  intros Hb. unfold _generatePieceMoves.
  destruct (cellAt (board st) r c) as [p|] eqn:Hcell; [|intros []].
  destruct (Color_eqb (colorOfPiece p) (turnColor st)) eqn:Hcol; simpl; [|intros []].
  assert (Hturn : colorOfPiece p = turnColor st)
    by (destruct (colorOfPiece p), (turnColor st); done).
  assert (Plain : forall rr cc, plainTo (_coordsToSquare r c) p mv rr cc ->
            (rr <> r \/ cc <> c) -> isPawn p = false -> goodMove st r c mv).
  { intros rr cc (Hbb & Hf & Ht & Hp & Hpr) Hne Hnp.
    exists p, rr, cc. rewrite Hnp. simpl. by repeat split. }
  assert (Jump : forall dirs x,
            forallb (fun d : Z * Z => negb ((d.1 =? 0) && (d.2 =? 0))) dirs = true ->
            ascii_eqb (toLowerCase p) x = true -> x <> "p"%char ->
            In mv (flat_map (jumpMoves (board st) (_coordsToSquare r c) p r c) dirs) ->
            goodMove st r c mv).
  { intros dirs x Hd Hx Hxp Hin.
    apply in_flat_map in Hin. destruct Hin as (d & Hdin & Hin).
    apply jumpMoves_plain in Hin.
    pose proof (dirs_nonzero dirs d Hd Hdin).
    apply (Plain _ _ Hin); [lia|]. by apply (isPawn_lower p x). }
  assert (Slide : forall dirs x,
            forallb (fun d : Z * Z => negb ((d.1 =? 0) && (d.2 =? 0))) dirs = true ->
            ascii_eqb (toLowerCase p) x = true -> x <> "p"%char ->
            In mv (flat_map (fun d : Z * Z =>
                     slideMoves (board st) (_coordsToSquare r c) p slideFuel
                                (r + d.1) (c + d.2) d.1 d.2) dirs) ->
            goodMove st r c mv).
  { intros dirs x Hd Hx Hxp Hin.
    apply in_flat_map in Hin. destruct Hin as (d & Hdin & Hin).
    apply slideMoves_plain in Hin. destruct Hin as (k & Hk & Hin).
    pose proof (dirs_nonzero dirs d Hd Hdin).
    apply (Plain _ _ Hin); [nia|]. by apply (isPawn_lower p x). }
  destruct (ascii_eqb (toLowerCase p) "p") eqn:Ep.
  { intros Hin. apply pawnMoves_shape in Hin.
    destruct Hin as (rr & cc & Hbb & Hne & Hf & Ht & Hp & Hpr).
    exists p, rr, cc. unfold isPawn. rewrite Ep. simpl.
    repeat split; try done. by left. }
  destruct (ascii_eqb (toLowerCase p) "n") eqn:En.
  { by apply (Jump knightDirs "n"%char). }
  destruct (ascii_eqb (toLowerCase p) "b") eqn:Eb.
  { by apply (Slide bishopDirs "b"%char). }
  destruct (ascii_eqb (toLowerCase p) "r") eqn:Er.
  { by apply (Slide rookDirs "r"%char). }
  destruct (ascii_eqb (toLowerCase p) "q") eqn:Eq.
  { by apply (Slide queenDirs "q"%char). }
  destruct (ascii_eqb (toLowerCase p) "k") eqn:Ek.
  { by apply (Jump kingDirs "k"%char). }
  intros [].
Qed.

(** Eight iterations are as good as any larger number: the loop of
    [slideMoves] has left the board by then. *)
Lemma slideMoves_fuel (bd : Board) (fromSquare : string) (piece : ascii)
    (dr dc : Z) (n n' : nat) (rr cc : Z) :
  (dr = -1 \/ dr = 0 \/ dr = 1) -> (dc = -1 \/ dc = 0 \/ dc = 1) ->
  (dr <> 0 \/ dc <> 0) ->
  let left :=
    if dr =? 1 then 8 - rr else if dr =? -1 then rr + 1
    else if dc =? 1 then 8 - cc else cc + 1 in
  left <= Z.of_nat n -> left <= Z.of_nat n' ->
  slideMoves bd fromSquare piece n rr cc dr dc =
  slideMoves bd fromSquare piece n' rr cc dr dc.
Proof.
  intros Hdr Hdc Hnz. revert n' rr cc.
  assert (Out : forall rr cc m,
    (if dr =? 1 then 8 - rr else if dr =? -1 then rr + 1
     else if dc =? 1 then 8 - cc else cc + 1) <= 0 ->
    slideMoves bd fromSquare piece m rr cc dr dc = []).
  { intros rr cc m Hle. destruct m as [|m]; [reflexivity|]. simpl.
    replace (_inBounds rr cc) with false; [reflexivity|].
    symmetry. apply not_true_iff_false. rewrite inBounds_iff.
    destruct (dr =? 1) eqn:E1; [lia|].
    destruct (dr =? -1) eqn:E2; [lia|].
    destruct (dc =? 1) eqn:E3; lia. }
  induction n as [|n IH]; intros n' rr cc left Hn Hn'.
  - rewrite (Out rr cc n') by (subst left; lia). reflexivity.
  - destruct n' as [|n'].
    + rewrite (Out rr cc (S n)) by (subst left; lia). reflexivity.
    + simpl. destruct (_inBounds rr cc); [|reflexivity].
      destruct (cellAt bd rr cc); [reflexivity|].
      f_equal. apply IH; subst left;
        destruct (dr =? 1) eqn:E1; try lia;
        destruct (dr =? -1) eqn:E2; try lia;
        destruct (dc =? 1) eqn:E3; lia.
Qed.

(** ** Applying a candidate and taking it back *)

Lemma popLast_snoc {A : Type} (l : list A) (x : A) :
  popLast (l ++ [x]) = Some (x, l).
Proof. unfold popLast. rewrite rev_app_distr. simpl. by rewrite rev_involutive. Qed.

Lemma makeMove_good (st : SimpleChess) (r c : Z) (mv : Move) :
  _inBounds r c = true -> goodMove st r c mv ->
  exists p rr cc,
    cellAt (board st) r c = Some p /\
    colorOfPiece p = turnColor st /\
    _inBounds rr cc = true /\ (rr <> r \/ cc <> c) /\
    mv_to mv = _coordsToSquare rr cc /\
    mv_promotion mv = (if promotes p rr then Some "q"%char else None) /\
    _makeMove mv st =
      Some (tt, mkChess (movedBoard (board st) r c rr cc p)
                        (opposite (turnColor st))
                        (_history st
                         ++ [mkEntry mv (cellAt (board st) rr cc) (turnColor st)])).
Proof.
  intros Hb (p & rr & cc & Hcell & Hcol & Hbb & Hne & Hf & Ht & Hp & Hpr).
  exists p, rr, cc. repeat (split; [done|]).
  unfold _makeMove, bind, getState, movedBoard.
  rewrite Hf, Ht, !squareToCoords_coordsToSquare by done.
  rewrite Hcell, Hpr. unfold promotes.
  destruct (isPawn p && lastRank rr); unfold putState;
    destruct (turnColor st); try reflexivity;
    destruct (isWhitePiece p); reflexivity.
Qed.

Lemma isPawn_white (p : ascii) :
  isPawn p = true -> p = (if isWhitePiece p then "P" else "p")%char.
Proof.
  unfold isPawn, isWhitePiece, ascii_eqb.
  destruct p as [[] [] [] [] [] [] [] []]; vm_compute; congruence.
Qed.

Lemma undo_movedBoard (st : SimpleChess) (r c : Z) (mv : Move)
    (p : ascii) (rr cc : Z) :
  wfBoard (board st) ->
  _inBounds r c = true -> _inBounds rr cc = true -> (rr <> r \/ cc <> c) ->
  cellAt (board st) r c = Some p ->
  mv_from mv = _coordsToSquare r c ->
  mv_to mv = _coordsToSquare rr cc ->
  mv_promotion mv = (if promotes p rr then Some "q"%char else None) ->
  undo (mkChess (movedBoard (board st) r c rr cc p)
                (opposite (turnColor st))
                (_history st
                 ++ [mkEntry mv (cellAt (board st) rr cc) (turnColor st)]))
  = Some (Some mv, st).
Proof.
  intros Hwf Hb Hbb Hne Hcell Hf Ht Hpr.
  unfold undo, bind, getState. cbn [_history board].
  rewrite popLast_snoc. cbn [he_mv he_captured he_turn].
  rewrite Hf, Ht, !squareToCoords_coordsToSquare by done.
  rewrite Hpr.
  set (b2 := setCell (setCell (board st) rr cc (Some p)) r c None).
  assert (Hwf2 : wfBoard b2) by (unfold b2; by repeat apply wfBoard_setCell).
  assert (Restore : forall placed restorePiece,
    restorePiece = Some p ->
    cellAt (movedBoard (board st) r c rr cc p) rr cc = Some placed ->
    setCell (setCell (movedBoard (board st) r c rr cc p) r c restorePiece)
            rr cc (cellAt (board st) rr cc) = board st).
  { intros placed restorePiece -> _.
    assert (Hwfm : wfBoard (movedBoard (board st) r c rr cc p)).
    { unfold movedBoard. fold b2. destruct (promotes p rr);
        [by apply wfBoard_setCell | done]. }
    apply board_ext; [by repeat apply wfBoard_setCell | done |].
    intros r' c' Hb'.
    rewrite cellAt_setCell by (try apply wfBoard_setCell; done).
    destruct (decide (rr = r' /\ cc = c')) as [[<- <-]|Hn1]; [done|].
    rewrite cellAt_setCell by done.
    destruct (decide (r = r' /\ c = c')) as [[<- <-]|Hn2]; [done|].
    unfold movedBoard. fold b2.
    assert (Hb2 : cellAt b2 r' c' = cellAt (board st) r' c').
    { unfold b2. rewrite cellAt_setCell by (try apply wfBoard_setCell; done).
      rewrite decide_False by done.
      rewrite cellAt_setCell by done. by rewrite decide_False. }
    destruct (promotes p rr); [|done].
    rewrite cellAt_setCell by done. by rewrite decide_False. }
  assert (Hat : cellAt (movedBoard (board st) r c rr cc p) rr cc =
                Some (if promotes p rr
                      then (if isWhitePiece p then "Q" else "q")%char else p)).
  { unfold movedBoard. fold b2. destruct (promotes p rr).
    - rewrite cellAt_setCell by done. by rewrite decide_True.
    - unfold b2. rewrite cellAt_setCell by (try apply wfBoard_setCell; done).
      rewrite decide_False by (intros [-> ->]; tauto).
      rewrite cellAt_setCell by done. by rewrite decide_True. }
  rewrite Hat.
  destruct (promotes p rr) eqn:Hprom.
  - unfold putState. cbn [board].
    erewrite Restore; [destruct st; reflexivity | | exact Hat].
    unfold promotes in Hprom. apply andb_true_iff in Hprom.
    destruct Hprom as [Hpawn _]. rewrite (isPawn_white p Hpawn) at 2.
    destruct (isWhitePiece p); reflexivity.
  - unfold putState. cbn [board].
    erewrite Restore; [destruct st; reflexivity | reflexivity | exact Hat].
Qed.

(** ** The filtering loop *)

Lemma makeMove_undo (st : SimpleChess) (r c : Z) (mv : Move) :
  wfBoard (board st) -> _inBounds r c = true -> goodMove st r c mv ->
  exists st1,
    _makeMove mv st = Some (tt, st1) /\
    turnColor st1 = opposite (turnColor st) /\
    undo st1 = Some (Some mv, st).
Proof.
  intros Hwf Hb Hgood.
  pose proof Hgood as (p' & rr' & cc' & _ & _ & _ & _ & Hf & _).
  destruct (makeMove_good st r c mv Hb Hgood)
    as (p & rr & cc & Hcell & Hcol & Hbb & Hne & Ht & Hpr & Hmk).
  eexists. split; [exact Hmk|]. split; [reflexivity|].
  by apply undo_movedBoard.
Qed.

Lemma filterLegal_spec (st : SimpleChess) (cands acc : list Move) :
  wfBoard (board st) -> candidatesOf st cands ->
  filterLegal cands acc st =
  Some (acc ++ List.filter (leavesKingSafe st) cands, st).
Proof.
  intros Hwf. revert acc. induction cands as [|mv rest IH]; intros acc Hc.
  - simpl. unfold ret. by rewrite app_nil_r.
  - destruct (Hc mv (or_introl eq_refl)) as (r & c & Hb & Hgood).
    destruct (makeMove_undo st r c mv Hwf Hb Hgood) as (st1 & Hmk & Hturn & Hun).
    cbn [filterLegal]. unfold bind at 1. rewrite Hmk.
    unfold bind at 1, getState. unfold bind at 1. rewrite Hun.
    rewrite IH by (intros m Hm; apply Hc; by right).
    cbn [List.filter]. unfold leavesKingSafe at 2. rewrite Hmk.
    replace (match turnColor st1 with W => B | B => W end) with (turnColor st)
      by (rewrite Hturn; by destruct (turnColor st)).
    destruct (_isInCheck st1 (turnColor st)); simpl; [done|].
    by rewrite <- app_assoc.
Qed.

Lemma sideMoves_candidates (st : SimpleChess) : candidatesOf st (sideMoves st).
Proof.
  intros mv Hin. unfold sideMoves in Hin.
  apply in_flat_map in Hin. destruct Hin as ([r c] & Hsq & Hin).
  apply allSquares_inBounds in Hsq. cbn [fst snd] in *.
  exists r, c. split; [exact Hsq|].
  destruct (cellAt (board st) r c); [|destruct Hin].
  destruct (negb _); [destruct Hin|].
  by apply generatePieceMoves_good.
Qed.

Lemma pieceMoves_candidates (st : SimpleChess) (r c : Z) :
  _inBounds r c = true -> candidatesOf st (_generatePieceMoves st r c).
Proof.
  intros Hb mv Hin. exists r, c. split; [exact Hb|].
  by apply generatePieceMoves_good.
Qed.

Lemma legalMovesOf_side (st : SimpleChess) :
  wfBoard (board st) ->
  legalMovesOf None st =
  Some (List.filter (leavesKingSafe st) (sideMoves st), st).
Proof.
  intros Hwf. unfold legalMovesOf, bind, getState.
  rewrite filterLegal_spec; [reflexivity | exact Hwf | apply sideMoves_candidates].
Qed.

Lemma legalMovesOf_square (st : SimpleChess) (sq : string) (r c : Z) :
  wfBoard (board st) ->
  _squareToCoords sq = Some (Num r, c) ->
  legalMovesOf (Some sq) st =
  Some (List.filter (leavesKingSafe st) (_generatePieceMoves st r c), st).
Proof.
  intros Hwf Hsq. unfold legalMovesOf, bind, getState.
  assert (Ht : truthy sq = true) by (destruct sq; [discriminate|reflexivity]).
  rewrite Ht, Hsq.
  rewrite filterLegal_spec; [reflexivity | exact Hwf |].
  apply pieceMoves_candidates. by eapply squareToCoords_inBounds.
Qed.

(** ** Positions reachable by play *)

Lemma piecesOnly_setCell (bd : Board) (r c : Z) (v : Cell) :
  piecesOnly bd -> cellOk v -> piecesOnly (setCell bd r c v).
Proof.
  intros Hp Hv. unfold piecesOnly, setCell.
  apply Forall_alter; [exact Hp|].
  intros row _ Hrow. by apply Forall_insert.
Qed.

Lemma piecesOnly_cellAt (bd : Board) (r c : Z) :
  piecesOnly bd -> cellOk (cellAt bd r c).
Proof.
  intros Hp. unfold cellAt.
  destruct (bd !! Z.to_nat r) as [row|] eqn:Hrow; [|exact I].
  destruct (row !! Z.to_nat c) as [x|] eqn:Hx; [|exact I].
  pose proof (Forall_lookup_1 _ _ _ _ Hp Hrow) as Hr.
  exact (Forall_lookup_1 _ _ _ _ Hr Hx).
Qed.

Lemma validState_reset : validState reset.
Proof.
  split; [split; [reflexivity|]|]; simpl; repeat constructor.
Qed.

Lemma move_inversion (st st' : SimpleChess) (a : MoveArg) (lm : Move) :
  wfBoard (board st) ->
  move a st = Some (Some lm, st') ->
  In lm (sideMoves st) /\ leavesKingSafe st lm = true /\
  matchesRequest (requestOfArg a) lm = true /\
  _makeMove lm st = Some (tt, st').
Proof.
  intros Hwf. unfold move, bind at 1. rewrite (legalMovesOf_side st Hwf).
  destruct (List.find _ _) as [lm'|] eqn:Hfind; [|discriminate].
  apply List.find_some in Hfind. destruct Hfind as [Hin Hmatch].
  apply filter_In in Hin. destruct Hin as [Hside Hsafe].
  unfold bind, ret. destruct (_makeMove lm' st) as [[[] st1]|] eqn:Hmk; [|discriminate].
  intros [= <- <-]. done.
Qed.

Lemma makeMove_valid (st st1 : SimpleChess) (r c : Z) (mv : Move) :
  validState st -> _inBounds r c = true -> goodMove st r c mv ->
  _makeMove mv st = Some (tt, st1) -> validState st1.
Proof.
  intros [Hwf Hp] Hb Hgood Hmk.
  destruct (makeMove_good st r c mv Hb Hgood)
    as (p & rr & cc & Hcell & _ & _ & _ & _ & _ & Hmk').
  rewrite Hmk' in Hmk. injection Hmk as <-. cbn [board].
  assert (Hpok : cellOk (Some p)) by (rewrite <- Hcell; by apply piecesOnly_cellAt).
  unfold validState, movedBoard.
  destruct (promotes p rr); split;
    repeat apply wfBoard_setCell; repeat apply piecesOnly_setCell; try done.
  destruct (isWhitePiece p); reflexivity.
Qed.

Lemma reachable_valid (st : SimpleChess) : reachable st -> validState st.
Proof.
  induction 1 as [|st st' a lm Hreach IH Hmove]; [apply validState_reset|].
  destruct (move_inversion st st' a lm (proj1 IH) Hmove) as (Hin & _ & _ & Hmk).
  destruct (sideMoves_candidates st lm Hin) as (r & c & Hb & Hgood).
  by eapply makeMove_valid.
Qed.

(** ** Legal moves keep the mover's king out of check *)

Lemma leavesKingSafe_sound (st : SimpleChess) (mv : Move) :
  leavesKingSafe st mv = true -> kingSafeAfter st mv.
Proof.
  unfold leavesKingSafe, kingSafeAfter.
  destruct (_makeMove mv st) as [[[] st1]|]; [|discriminate].
  intros H. exists st1. split; [reflexivity|]. by apply negb_true_iff.
Qed.

(** Whatever [moves] answers is the filtered list of some candidates of the
    position, and the engine is left as it was. *)
Lemma moves_inversion (st st' : SimpleChess) (opts : MovesOpts)
    (out : list MoveOut) :
  wfBoard (board st) ->
  moves opts st = Some (out, st') ->
  st' = st /\
  exists cands,
    candidatesOf st cands /\
    out = map (renderMove (verbose opts))
              (List.filter (leavesKingSafe st) cands).
Proof.
  intros Hwf. unfold moves, bind at 1.
  assert (Side : legalMovesOf None st =
                 Some (List.filter (leavesKingSafe st) (sideMoves st), st))
    by by apply legalMovesOf_side.
  assert (Done : forall cands,
    candidatesOf st cands ->
    legalMovesOf (square opts) st =
      Some (List.filter (leavesKingSafe st) cands, st) ->
    match legalMovesOf (square opts) st with
    | Some (a, st0) => ret (map (renderMove (verbose opts)) a) st0
    | None => None
    end = Some (out, st') ->
    st' = st /\
    exists cands0, candidatesOf st cands0 /\
      out = map (renderMove (verbose opts))
                (List.filter (leavesKingSafe st) cands0)).
  { intros cands Hc -> [= <- <-]. split; [done|]. by exists cands. }
  destruct (square opts) as [sq|] eqn:Hsq.
  - destruct (truthy sq) eqn:Ht.
    + destruct (_squareToCoords sq) as [[[r|] c]|] eqn:Hco.
      * apply (Done (_generatePieceMoves st r c)).
        -- apply pieceMoves_candidates. by eapply squareToCoords_inBounds.
        -- by apply legalMovesOf_square.
      * unfold legalMovesOf, bind, getState. rewrite Ht, Hco. discriminate.
      * apply (Done []); [intros ? []|].
        unfold legalMovesOf, bind, getState. by rewrite Ht, Hco.
    + apply (Done (sideMoves st)); [apply sideMoves_candidates|].
      rewrite <- Side. unfold legalMovesOf, bind, getState. by rewrite Ht.
  - apply (Done (sideMoves st)); [apply sideMoves_candidates | exact Side].
Qed.

Lemma in_rendered (v : bool) (mv : Move) (legal : list Move) :
  In (Verbose mv) (map (renderMove v) legal) -> In mv legal.
Proof.
  intros Hin. apply in_map_iff in Hin. destruct Hin as (m & Hm & Hin).
  unfold renderMove in Hm. destruct v; [|discriminate].
  by injection Hm as ->.
Qed.

Lemma coordsToSquare_two (r c : Z) :
  _inBounds r c = true ->
  exists a b, _coordsToSquare r c = String a (String b EmptyString).
Proof.
  intros Hb.
  pose (P := fun rc : Z * Z =>
    match _coordsToSquare rc.1 rc.2 with
    | String _ (String _ EmptyString) => true
    | _ => false
    end).
  assert (HP : P (r, c) = true) by (apply on_all_squares; [reflexivity | exact Hb]).
  unfold P in HP. cbn [fst snd] in HP.
  destruct (_coordsToSquare r c) as [|a [|b [|? ?]]]; try discriminate.
  by exists a, b.
Qed.

Lemma requestOfArg_moveText (st : SimpleChess) (r c : Z) (mv : Move) :
  _inBounds r c = true -> goodMove st r c mv ->
  requestOfArg (ArgText (moveText mv)) = requestOfMove mv.
Proof.
  intros Hb (p & rr & cc & _ & _ & Hbb & _ & Hf & Ht & _ & Hpr).
  destruct (coordsToSquare_two r c Hb) as (a & b & Ea).
  destruct (coordsToSquare_two rr cc Hbb) as (a' & b' & Eb).
  unfold requestOfMove, moveText, promotionText.
  rewrite Hf, Ht, Ea, Eb, Hpr.
  by destruct (isPawn p && lastRank rr).
Qed.

Lemma matchesRequest_self (mv : Move) :
  matchesRequest (requestOfMove mv) mv = true.
Proof.
  unfold matchesRequest, requestOfMove, promotionMismatch.
  cbn [rq_from rq_to rq_promotion]. rewrite !String.eqb_refl.
  destruct (mv_promotion mv) as [q|]; [|reflexivity].
  cbn [option_map]. by rewrite String.eqb_refl.
Qed.

Lemma pieceMoves_in_sideMoves (st : SimpleChess) (r c : Z) (mv : Move) :
  _inBounds r c = true ->
  In mv (_generatePieceMoves st r c) -> In mv (sideMoves st).
Proof.
  intros Hb Hin. unfold sideMoves. apply in_flat_map.
  exists (r, c). split; [by apply inBounds_allSquares|]. cbn [fst snd].
  unfold _generatePieceMoves in Hin |- *.
  destruct (cellAt (board st) r c) as [p|]; [|destruct Hin].
  destruct (negb (Color_eqb (colorOfPiece p) (turnColor st)));
    [destruct Hin | exact Hin].
Qed.

Lemma listed_applies_safely (st : SimpleChess) (mv : Move) :
  wfBoard (board st) ->
  In mv (List.filter (leavesKingSafe st) (sideMoves st)) ->
  appliesSafely st mv.
Proof.
  intros Hwf Hin. split.
  { apply filter_In in Hin. apply leavesKingSafe_sound, Hin. }
  assert (Hside : In mv (sideMoves st)) by (by apply filter_In in Hin as [? _]).
  destruct (sideMoves_candidates st mv Hside) as (r & c & Hb & Hgood).
  intros a Ha.
  assert (Hrq : requestOfArg a = requestOfMove mv).
  { destruct Ha as [-> | ->]; [by eapply requestOfArg_moveText | reflexivity]. }
  unfold move, bind at 1. rewrite (legalMovesOf_side st Hwf), Hrq.
  destruct (find_some_exists (matchesRequest (requestOfMove mv)) _ mv Hin
              (matchesRequest_self mv)) as [lm Hfind].
  rewrite Hfind. apply List.find_some in Hfind. destruct Hfind as [Hlm _].
  apply filter_In in Hlm. destruct Hlm as [_ Hsafe].
  unfold leavesKingSafe in Hsafe. unfold bind, ret.
  destruct (_makeMove lm st) as [[[] st1]|]; [|discriminate].
  exists lm, st1. split; [reflexivity|]. by apply negb_true_iff.
Qed.

(** C1. In every position reached from the initial one by successful calls of
    [move], each move that [moves] returns, for the whole side or for one
    square, as objects or as text, leaves the mover's own king not attacked
    once applied.  [moves] answers for the whole side and for every
    well-formed square with the engine unchanged; whatever options it is
    called with, every answer it gives is the rendering of moves that apply
    safely: after [_makeMove], and after [move] called with the move as text
    or as an object, [_isInCheck] of the mover's colour is false; and so it
    is after every successful [move]. *)
Theorem moves_never_leave_own_king_in_check (st : SimpleChess) :
  reachable st ->
  (exists legal,
      (forall v, moves (mkOpts v None) st = Some (map (renderMove v) legal, st))
      /\ forall mv, In mv legal -> appliesSafely st mv)
  /\ (forall sq r c,
        _squareToCoords sq = Some (Num r, c) ->
        exists legal,
          (forall v, moves (mkOpts v (Some sq)) st
                     = Some (map (renderMove v) legal, st))
          /\ forall mv, In mv legal -> appliesSafely st mv)
  /\ (forall opts out st',
        moves opts st = Some (out, st') ->
        st' = st /\
        exists legal,
          out = map (renderMove (verbose opts)) legal
          /\ forall mv, In mv legal -> appliesSafely st mv)
  /\ (forall a lm st',
        move a st = Some (Some lm, st') ->
        _makeMove lm st = Some (tt, st')
        /\ _isInCheck st' (turnColor st) = false).
Proof.
  intros Hreach. destruct (reachable_valid st Hreach) as [Hwf _].
  assert (Side : forall mv,
            In mv (List.filter (leavesKingSafe st) (sideMoves st)) ->
            appliesSafely st mv)
    by (intros mv; by apply listed_applies_safely).
  assert (Square : forall r c mv,
            _inBounds r c = true ->
            In mv (List.filter (leavesKingSafe st) (_generatePieceMoves st r c)) ->
            appliesSafely st mv).
  { intros r c mv Hb Hin. apply Side. apply filter_In in Hin.
    apply filter_In. split; [|apply Hin].
    apply (pieceMoves_in_sideMoves st r c); [exact Hb | apply Hin]. }
  split; [|split; [|split]].
  - exists (List.filter (leavesKingSafe st) (sideMoves st)). split; [|exact Side].
    intros v. unfold moves, bind. cbn [square verbose].
    by rewrite legalMovesOf_side.
  - intros sq r c Hsq.
    exists (List.filter (leavesKingSafe st) (_generatePieceMoves st r c)).
    split.
    + intros v. unfold moves, bind. cbn [square verbose].
      by rewrite (legalMovesOf_square st sq r c).
    + intros mv. apply Square. by eapply squareToCoords_inBounds.
  - intros opts out st' Hmoves.
    split; [by destruct (moves_inversion st st' opts out Hwf Hmoves)|].
    revert Hmoves. unfold moves, bind at 1.
    destruct (legalMovesOf (square opts) st) as [[legal st1]|] eqn:Hlegal;
      [|discriminate].
    unfold ret. intros [= <- <-]. exists legal. split; [reflexivity|].
    revert Hlegal. unfold legalMovesOf, bind, getState.
    destruct (match square opts with
              | Some s => if truthy s then Some s else None
              | None => None
              end) as [sq|].
    + destruct (_squareToCoords sq) as [[[r|] c]|] eqn:Hsq.
      * rewrite filterLegal_spec;
          [|exact Hwf
           |apply pieceMoves_candidates; by eapply squareToCoords_inBounds].
        intros [= <- _] mv. apply Square. by eapply squareToCoords_inBounds.
      * discriminate.
      * unfold ret. intros [= <- _] mv [].
    + rewrite filterLegal_spec; [|exact Hwf | apply sideMoves_candidates].
      intros [= <- _]. exact Side.
  - intros a lm st' Hmove.
    destruct (move_inversion st st' a lm Hwf Hmove) as (_ & Hsafe & _ & Hmk).
    split; [exact Hmk|].
    unfold leavesKingSafe in Hsafe. rewrite Hmk in Hsafe.
    by apply negb_true_iff.
Qed.

Lemma moves_never_leave_own_king_in_check_witness :
  reachable reset
  /\ forall a lm st',
       move a reset = Some (Some lm, st') -> _isInCheck st' W = false.
Proof.
  split; [apply reachable_reset|].
  intros a lm st' Hmove.
  exact (proj2 (proj2 (proj2 (proj2
           (moves_never_leave_own_king_in_check reset reachable_reset)))
           a lm st' Hmove)).
Defined.

(** ** Undo restores the position *)

(** C4. In every reachable position, applying with [_makeMove] any move
    that [moves] lists, captures and promotions included, and then calling
    [undo] gives back the move and exactly the prior engine state: the same
    board, the same side to move (and the same history), hence the same
    [fen] text. *)
Theorem makeMove_then_undo_restores (st : SimpleChess) (opts : MovesOpts)
    (out : list MoveOut) (st' : SimpleChess) (mv : Move) :
  reachable st ->
  moves opts st = Some (out, st') ->
  In (Verbose mv) out ->
  exists st1 st2,
    _makeMove mv st = Some (tt, st1)
    /\ undo st1 = Some (Some mv, st2)
    /\ board st2 = board st
    /\ turnColor st2 = turnColor st
    /\ st2 = st
    /\ fen st2 = fen st.
Proof.
  intros Hreach Hmoves Hin.
  destruct (reachable_valid st Hreach) as [Hwf _].
  destruct (moves_inversion st st' opts out Hwf Hmoves) as (_ & cands & Hc & ->).
  apply in_rendered, filter_In in Hin. destruct Hin as [Hin _].
  destruct (Hc mv Hin) as (r & c & Hb & Hgood).
  destruct (makeMove_undo st r c mv Hwf Hb Hgood) as (st1 & Hmk & _ & Hun).
  exists st1, st. by repeat split.
Qed.

(** ** Playing a line of moves given as text *)

Lemma playText_reachable (line : list string) (st st' : SimpleChess) :
  reachable st -> playText line st = Some st' -> reachable st'.
Proof.
  revert st. induction line as [|m rest IH]; intros st Hreach; simpl.
  - by intros [= <-].
  - destruct (move (ArgText m) st) as [[[lm|] st1]|] eqn:Hmove; try discriminate.
    apply IH. by eapply reachable_move.
Qed.

Lemma promotionPosition_reachable : reachable promotionPosition.
Proof.
  apply (playText_reachable promotionLine reset); [apply reachable_reset|].
  vm_compute. reflexivity.
Qed.

Example promotionPosition_fen :
  fen promotionPosition
  = "rnbqkbnr/1ppppp1P/8/p7/8/8/PPPPPPP1/RNBQKBNR w - - 0 1".
Proof. vm_compute. reflexivity. Qed.

Lemma makeMove_then_undo_restores_witness :
  exists st1,
    _makeMove h7g8 promotionPosition = Some (tt, st1)
    /\ undo st1 = Some (Some h7g8, promotionPosition).
Proof.
  pose (out := match moves (mkOpts true None) promotionPosition with
               | Some (o, _) => o
               | None => []
               end).
  assert (Hmoves : moves (mkOpts true None) promotionPosition
                   = Some (out, promotionPosition))
    by (vm_compute; reflexivity).
  assert (Hin : In (Verbose h7g8) out)
    by (vm_compute; repeat (first [left; reflexivity | right])).
  destruct (makeMove_then_undo_restores promotionPosition (mkOpts true None) out
              promotionPosition h7g8 promotionPosition_reachable Hmoves Hin)
    as (st1 & st2 & Hmk & Hun & _ & _ & Heq & _).
  exists st1. split; [exact Hmk|]. rewrite Hun. by rewrite Heq.
Defined.

(** ** Promotion *)

Lemma cellAt_movedBoard_dest (bd : Board) (r c rr cc : Z) (p : ascii) :
  wfBoard bd ->
  _inBounds r c = true -> _inBounds rr cc = true -> (rr <> r \/ cc <> c) ->
  cellAt (movedBoard bd r c rr cc p) rr cc =
  Some (if promotes p rr then (if isWhitePiece p then "Q" else "q")%char else p).
Proof.
  intros Hwf Hb Hbb Hne. unfold movedBoard. destruct (promotes p rr).
  - rewrite cellAt_setCell by (repeat apply wfBoard_setCell; done).
    by rewrite decide_True.
  - rewrite cellAt_setCell by (try apply wfBoard_setCell; done).
    rewrite decide_False by (intros [-> ->]; tauto).
    rewrite cellAt_setCell by done. by rewrite decide_True.
Qed.

(** Every candidate with the squares of a promoting pawn move promotes. *)
Lemma same_squares_promote (st : SimpleChess) (lm m : Move) (rr cc : Z) :
  candidatesOf st [lm; m] ->
  promotingPawnMove lm rr cc ->
  mv_from m = mv_from lm -> mv_to m = mv_to lm ->
  mv_promotion m = Some "q"%char.
Proof.
  intros Hc (Hpiece & Hto & Hlast) Hf Ht.
  destruct (Hc lm) as (r & c & Hb & p & rr1 & cc1 & Hcell & _ & Hbb1 & _
                       & Hf1 & Ht1 & Hp1 & _); [by left|].
  destruct (Hc m) as (r' & c' & Hb' & p' & rr2 & cc2 & Hcell' & _ & Hbb2 & _
                      & Hf2 & Ht2 & _ & Hpr2); [right; by left|].
  rewrite Hf1, Hf2 in Hf.
  destruct (coordsToSquare_inj _ _ _ _ Hb' Hb Hf) as [-> ->].
  rewrite Hcell in Hcell'. injection Hcell' as <-.
  rewrite <- Ht, Ht2, squareToCoords_coordsToSquare in Hto by done.
  injection Hto as -> ->.
  rewrite Hpr2. unfold isPawn. rewrite <- Hp1, Hpiece.
  unfold lastRank. destruct Hlast as [-> | ->]; reflexivity.
Qed.

(** How [move] resolves a request with the squares of a promoting pawn move,
    by the promotion text of the request. *)
Lemma promotion_resolution (st : SimpleChess) (legal : list Move)
    (lm : Move) (rr cc : Z) (choice : option string) :
  reachable st ->
  moves (mkOpts true None) st = Some (map Verbose legal, st) ->
  In lm legal ->
  promotingPawnMove lm rr cc ->
  let rq := mkRequest (mv_from lm) (mv_to lm) choice in
  if match choice with
     | None => true
     | Some s => negb (truthy s) || String.eqb s "q"
     end
  then exists lm' st',
         move (ArgObject rq) st = Some (Some lm', st')
         /\ mv_from lm' = mv_from lm /\ mv_to lm' = mv_to lm
         /\ mv_promotion lm' = Some "q"%char
         /\ cellAt (board st') rr cc = Some (queenOf (turnColor st))
  else move (ArgObject rq) st = Some (None, st).
Proof.
  intros Hreach Hmoves Hin Hprom rq.
  destruct (reachable_valid st Hreach) as [Hwf _].
  pose proof (legalMovesOf_side st Hwf) as Hside.
  assert (Hlegal : legal = List.filter (leavesKingSafe st) (sideMoves st)).
  { unfold moves, bind in Hmoves. cbn [square verbose] in Hmoves.
    rewrite Hside in Hmoves. unfold ret in Hmoves.
    injection Hmoves as Hmap.
    assert (Inj : forall l1 l2 : list Move,
               map (renderMove true) l1 = map Verbose l2 -> l2 = l1).
    { induction l1 as [|x l1 IH]; intros [|y l2]; simpl; try discriminate;
        [done|]. intros [= -> E]. f_equal. by apply IH. }
    by apply Inj. }
  assert (Hcand : forall m, In m legal -> In m (sideMoves st)).
  { intros m Hm. rewrite Hlegal in Hm. by apply filter_In in Hm as [? _]. }
  assert (Hq : forall m, In m legal ->
            mv_from m = mv_from lm -> mv_to m = mv_to lm ->
            mv_promotion m = Some "q"%char).
  { intros m Hm. apply (same_squares_promote st lm m rr cc); [|done].
    intros x [<-|[<-|[]]]; apply sideMoves_candidates; by apply Hcand. }
  assert (Hmove : move (ArgObject rq) st =
            match List.find (matchesRequest rq) legal with
            | Some m => (_makeMove m ;;; ret (Some m)) st
            | None => Some (None, st)
            end).
  { unfold move, bind at 1. rewrite Hside, <- Hlegal. cbn [requestOfArg].
    by destruct (List.find (matchesRequest rq) legal). }
  rewrite !Hmove. clear Hmove.
  destruct (match choice with
            | None => true
            | Some s => negb (truthy s) || String.eqb s "q"
            end) eqn:Hchoice.
  - assert (Hok : forall m, mv_promotion m = Some "q"%char ->
              promotionMismatch rq m = false).
    { intros m Hm. unfold promotionMismatch, rq. cbn [rq_promotion].
      destruct choice as [s|]; [|reflexivity]. rewrite Hm.
      destruct (truthy s); [|reflexivity]. simpl in Hchoice.
      change (str1 "q") with "q"%string. by rewrite Hchoice. }
    destruct (find_some_exists (matchesRequest rq) legal lm Hin) as [lm' Hfind].
    { unfold matchesRequest, rq. cbn [rq_from rq_to].
      rewrite !String.eqb_refl, Hok; [reflexivity|]. by apply Hq. }
    rewrite Hfind. apply List.find_some in Hfind. destruct Hfind as [Hin' Hm'].
    unfold matchesRequest, rq in Hm'. cbn [rq_from rq_to] in Hm'.
    apply andb_true_iff in Hm'. destruct Hm' as [Hm' _].
    apply andb_true_iff in Hm'. destruct Hm' as [Hf' Ht'].
    apply String.eqb_eq in Hf', Ht'.
    destruct (sideMoves_candidates st lm' (Hcand lm' Hin')) as (r & c & Hb & Hgood).
    destruct (makeMove_good st r c lm' Hb Hgood)
      as (p & rr' & cc' & Hcell & Hcol & Hbb & Hne & Hto & Hpr & Hmk).
    pose proof (Hq lm' Hin' Hf' Ht') as Hq'.
    destruct Hprom as (_ & Hto0 & _).
    rewrite <- Ht', Hto, squareToCoords_coordsToSquare in Hto0 by done.
    injection Hto0 as -> ->.
    eexists lm', _. unfold bind, ret. rewrite Hmk.
    split; [reflexivity|]. repeat (split; [done|]). cbn [board].
    rewrite cellAt_movedBoard_dest by done.
    rewrite Hq' in Hpr. destruct (promotes p rr); [|discriminate].
    rewrite <- Hcol. unfold colorOfPiece. by destruct (isWhitePiece p).
  - rewrite find_all_false; [reflexivity|].
    intros m Hm. unfold matchesRequest, rq. cbn [rq_from rq_to].
    destruct (String.eqb (mv_from m) (mv_from lm)) eqn:Ef; [|reflexivity].
    destruct (String.eqb (mv_to m) (mv_to lm)) eqn:Et; [|reflexivity].
    apply String.eqb_eq in Ef, Et. simpl.
    unfold promotionMismatch. cbn [rq_promotion].
    destruct choice as [s|]; [|discriminate].
    rewrite (Hq m Hm Ef Et). change (str1 "q") with "q"%string.
    apply orb_false_iff in Hchoice. destruct Hchoice as [Ht Hs].
    apply negb_false_iff in Ht. by rewrite Ht, Hs.
Qed.

(** C2, as the code has it.  For every pawn move of a reachable position
    that reaches a last rank: [move] called with its squares and no
    promotion, an empty one, or ["q"] succeeds, the applied move promotes to
    queen and a queen of the mover's colour stands on the destination; called
    with any other promotion text it answers [null] and leaves the engine as
    it was. *)
Theorem promotion_is_queen_or_rejected (st : SimpleChess) (legal : list Move)
    (lm : Move) (rr cc : Z) :
  reachable st ->
  moves (mkOpts true None) st = Some (map Verbose legal, st) ->
  In lm legal ->
  promotingPawnMove lm rr cc ->
  (forall choice,
      choice = None \/ choice = Some ""%string \/ choice = Some "q"%string ->
      exists lm' st',
        move (ArgObject (mkRequest (mv_from lm) (mv_to lm) choice)) st
        = Some (Some lm', st')
        /\ mv_from lm' = mv_from lm /\ mv_to lm' = mv_to lm
        /\ mv_promotion lm' = Some "q"%char
        /\ cellAt (board st') rr cc = Some (queenOf (turnColor st)))
  /\ (forall s,
        s <> ""%string -> s <> "q"%string ->
        move (ArgObject (mkRequest (mv_from lm) (mv_to lm) (Some s))) st
        = Some (None, st)).
Proof.
  intros Hreach Hmoves Hin Hprom. split.
  - intros choice Hchoice.
    pose proof (promotion_resolution st legal lm rr cc choice
                  Hreach Hmoves Hin Hprom) as H.
    cbv zeta in H.
    destruct Hchoice as [-> | [-> | ->]]; exact H.
  - intros s Hne Hq.
    pose proof (promotion_resolution st legal lm rr cc (Some s)
                  Hreach Hmoves Hin Hprom) as H.
    cbv beta iota zeta in H.
    replace (negb (truthy s) || String.eqb s "q"%string) with false in H;
      [exact H|].
    symmetry. apply orb_false_iff. split.
    + destruct s; [done | reflexivity].
    + by apply String.eqb_neq.
Qed.

Lemma promotion_is_queen_or_rejected_witness :
  (exists lm' st',
     move (ArgObject (mkRequest "h7" "g8" (Some "q"%string))) promotionPosition
     = Some (Some lm', st')
     /\ cellAt (board st') 0 6 = Some "Q"%char)
  /\ move (ArgObject (mkRequest "h7" "g8" (Some "n"%string))) promotionPosition
     = Some (None, promotionPosition).
Proof.
  pose (legal := match legalMovesOf None promotionPosition with
                 | Some (l, _) => l
                 | None => []
                 end).
  assert (Hmoves : moves (mkOpts true None) promotionPosition
                   = Some (map Verbose legal, promotionPosition))
    by (vm_compute; reflexivity).
  assert (Hin : In h7g8 legal)
    by (vm_compute; repeat (first [left; reflexivity | right])).
  assert (Hprom : promotingPawnMove h7g8 0 6)
    by (repeat split; vm_compute; tauto).
  destruct (promotion_is_queen_or_rejected promotionPosition legal h7g8 0 6
              promotionPosition_reachable Hmoves Hin Hprom) as [Hyes Hno].
  split.
  - destruct (Hyes (Some "q"%string)) as (lm' & st' & Hmove & _ & _ & _ & Hcell);
      [right; right; reflexivity|].
    exists lm', st'. split; [exact Hmove | exact Hcell].
  - apply Hno; discriminate.
Defined.

(** C2 as the claim states it fails: in a position reached by play the pawn
    on h7 can take on g8 and promote, yet [move] called with those squares
    and the promotion choice ["r"] answers [null] and moves nothing. *)
Lemma promotion_with_other_choice_is_rejected :
  reachable promotionPosition
  /\ (exists legal,
        moves (mkOpts true None) promotionPosition
        = Some (map Verbose legal, promotionPosition)
        /\ In h7g8 legal)
  /\ promotingPawnMove h7g8 0 6
  /\ move (ArgObject (mkRequest "h7" "g8" (Some "r"%string))) promotionPosition
     = Some (None, promotionPosition)
  /\ move (ArgText "h7g8r") promotionPosition = Some (None, promotionPosition).
Proof.
  split; [apply promotionPosition_reachable|].
  split.
  { exists (match legalMovesOf None promotionPosition with
            | Some (l, _) => l
            | None => []
            end).
    split; [vm_compute; reflexivity|].
    vm_compute; repeat (first [left; reflexivity | right]). }
  split; [repeat split; vm_compute; tauto|].
  split; vm_compute; reflexivity.
Qed.

(** ** Text of a rank and its parsing *)

Lemma append_nil_r (s : string) : (s ++ "")%string = s.
Proof. induction s as [|ch s IH]; simpl; [reflexivity | by rewrite IH]. Qed.

Lemma append_assoc (s1 s2 s3 : string) :
  ((s1 ++ s2) ++ s3)%string = (s1 ++ (s2 ++ s3))%string.
Proof. induction s1 as [|ch s1 IH]; simpl; [reflexivity | by rewrite IH]. Qed.

Lemma strAll_app (f : ascii -> bool) (s1 s2 : string) :
  strAll f (s1 ++ s2) = strAll f s1 && strAll f s2.
Proof.
  induction s1 as [|ch s1 IH]; simpl; [reflexivity|].
  by rewrite IH, andb_assoc.
Qed.

Lemma strAll_impl (f g : ascii -> bool) (s : string) :
  (forall ch, f ch = true -> g ch = true) ->
  strAll f s = true -> strAll g s = true.
Proof.
  intros Hfg. induction s as [|ch s IH]; simpl; [done|].
  rewrite !andb_true_iff. intros [H1 H2]. split; [by apply Hfg | by apply IH].
Qed.

Lemma flushEmpty_acc (empty : nat) (acc : string) :
  flushEmpty empty acc = (acc ++ flushEmpty empty EmptyString)%string.
Proof.
  unfold flushEmpty. destruct (0 <? empty)%nat; simpl;
    [reflexivity | by rewrite append_nil_r].
Qed.

Lemma fenCells_rankText (cells : list Cell) (empty : nat) (acc : string) :
  fenCells cells empty acc = (acc ++ rankText cells empty)%string.
Proof.
  revert empty acc. induction cells as [|[cell|] rest IH]; intros empty acc; simpl.
  - apply flushEmpty_acc.
  - rewrite IH, (flushEmpty_acc empty acc), !append_assoc. reflexivity.
  - apply IH.
Qed.

Lemma flushEmpty_digit (empty : nat) :
  (1 <= empty <= 8)%nat ->
  flushEmpty empty EmptyString = str1 (digitChar empty)
  /\ isRunDigit (digitChar empty) = true
  /\ Z.to_nat (charCode (digitChar empty) - 48) = empty.
Proof.
  intros H.
  do 9 (destruct empty as [|empty]; [try lia; by vm_compute|]). lia.
Qed.

Lemma pieceLetter_plain (p : ascii) :
  isPieceLetter p = true ->
  isRunDigit p = false /\ isWhitespace p = false /\ ascii_eqb p "/" = false.
Proof.
  destruct p as [[] [] [] [] [] [] [] []]; vm_compute; intros; try discriminate;
    by repeat split.
Qed.

Lemma fenChar_plain (ch : ascii) :
  isFenChar ch = true ->
  isWhitespace ch = false /\ ascii_eqb ch "/" = false.
Proof.
  destruct ch as [[] [] [] [] [] [] [] []]; vm_compute; intros; try discriminate;
    by repeat split.
Qed.

Lemma rankText_chars (cells : list Cell) (empty : nat) :
  Forall cellOk cells -> (empty + length cells <= 8)%nat ->
  strAll isFenChar (rankText cells empty) = true.
Proof.
  intros Hok. revert empty.
  induction Hok as [|[cell|] rest Hcell Hrest IH]; intros empty Hlen; simpl in *.
  - destruct (decide (empty = 0%nat)) as [->|Hne]; [reflexivity|].
    destruct (flushEmpty_digit empty) as (-> & Hd & _); [lia|].
    simpl. unfold isFenChar. by rewrite Hd.
  - rewrite strAll_app. simpl. rewrite IH by lia.
    unfold isFenChar at 2. rewrite Hcell, orb_true_r. simpl.
    destruct (decide (empty = 0%nat)) as [->|Hne]; [reflexivity|].
    destruct (flushEmpty_digit empty) as (-> & Hd & _); [lia|].
    simpl. unfold isFenChar. by rewrite Hd.
  - apply IH. lia.
Qed.

Lemma rankText_nonempty (cells : list Cell) (empty : nat) :
  (1 <= empty + length cells <= 8)%nat ->
  exists ch rest, rankText cells empty = String ch rest.
Proof.
  revert empty. induction cells as [|[cell|] rest IH]; intros empty Hlen; simpl in *.
  - destruct (flushEmpty_digit empty) as (-> & _); [lia|]. by eexists _, _.
  - destruct (decide (empty = 0%nat)) as [->|Hne]; [by eexists _, _|].
    destruct (flushEmpty_digit empty) as (-> & _); [lia|]. by eexists _, _.
  - apply IH. lia.
Qed.

Lemma parseRank_run (ch : ascii) (rest : string) (row : list Cell) :
  (length row <= 7)%nat -> isRunDigit ch = true ->
  parseRank (String ch rest) row (length row)
  = parseRank rest (row ++ replicate (Z.to_nat (charCode ch - 48)) None)
              (length (row ++ replicate (Z.to_nat (charCode ch - 48)) None)).
Proof.
  intros Hlen Hd. cbn [parseRank].
  replace (7 <? length row)%nat with false by (symmetry; apply Nat.ltb_ge; lia).
  rewrite Hd. by rewrite length_app, length_replicate.
Qed.

Lemma parseRank_piece (ch : ascii) (rest : string) (row : list Cell) :
  (length row <= 7)%nat -> isRunDigit ch = false ->
  parseRank (String ch rest) row (length row)
  = parseRank rest (row ++ [Some ch]) (length (row ++ [Some ch])).
Proof.
  intros Hlen Hd. cbn [parseRank].
  replace (7 <? length row)%nat with false by (symmetry; apply Nat.ltb_ge; lia).
  rewrite Hd. by rewrite length_app.
Qed.

Lemma parseRank_rankText (cells : list Cell) (empty : nat) (row : list Cell) :
  Forall cellOk cells -> (length row + empty + length cells <= 8)%nat ->
  parseRank (rankText cells empty) row (length row)
  = row ++ replicate empty None ++ cells.
Proof.
  intros Hok. revert empty row.
  induction Hok as [|[cell|] rest Hcell Hrest IH]; intros empty row Hlen;
    cbn [rankText length] in *.
  - destruct (decide (empty = 0%nat)) as [->|Hne]; [simpl; by rewrite app_nil_r|].
    destruct (flushEmpty_digit empty) as (-> & Hd & Hv); [lia|].
    unfold str1. rewrite parseRank_run, Hv by (done || lia).
    simpl. by rewrite app_nil_r.
  - destruct (pieceLetter_plain cell Hcell) as (Hnd & _ & _).
    assert (Step : forall row',
      (length row' + 1 + length rest <= 8)%nat ->
      parseRank (String cell (rankText rest 0%nat)) row' (length row')
      = row' ++ Some cell :: rest).
    { intros row' Hl. rewrite parseRank_piece by (done || lia).
      rewrite IH by (rewrite length_app; simpl; lia).
      simpl. by rewrite <- app_assoc. }
    destruct (decide (empty = 0%nat)) as [->|Hne]; [by apply Step; lia|].
    destruct (flushEmpty_digit empty) as (-> & Hd & Hv); [lia|].
    cbn [str1 String.append].
    rewrite parseRank_run, Hv by (done || lia).
    rewrite Step by (rewrite length_app, length_replicate; lia).
    by rewrite <- app_assoc.
  - rewrite IH by lia.
    replace (replicate (S empty) None ++ rest)
      with (replicate empty None ++ None :: rest :> list (option ascii));
      [reflexivity|].
    clear. induction empty as [|n IHn]; simpl; [reflexivity | by rewrite IHn].
Qed.

(** ** Splitting the serialised text *)

Lemma trimEnd_app (s t : string) (ch : ascii) (t' : string) :
  trimEnd t = String ch t' -> trimEnd (s ++ t) = (s ++ trimEnd t)%string.
Proof.
  intros Ht. induction s as [|a s IH]; [reflexivity|].
  cbn [String.append trimEnd]. rewrite IH.
  destruct (s ++ trimEnd t)%string eqn:E; [|reflexivity].
  rewrite Ht in E. destruct s; discriminate.
Qed.

Lemma splitWhitespace_app (p s cur : string) :
  strAll (fun ch => negb (isWhitespace ch)) p = true ->
  splitWhitespace (p ++ s) cur false
  = splitWhitespace s (cur ++ p) false.
Proof.
  revert cur. induction p as [|ch p IH]; intros cur Hp; cbn [String.append].
  - by rewrite append_nil_r.
  - cbn [strAll] in Hp. apply andb_true_iff in Hp. destruct Hp as [Hch Hp].
    apply negb_true_iff in Hch. cbn [splitWhitespace]. rewrite Hch.
    rewrite IH by done. by rewrite append_assoc.
Qed.

Lemma splitSlash_app (p s cur : string) :
  strAll (fun ch => negb (ascii_eqb ch "/")) p = true ->
  splitSlash (p ++ s) cur = splitSlash s (cur ++ p).
Proof.
  revert cur. induction p as [|ch p IH]; intros cur Hp; cbn [String.append].
  - by rewrite append_nil_r.
  - cbn [strAll] in Hp. apply andb_true_iff in Hp. destruct Hp as [Hch Hp].
    apply negb_true_iff in Hch. cbn [splitSlash]. rewrite Hch.
    rewrite IH by done. by rewrite append_assoc.
Qed.

Lemma splitSlash_rank (p s : string) :
  strAll (fun ch => negb (ascii_eqb ch "/")) p = true ->
  splitSlash (p ++ String "/" s) EmptyString = p :: splitSlash s EmptyString.
Proof. intros Hp. by rewrite splitSlash_app. Qed.

Lemma splitSlash_last (p : string) :
  strAll (fun ch => negb (ascii_eqb ch "/")) p = true ->
  splitSlash p EmptyString = [p].
Proof.
  intros Hp. rewrite <- (append_nil_r p) at 1. by rewrite splitSlash_app.
Qed.

Lemma wfBoard_eight (bd : Board) :
  wfBoard bd ->
  exists r0 r1 r2 r3 r4 r5 r6 r7,
    bd = [r0; r1; r2; r3; r4; r5; r6; r7]
    /\ Forall (fun row => length row = 8%nat) bd.
Proof.
  intros [Hl Hr].
  do 9 (destruct bd as [|? bd]; try discriminate).
  by eexists _, _, _, _, _, _, _, _.
Qed.

Lemma fenRank_row (bd : Board) (fen : string) (r : Z) (row : list Cell) :
  bd !! Z.to_nat r = Some row -> length row = 8%nat ->
  fenRank bd fen r
  = (fen ++ rankText row 0 ++ (if (r <? 7)%Z then "/" else ""))%string.
Proof.
  intros Hrow Hlen. unfold fenRank.
  rewrite (map_cellAt_row bd r row Hrow Hlen), fenCells_rankText.
  destruct (r <? 7); [by rewrite append_assoc | by rewrite append_nil_r].
Qed.

Lemma fen_placement (st : SimpleChess) :
  wfBoard (board st) ->
  fen st = (placementText (board st) ++ " " ++ colorText (turnColor st)
            ++ " - - 0 1")%string.
Proof.
  intros Hwf. unfold fen. f_equal.
  destruct (wfBoard_eight _ Hwf) as (r0 & r1 & r2 & r3 & r4 & r5 & r6 & r7 & E & Hr).
  rewrite E in *. clear E.
  repeat match goal with
         | H : Forall _ (_ :: _) |- _ => apply Forall_cons in H; destruct H as [? H]
         end.
  change coords8 with [0; 1; 2; 3; 4; 5; 6; 7].
  cbn [fold_left placementText].
  rewrite (fenRank_row _ _ 0 r0), (fenRank_row _ _ 1 r1), (fenRank_row _ _ 2 r2),
    (fenRank_row _ _ 3 r3), (fenRank_row _ _ 4 r4), (fenRank_row _ _ 5 r5),
    (fenRank_row _ _ 6 r6), (fenRank_row _ _ 7 r7) by (reflexivity || done).
  change (7 <? 7) with false.
  change (0 <? 7) with true. change (1 <? 7) with true.
  change (2 <? 7) with true. change (3 <? 7) with true.
  change (4 <? 7) with true. change (5 <? 7) with true.
  change (6 <? 7) with true.
  cbv iota. rewrite !append_assoc, append_nil_r. reflexivity.
Qed.

Lemma rankText_fenChars (row : list Cell) :
  Forall cellOk row -> length row = 8%nat ->
  strAll isFenChar (rankText row 0) = true.
Proof. intros Hok Hlen. apply rankText_chars; [done | lia]. Qed.

Lemma fenChars_no_space (s : string) :
  strAll isFenChar s = true ->
  strAll (fun ch => negb (isWhitespace ch)) s = true.
Proof.
  apply strAll_impl. intros ch H.
  destruct (fenChar_plain ch H) as [-> _]. reflexivity.
Qed.

Lemma fenChars_no_slash (s : string) :
  strAll isFenChar s = true ->
  strAll (fun ch => negb (ascii_eqb ch "/")) s = true.
Proof.
  apply strAll_impl. intros ch H.
  destruct (fenChar_plain ch H) as [_ ->]. reflexivity.
Qed.

Lemma padRank_parseRank (row : list Cell) :
  Forall cellOk row -> length row = 8%nat ->
  padRank (parseRank (rankText row 0) [] 0%nat) = row.
Proof.
  intros Hok Hlen.
  change 0%nat with (length (@nil (option ascii))) at 2.
  rewrite parseRank_rankText by (simpl; done || lia).
  simpl. unfold padRank. rewrite Hlen. simpl. by rewrite app_nil_r.
Qed.

Lemma placement_rows (bd : Board) :
  wfBoard bd -> piecesOnly bd ->
  splitSlash (placementText bd) EmptyString
  = map (fun row => rankText row 0) bd
  /\ strAll (fun ch => negb (isWhitespace ch)) (placementText bd) = true
  /\ exists ch rest, placementText bd = String ch rest
                     /\ isWhitespace ch = false.
Proof.
  intros Hwf Hp.
  destruct (wfBoard_eight _ Hwf) as (r0 & r1 & r2 & r3 & r4 & r5 & r6 & r7 & E & Hr).
  subst bd. unfold piecesOnly in Hp.
  repeat match goal with
         | H : Forall _ (_ :: _) |- _ => apply Forall_cons in H; destruct H as [? H]
         end.
  assert (F : forall row, Forall cellOk row -> length row = 8%nat ->
                strAll isFenChar (rankText row 0) = true)
    by apply rankText_fenChars.
  split; [|split].
  - cbn [placementText map String.append].
    repeat (rewrite splitSlash_rank by (apply fenChars_no_slash, F; done)).
    rewrite splitSlash_last by (apply fenChars_no_slash, F; done).
    reflexivity.
  - cbn [placementText]. rewrite !strAll_app.
    repeat (rewrite (fenChars_no_space (rankText _ 0)) by (apply F; done)).
    reflexivity.
  - cbn [placementText].
    destruct (rankText_nonempty r0 0) as (ch & rest & E); [simpl; lia|].
    pose proof (F r0 ltac:(done) ltac:(done)) as Hc. rewrite E in Hc.
    cbn [strAll] in Hc. apply andb_true_iff in Hc. destruct Hc as [Hc _].
    rewrite E. cbn [String.append]. eexists _, _. split; [reflexivity|].
    by destruct (fenChar_plain ch Hc).
Qed.

Lemma fen_fields (st : SimpleChess) :
  validState st ->
  placementOf (fen st) = placementText (board st)
  /\ turnOf (fen st) = turnColor st.
Proof.
  intros [Hwf Hp].
  destruct (placement_rows _ Hwf Hp) as (_ & Hnows & ch & rest & E & Hch).
  assert (Htrim : trim (fen st) = fen st).
  { rewrite (fen_placement st Hwf). unfold trim.
    set (tail := (" " ++ colorText (turnColor st) ++ " - - 0 1")%string).
    assert (Htail : trimEnd tail = tail)
      by (unfold tail; destruct (turnColor st); reflexivity).
    rewrite E at 1. cbn [String.append trimStart]. rewrite Hch.
    change (String ch (rest ++ tail))%string with (String ch rest ++ tail)%string.
    rewrite <- E.
    rewrite (trimEnd_app _ tail " "%char
               (colorText (turnColor st) ++ " - - 0 1")%string), Htail;
      [reflexivity|].
    rewrite Htail. unfold tail. reflexivity. }
  unfold placementOf, turnOf. rewrite Htrim, (fen_placement st Hwf).
  rewrite splitWhitespace_app by exact Hnows.
  destruct (turnColor st); split; reflexivity.
Qed.

(** ** Serialising and loading again *)

(** C8. For every position reachable from the initial one through applied
    moves, [load] of the text that [fen] produces answers [true] and leaves an
    engine with exactly the same board and the same side to move (whatever
    engine the text is loaded into). *)
Theorem load_fen_roundtrip (st st0 : SimpleChess) :
  reachable st ->
  exists st',
    load (fen st) st0 = Some (true, st')
    /\ board st' = board st
    /\ turnColor st' = turnColor st.
Proof.
  intros Hreach. pose proof (reachable_valid st Hreach) as Hvalid.
  destruct (fen_fields st Hvalid) as [Hplace Hturn].
  destruct Hvalid as [Hwf Hp].
  destruct (placement_rows _ Hwf Hp) as (Hrows & _).
  unfold load, rowsOf. rewrite Hplace, Hrows, length_map, (proj1 Hwf).
  cbn [Nat.eqb negb]. unfold bind, putState, ret.
  eexists. split; [reflexivity|]. cbn [board turnColor].
  split; [|exact Hturn].
  rewrite map_map.
  rewrite <- (map_id (board st)) at 2.
  apply map_ext_Forall.
  destruct Hwf as [_ Hlen]. unfold piecesOnly in Hp.
  rewrite Forall_forall in *. intros row Hin.
  apply padRank_parseRank; [apply Hp | apply Hlen]; exact Hin.
Qed.

Lemma load_fen_roundtrip_witness :
  reachable promotionPosition
  /\ exists st',
       load (fen promotionPosition) reset = Some (true, st')
       /\ board st' = board promotionPosition
       /\ turnColor st' = turnColor promotionPosition.
Proof.
  split; [apply promotionPosition_reachable|].
  apply (load_fen_roundtrip promotionPosition reset promotionPosition_reachable).
Defined.

(** ** A side without a king *)

(** C9. On every board (of eight ranks, as every board of the engine is) on
    which no square holds a king of the given colour, [_isInCheck] of that
    colour answers [false]; it is a plain function here, so it neither fails
    nor raises. *)
Theorem isInCheck_without_king (st : SimpleChess) (color : Color) :
  length (board st) = 8%nat ->
  (forall r c p,
      _inBounds r c = true ->
      cellAt (board st) r c = Some p ->
      ~ (toLowerCase p = "k"%char /\ colorOfPiece p = color)) ->
  _isInCheck st color = false.
Proof.
  intros _ Hnone. unfold _isInCheck, findKing.
  rewrite find_all_false; [reflexivity|].
  intros [r c] Hin. apply allSquares_inBounds in Hin. cbn [fst snd] in *.
  unfold isKingOf.
  destruct (cellAt (board st) r c) as [p|] eqn:Hcell; [|reflexivity].
  apply not_true_iff_false. intros H. apply andb_true_iff in H.
  destruct H as [Hk Hc]. apply (Hnone r c p Hin Hcell). split.
  - by apply Ascii.eqb_eq.
  - apply Bool.eqb_prop in Hc. unfold colorOfPiece. rewrite <- Hc.
    by destruct color.
Qed.

Lemma isInCheck_without_king_witness :
  length (board loneKing) = 8%nat /\ _isInCheck loneKing B = false.
Proof.
  assert (Hlen : length (board loneKing) = 8%nat) by reflexivity.
  split; [exact Hlen|].
  apply (isInCheck_without_king loneKing B Hlen).
  intros r c p Hb Hcell [Hk Hc].
  pose (ok := fun rc : Z * Z =>
    match cellAt (board loneKing) rc.1 rc.2 with
    | Some q => match colorOfPiece q with W => true | B => false end
    | None => true
    end).
  pose proof (on_all_squares ok eq_refl r c Hb) as Hok.
  unfold ok in Hok. cbn [fst snd] in Hok. rewrite Hcell, Hc in Hok.
  discriminate.
Defined.

(** ** Loading a position: the rank count and the lenient scan *)

Lemma take_pad (row : list Cell) :
  take 8 (padRank row) = take 8 (row ++ replicate 8 None).
Proof.
  unfold padRank. destruct (decide (length row <= 8)%nat) as [Hle|Hgt].
  - rewrite !take_app. rewrite !take_replicate.
    do 2 f_equal. lia.
  - rewrite !take_app_le by lia. reflexivity.
Qed.

Lemma parseRank_files (chars : string) (row : list Cell) :
  take 8 (padRank (parseRank chars row (length row)))
  = take 8 (row ++ expandRank chars ++ replicate 8 None).
Proof.
  revert row. induction chars as [|ch rest IH]; intros row.
  - simpl. apply take_pad.
  - cbn [parseRank expandRank].
    destruct (7 <? length row)%nat eqn:Hfull.
    + apply Nat.ltb_lt in Hfull. rewrite take_pad.
      rewrite !take_app_le by lia. reflexivity.
    + destruct (isRunDigit ch).
      * replace (length row + Z.to_nat (charCode ch - 48))%nat
          with (length (row ++ replicate (Z.to_nat (charCode ch - 48)) None))
          by (rewrite length_app, length_replicate; reflexivity).
        rewrite IH. by rewrite <- !app_assoc.
      * replace (length row + 1)%nat with (length (row ++ [Some ch]))
          by (rewrite length_app; reflexivity).
        rewrite IH. by rewrite <- !app_assoc.
Qed.

Lemma parseRank_ignores_rest (pre post : string) (row : list Cell) :
  (8 <= length row + length (expandRank pre))%nat ->
  parseRank (pre ++ post) row (length row) = parseRank pre row (length row).
Proof.
  revert row. induction pre as [|ch pre IH]; intros row Hfull.
  - simpl in *. destruct post as [|ch post]; [reflexivity|].
    cbn [parseRank].
    replace (7 <? length row)%nat with true
      by (symmetry; apply Nat.ltb_lt; lia).
    reflexivity.
  - cbn [String.append parseRank expandRank] in *.
    destruct (7 <? length row)%nat; [reflexivity|].
    rewrite length_app in Hfull.
    destruct (isRunDigit ch).
    + replace (length row + Z.to_nat (charCode ch - 48))%nat
        with (length (row ++ replicate (Z.to_nat (charCode ch - 48)) None))
        by (rewrite length_app, length_replicate; reflexivity).
      apply IH. rewrite length_app. lia.
    + replace (length row + 1)%nat with (length (row ++ [Some ch]))
        by (rewrite length_app; reflexivity).
      apply IH. rewrite length_app. simpl in *. lia.
Qed.

Lemma runDigit_positive (ch : ascii) :
  isRunDigit ch = true -> (1 <= Z.to_nat (charCode ch - 48))%nat.
Proof.
  unfold isRunDigit. intros H. apply andb_true_iff in H. lia.
Qed.

Lemma parseRank_short (chars : string) (row : list Cell) :
  (length row + length (expandRank chars) <= 8)%nat ->
  parseRank chars row (length row) = row ++ expandRank chars.
Proof.
  revert row. induction chars as [|ch rest IH]; intros row Hlen.
  - simpl. by rewrite app_nil_r.
  - cbn [expandRank] in *. rewrite length_app in Hlen.
    destruct (isRunDigit ch) eqn:Hd.
    + pose proof (runDigit_positive ch Hd).
      rewrite length_replicate in Hlen.
      rewrite parseRank_run, IH by (done || lia ||
        (rewrite length_app, length_replicate; lia)).
      by rewrite <- app_assoc.
    + simpl in Hlen.
      rewrite parseRank_piece, IH by (done || lia ||
        (rewrite length_app; simpl; lia)).
      by rewrite <- app_assoc.
Qed.

(** C7. When the placement field of the input does not split into exactly
    eight ranks, [load] answers [false] and the engine (board, side to move,
    history) is untouched.  When it does, [load] answers [true] for any text
    whatsoever, and of each rank it stores at least eight cells, the first
    eight being what the characters stand for followed by empty squares (a
    short rank is padded with empty squares); characters that come after
    eight files are filled are ignored. *)
Theorem load_counts_ranks_and_scans_leniently (st : SimpleChess) (fen : string) :
  (length (rowsOf fen) <> 8%nat -> load fen st = Some (false, st))
  /\ (length (rowsOf fen) = 8%nat ->
      exists bd,
        load fen st = Some (true, mkChess bd (turnOf fen) [])
        /\ length bd = 8%nat
        /\ forall r chars,
             rowsOf fen !! r = Some chars ->
             bd !! r = Some (loadedRank chars)
             /\ (8 <= length (loadedRank chars))%nat
             /\ take 8 (loadedRank chars)
                = take 8 (expandRank chars ++ replicate 8 None)
             /\ ((length (expandRank chars) <= 8)%nat ->
                 loadedRank chars
                 = expandRank chars
                   ++ replicate (8 - length (expandRank chars)) None)
             /\ forall pre post,
                  chars = (pre ++ post)%string ->
                  (8 <= length (expandRank pre))%nat ->
                  loadedRank chars = loadedRank pre).
Proof.
  split.
  - intros Hne. unfold load.
    replace (length (rowsOf fen) =? 8)%nat with false
      by (symmetry; by apply Nat.eqb_neq).
    reflexivity.
  - intros Heq. unfold load. rewrite Heq. cbn [Nat.eqb negb].
    unfold bind, putState, ret. eexists. split; [reflexivity|].
    split; [by rewrite length_map|].
    intros r chars Hr. fold loadedRank.
    split; [by rewrite list_lookup_fmap, Hr|].
    assert (Hfiles : take 8 (loadedRank chars)
                     = take 8 (expandRank chars ++ replicate 8 None))
      by (unfold loadedRank; apply (parseRank_files chars [])).
    split.
    { unfold loadedRank, padRank. rewrite length_app, length_replicate. lia. }
    split; [exact Hfiles|].
    split.
    { intros Hshort. unfold loadedRank, padRank.
      pose proof (parseRank_short chars [] Hshort) as E.
      cbn [length app] in E. by rewrite E. }
    intros pre post -> Hfull. unfold loadedRank. f_equal.
    apply (parseRank_ignores_rest pre post []). simpl. lia.
Qed.

Lemma load_counts_ranks_and_scans_leniently_witness :
  load "8/8 w" reset = Some (false, reset)
  /\ exists bd,
       load "rnbqkbnrX/9x/8/8/8/8/44p/K b" reset = Some (true, mkChess bd B [])
       /\ bd !! 6%nat = Some (replicate 8 None).
Proof.
  split.
  - apply (proj1 (load_counts_ranks_and_scans_leniently reset "8/8 w")).
    vm_compute. discriminate.
  - destruct (proj2 (load_counts_ranks_and_scans_leniently reset
                       "rnbqkbnrX/9x/8/8/8/8/44p/K b") eq_refl)
      as (bd & Hload & _ & Hrows).
    exists bd. split; [exact Hload|].
    destruct (Hrows 6%nat "44p"%string eq_refl) as (Hrow & _).
    rewrite Hrow. reflexivity.
Defined.

(** ** Square-addressed operations on arbitrary text *)

Lemma squareToCoords_ill_formed (sq : string) :
  wellFormedSquare sq = false -> rangeTested sq = true ->
  _squareToCoords sq = None.
Proof.
  unfold wellFormedSquare, rangeTested, _squareToCoords, isDecimalDigit, parseInt.
  destruct sq as [|f [|r [|? ?]]]; try reflexivity.
  intros Hill Hrange.
  destruct ((48 <=? charCode r) && (charCode r <=? 57)) eqn:Hd; simpl.
  - destruct ((charCode f - 97 <? 0) || (7 <? charCode f - 97)
              || (8 - (charCode r - 48) <? 0) || (7 <? 8 - (charCode r - 48)))
      eqn:E; [reflexivity|].
    exfalso. rewrite !orb_false_iff in E.
    apply not_true_iff_false in Hill. apply Hill.
    rewrite !andb_true_iff. apply andb_true_iff in Hd. lia.
  - rewrite orb_false_r in Hrange. apply negb_true_iff in Hrange.
    replace ((charCode f - 97 <? 0) || (7 <? charCode f - 97)) with true;
      [reflexivity|].
    symmetry. apply andb_false_iff in Hrange. apply orb_true_iff. lia.
Qed.

(** C10, as the code has it.  For every text that is not a well-formed
    square and on which the range test decides (its length is not 2, or its
    file is outside a to h, or its rank character is a decimal digit),
    [_squareToCoords] answers [null] and [get] answers [null] with the engine
    untouched; [moves] for that square answers the empty list when the text
    is not empty, and treats the empty text as no square at all. *)
Theorem ill_formed_square_is_rejected (st : SimpleChess) (sq : string)
    (v : bool) :
  wellFormedSquare sq = false -> rangeTested sq = true ->
  _squareToCoords sq = None
  /\ get sq st = Some (None, st)
  /\ (sq <> EmptyString -> moves (mkOpts v (Some sq)) st = Some ([], st))
  /\ (sq = EmptyString ->
      moves (mkOpts v (Some sq)) st = moves (mkOpts v None) st).
Proof.
  intros Hill Hrange.
  pose proof (squareToCoords_ill_formed sq Hill Hrange) as Hnull.
  split; [exact Hnull|]. split; [|split].
  - unfold get, bind, getState. by rewrite Hnull.
  - intros Hne. unfold moves, legalMovesOf, bind, getState. cbn [square verbose].
    destruct sq; [done|]. cbn [truthy]. by rewrite Hnull.
  - intros ->. reflexivity.
Qed.

Lemma ill_formed_square_is_rejected_witness :
  _squareToCoords "i9" = None
  /\ get "i9" reset = Some (None, reset)
  /\ moves (mkOpts false (Some "e22"%string)) reset = Some ([], reset).
Proof.
  destruct (ill_formed_square_is_rejected reset "i9" false eq_refl eq_refl)
    as (H1 & H2 & _).
  destruct (ill_formed_square_is_rejected reset "e22" false eq_refl eq_refl)
    as (_ & _ & H3 & _).
  split; [exact H1|]. split; [exact H2|]. apply H3. discriminate.
Defined.

(** C10 as the claim states it fails twice.  The text ["ax"] is not a
    well-formed square, yet [_squareToCoords] answers the pair [(NaN, 0)]
    instead of [null], and both [get] and [moves] then raise on the board
    access; and for the empty text [moves] answers the twenty moves of the
    whole side instead of the empty list. *)
Lemma ill_formed_square_not_always_null :
  wellFormedSquare "ax" = false
  /\ _squareToCoords "ax" = Some (NaN, 0)
  /\ get "ax" reset = None
  /\ moves (mkOpts false (Some "ax"%string)) reset = None
  /\ wellFormedSquare "" = false
  /\ exists out,
       moves (mkOpts false (Some ""%string)) reset = Some (out, reset)
       /\ length out = 20%nat.
Proof.
  repeat (split; [reflexivity|]).
  eexists. split; vm_compute; reflexivity.
Qed.

(** ** Rating adjustment *)

Lemma getRating_insert_eq (sb : gmap string Z) (id : string) (x : Z) :
  getRating (<[id := x]> sb) id = x.
Proof. unfold getRating. by rewrite lookup_insert_eq. Qed.

Lemma getRating_insert_ne (sb : gmap string Z) (id id' : string) (x : Z) :
  id <> id' -> getRating (<[id := x]> sb) id' = getRating sb id'.
Proof. intros H. unfold getRating. by rewrite lookup_insert_ne. Qed.




(** ** The move timeout *)

(** C5. For a game whose last-move timestamp is a real clock value (not 0):
    when the game is not over and the time since the last move strictly
    exceeds the timeout, [checkTimeout] answers [true], marks the game over
    with reason timeout, the side to move as loser and the other side as
    winner, and updates the ratings of the two; in every other case (game
    already over, or elapsed time at most the timeout) it answers [false] and
    changes nothing; and every later call on the state a timeout leaves
    answers [false] and changes nothing. *)
Theorem checkTimeout_forfeits_exactly_when_overdue (now : Z)
    (scoreboard : gmap string Z) (game : Game) :
  lastMove game <> 0 ->
  let s := mkTimeoutState scoreboard (Some game) in
  let s' :=
    mkTimeoutState
      (updateRatings
         (player_id (playerOf game (opposite (turn (engine game)))))
         (player_id (playerOf game (turn (engine game))))
         scoreboard)
      (Some (forfeit game)) in
  (timedOut now game ->
     checkTimeout now s = (true, s')
     /\ forall later, checkTimeout later s' = (false, s'))
  /\ (~ timedOut now game -> checkTimeout now s = (false, s)).
Proof.
  intros Hclock s s'. subst s s'. unfold timedOut. split.
  - intros [Hover Hlate]. split; [|reflexivity].
    unfold checkTimeout. cbn [ts_game ts_scoreboard]. rewrite Hover.
    replace (lastMove game =? 0) with false
      by (symmetry; by apply Z.eqb_neq).
    replace (MOVE_TIMEOUT_MS <? now - lastMove game) with true
      by (symmetry; by apply Z.ltb_lt).
    unfold forfeit. by destruct (turn (engine game)).
  - intros Hnot. unfold checkTimeout. cbn [ts_game ts_scoreboard].
    replace (lastMove game =? 0) with false
      by (symmetry; by apply Z.eqb_neq).
    cbn [negb andb]. destruct (over game) eqn:Hover; [reflexivity|].
    replace (MOVE_TIMEOUT_MS <? now - lastMove game) with false; [reflexivity|].
    symmetry. apply Z.ltb_ge.
    destruct (Z.lt_ge_cases MOVE_TIMEOUT_MS (now - lastMove game)); [|lia].
    exfalso. by apply Hnot.
Qed.

Lemma checkTimeout_forfeits_exactly_when_overdue_witness :
  fst (checkTimeout 301001 (mkTimeoutState ∅ (Some sampleGame))) = true
  /\ checkTimeout 301000 (mkTimeoutState ∅ (Some sampleGame))
     = (false, mkTimeoutState ∅ (Some sampleGame)).
Proof.
  assert (Hclock : lastMove sampleGame <> 0) by (vm_compute; discriminate).
  destruct (checkTimeout_forfeits_exactly_when_overdue 301001 ∅ sampleGame Hclock)
    as [Hyes _].
  destruct (checkTimeout_forfeits_exactly_when_overdue 301000 ∅ sampleGame Hclock)
    as [_ Hno].
  split.
  - rewrite (proj1 (Hyes ltac:(split; [reflexivity | vm_compute; reflexivity]))).
    reflexivity.
  - apply Hno. intros [_ Hlate]. vm_compute in Hlate. discriminate.
Defined.

(** ** Matchmaking: the closest waiting opponent *)

Section Matchmaking.
Variable playerId : string.
Variable playerRating : option Z.

Lemma scanStep_self (acc : option string * option Z) (u : QueueEntry) :
  scanStep playerId playerRating acc (playerId, u) = acc.
Proof. unfold scanStep. cbn [fst]. by rewrite String.eqb_refl. Qed.

Lemma scanStep_other (acc : option string * option Z) (k : string)
    (u : QueueEntry) :
  k <> playerId ->
  scanStep playerId playerRating acc (k, u)
  = if belowBest (ratingGap playerRating u) acc.2 then (Some k, Some (ratingGap playerRating u)) else acc.
Proof.
  intros Hne. unfold scanStep. cbn [fst snd].
  by replace (String.eqb k playerId) with false
    by (symmetry; by apply String.eqb_neq).
Qed.

Lemma scan_spec (queue : Queue) (acc : option string * option Z) :
  let res := fold_left (scanStep playerId playerRating) queue acc in
  (res = acc
   /\ forall j k u, queue !! j = Some (k, u) -> k <> playerId ->
                    belowBest (ratingGap playerRating u) acc.2 = false)
  \/ (exists i k u,
        queue !! i = Some (k, u) /\ k <> playerId
        /\ res = (Some k, Some (ratingGap playerRating u))
        /\ belowBest (ratingGap playerRating u) acc.2 = true
        /\ closestFirst playerId playerRating queue i u).
Proof.
  revert acc. induction queue as [|[k0 u0] rest IH]; intros acc; cbn zeta.
  { left. split; [reflexivity|]. intros j k u Hj. by destruct j. }
  cbn [fold_left]. unfold closestFirst in *.
  destruct (decide (k0 = playerId)) as [->|Hself].
  - rewrite scanStep_self.
    destruct (IH acc) as [[Hres Hall]|(i & k & u & Hi & Hk & Hres & Hbelow & Hmin)].
    + left. split; [exact Hres|].
      intros [|j] k u Hj Hne; simpl in Hj; [congruence|]. by eapply Hall.
    + right. exists (S i), k, u. repeat (split; [done|]).
      intros [|j] k' u' Hj Hne; simpl in Hj; [congruence|].
      destruct (Hmin j k' u' Hj Hne) as [Hle Hlt]. split; [exact Hle|]. lia.
  - rewrite (scanStep_other acc k0 u0 Hself).
    destruct (belowBest (ratingGap playerRating u0) acc.2) eqn:Hb0.
    + destruct (IH (Some k0, Some (ratingGap playerRating u0)))
        as [[Hres Hall]|(i & k & u & Hi & Hk & Hres & Hbelow & Hmin)].
      * right. exists 0%nat, k0, u0. repeat (split; [done|]).
        intros [|j] k' u' Hj Hne; simpl in Hj.
        -- injection Hj as <- <-. split; lia.
        -- specialize (Hall j k' u' Hj Hne). simpl in Hall.
           apply Z.ltb_ge in Hall. split; lia.
      * simpl in Hbelow. apply Z.ltb_lt in Hbelow.
        right. exists (S i), k, u. repeat (split; [done|]). split.
        { destruct acc as [? [a|]]; [|reflexivity]. simpl in *.
          apply Z.ltb_lt in Hb0. apply Z.ltb_lt. lia. }
        intros [|j] k' u' Hj Hne; simpl in Hj.
        -- injection Hj as <- <-. split; lia.
        -- destruct (Hmin j k' u' Hj Hne) as [Hle Hlt]. split; [exact Hle|]. lia.
    + destruct (IH acc)
        as [[Hres Hall]|(i & k & u & Hi & Hk & Hres & Hbelow & Hmin)].
      * left. split; [exact Hres|].
        intros [|j] k u Hj Hne; simpl in Hj.
        -- by injection Hj as <- <-.
        -- by eapply Hall.
      * right. exists (S i), k, u. repeat (split; [done|]).
        intros [|j] k' u' Hj Hne; simpl in Hj.
        -- injection Hj as <- <-.
           destruct acc as [? [a|]]; [|discriminate]. simpl in *.
           apply Z.ltb_ge in Hb0. apply Z.ltb_lt in Hbelow. split; lia.
        -- destruct (Hmin j k' u' Hj Hne) as [Hle Hlt]. split; [exact Hle|]. lia.
Qed.


End Matchmaking.




(** ** Squares: the two conversions are inverse *)

Lemma fromCharCode_charCode (ch : ascii) : fromCharCode (charCode ch) = ch.
Proof.
  unfold fromCharCode, charCode. by rewrite Nat2Z.id, ascii_nat_embedding.
Qed.

Lemma coordsToSquare_squareToCoords (sq : string) (r c : Z) :
  _squareToCoords sq = Some (Num r, c) -> _coordsToSquare r c = sq.
Proof.
  unfold _squareToCoords, _coordsToSquare.
  destruct sq as [|c0 [|c1 [|? ?]]]; try discriminate.
  destruct (parseInt c1) as [z|] eqn:Ep; cbn [js_rsub js_lt js_gt].
  - destruct ((charCode c0 - 97 <? 0) || (7 <? charCode c0 - 97)
              || (8 - z <? 0) || (7 <? 8 - z)) eqn:E; [discriminate|].
    intros [= <- <-]. rewrite !orb_false_iff in E.
    replace (97 + (charCode c0 - 97)) with (charCode c0) by lia.
    rewrite fromCharCode_charCode. f_equal.
    replace (8 - (8 - z)) with z by lia.
    assert (Hz : 1 <= z <= 8) by lia. clear E.
    unfold parseInt in Ep.
    destruct ((48 <=? charCode c1) && (charCode c1 <=? 57)); [|discriminate].
    injection Ep as Ep.
    rewrite <- (fromCharCode_charCode c1).
    replace (charCode c1) with (48 + z) by lia.
    assert (Ez : z = 1 \/ z = 2 \/ z = 3 \/ z = 4 \/ z = 5 \/ z = 6 \/ z = 7 \/ z = 8)
      by lia.
    destruct Ez as [->|[->|[->|[->|[->|[->|[->| ->]]]]]]]; reflexivity.
  - destruct ((charCode c0 - 97 <? 0) || (7 <? charCode c0 - 97) || false || false);
      discriminate.
Qed.

(** X1. The two square conversions are inverse of each other on the board:
    the text of coordinates inside the bounds converts back to the same
    coordinates, and a text that converts to a numeric pair is the text of
    that pair (which lies inside the bounds). *)
Theorem square_conversions_inverse :
  (forall r c,
      _inBounds r c = true ->
      _squareToCoords (_coordsToSquare r c) = Some (Num r, c))
  /\ (forall sq r c,
        _squareToCoords sq = Some (Num r, c) ->
        _inBounds r c = true /\ _coordsToSquare r c = sq).
Proof.
  split.
  - apply squareToCoords_coordsToSquare.
  - intros sq r c H. split.
    + by eapply squareToCoords_inBounds.
    + by apply coordsToSquare_squareToCoords.
Qed.

Lemma square_conversions_inverse_witness :
  _squareToCoords (_coordsToSquare 6 4) = Some (Num 6, 4)
  /\ _coordsToSquare 6 4 = "e2"%string.
Proof.
  destruct square_conversions_inverse as [Hto Hfrom].
  split; [apply Hto; reflexivity|].
  exact (proj2 (Hfrom "e2"%string 6 4 eq_refl)).
Defined.

(** ** Destinations and the captured field *)

Lemma landsOn_empty (bd : Board) (piece : ascii) (mv : Move) (rr cc : Z) :
  _inBounds rr cc = true -> cellAt bd rr cc = None ->
  mv_to mv = _coordsToSquare rr cc -> mv_captured mv = None ->
  landsOn bd piece mv rr cc.
Proof.
  intros Hb Hcell Hto Hcap. repeat split; try done.
  - by rewrite Hcell.
  - intros target. by rewrite Hcell.
Qed.

Lemma landsOn_enemy (bd : Board) (piece : ascii) (mv : Move) (rr cc : Z)
    (target : ascii) :
  _inBounds rr cc = true -> cellAt bd rr cc = Some target ->
  negb (Bool.eqb (isWhitePiece target) (isWhitePiece piece)) = true ->
  mv_to mv = _coordsToSquare rr cc ->
  mv_captured mv = Some (toLowerCase target) ->
  landsOn bd piece mv rr cc.
Proof.
  intros Hb Hcell Hcol Hto Hcap. repeat split; try done.
  - by rewrite Hcell.
  - intros t. rewrite Hcell. intros [= <-] E.
    rewrite E, Bool.eqb_reflx in Hcol. discriminate.
Qed.

Lemma jumpMoves_landsOn (bd : Board) (fromSquare : string) (piece : ascii)
    (r c : Z) (d : Z * Z) (mv : Move) :
  In mv (jumpMoves bd fromSquare piece r c d) ->
  landsOn bd piece mv (r + d.1) (c + d.2).
Proof.
  unfold jumpMoves.
  destruct (_inBounds (r + d.1) (c + d.2)) eqn:Hb; simpl; [|tauto].
  destruct (cellAt bd (r + d.1) (c + d.2)) as [target|] eqn:Hcell.
  - destruct (negb _) eqn:Hcol; simpl; [|tauto].
    intros [<-|[]]. by eapply landsOn_enemy.
  - intros [<-|[]]. by apply landsOn_empty.
Qed.

Lemma slideMoves_landsOn (bd : Board) (fromSquare : string) (piece : ascii)
    (fuel : nat) (rr cc dr dc : Z) (mv : Move) :
  In mv (slideMoves bd fromSquare piece fuel rr cc dr dc) ->
  exists rr' cc', landsOn bd piece mv rr' cc'.
Proof.
  revert rr cc. induction fuel as [|fuel IH]; intros rr cc; simpl; [tauto|].
  destruct (_inBounds rr cc) eqn:Hb; [|simpl; tauto].
  destruct (cellAt bd rr cc) as [target|] eqn:Hcell.
  - destruct (negb _) eqn:Hcol; simpl; [|tauto].
    intros [<-|[]]. exists rr, cc. by eapply landsOn_enemy.
  - intros [<-|Hin].
    + exists rr, cc. by apply landsOn_empty.
    + by eapply IH.
Qed.

Lemma pawnMoves_landsOn (bd : Board) (fromSquare : string) (piece : ascii)
    (r c : Z) (mv : Move) :
  In mv (pawnMoves bd fromSquare piece r c) ->
  exists rr cc, landsOn bd piece mv rr cc.
Proof.
  unfold pawnMoves. intros Hin. apply in_app_or in Hin.
  set (dir := if isWhitePiece piece then -1 else 1) in *.
  destruct Hin as [Hin|Hin].
  - destruct (_inBounds (r + dir) c && isEmpty (cellAt bd (r + dir) c)) eqn:E;
      [|destruct Hin].
    apply andb_true_iff in E. destruct E as [Hb He].
    destruct Hin as [<-|Hin].
    + exists (r + dir), c. apply landsOn_empty; try done.
      * by destruct (cellAt bd (r + dir) c).
      * by destruct ((r + dir =? 0) || (r + dir =? 7)).
      * by destruct ((r + dir =? 0) || (r + dir =? 7)).
    + destruct ((r =? (if isWhitePiece piece then 6 else 1))
                && isEmpty (cellAt bd (r + 2 * dir) c)) eqn:E2; [|destruct Hin].
      destruct Hin as [<-|[]].
      apply andb_true_iff in E2. destruct E2 as [Hs He2].
      apply Z.eqb_eq in Hs. apply inBounds_iff in Hb.
      exists (r + 2 * dir), c. apply landsOn_empty; try done.
      * apply inBounds_iff. unfold dir in *. destruct (isWhitePiece piece); lia.
      * by destruct (cellAt bd (r + 2 * dir) c).
  - apply in_flat_map in Hin. destruct Hin as (dc & _ & Hin).
    destruct (_inBounds (r + dir) (c + dc)) eqn:Hb; [|destruct Hin].
    destruct (cellAt bd (r + dir) (c + dc)) as [target|] eqn:Hcell; [|destruct Hin].
    destruct (negb _) eqn:Hcol; [|destruct Hin].
    exists (r + dir), (c + dc).
    destruct ((r + dir =? 0) || (r + dir =? 7)); simpl in Hin;
      destruct Hin as [<-|[]]; by eapply landsOn_enemy.
Qed.

Lemma generatePieceMoves_landsOn (st : SimpleChess) (r c : Z) (mv : Move) :
  In mv (_generatePieceMoves st r c) ->
  exists p rr cc,
    cellAt (board st) r c = Some p /\ landsOn (board st) p mv rr cc.
Proof.
  unfold _generatePieceMoves.
  destruct (cellAt (board st) r c) as [p|] eqn:Hcell; [|intros []].
  destruct (negb _); [intros []|].
  assert (Jump : forall dirs,
            In mv (flat_map (jumpMoves (board st) (_coordsToSquare r c) p r c) dirs) ->
            exists p0 rr cc, Some p = Some p0 /\ landsOn (board st) p0 mv rr cc).
  { intros dirs Hin. apply in_flat_map in Hin. destruct Hin as (d & _ & Hin).
    apply jumpMoves_landsOn in Hin. by eexists p, _, _. }
  assert (Slide : forall dirs,
            In mv (flat_map (fun d : Z * Z =>
                     slideMoves (board st) (_coordsToSquare r c) p slideFuel
                                (r + d.1) (c + d.2) d.1 d.2) dirs) ->
            exists p0 rr cc, Some p = Some p0 /\ landsOn (board st) p0 mv rr cc).
  { intros dirs Hin. apply in_flat_map in Hin. destruct Hin as (d & _ & Hin).
    apply slideMoves_landsOn in Hin. destruct Hin as (rr & cc & H).
    by exists p, rr, cc. }
  destruct (ascii_eqb (toLowerCase p) "p").
  { intros Hin. apply pawnMoves_landsOn in Hin. destruct Hin as (rr & cc & H).
    by exists p, rr, cc. }
  destruct (ascii_eqb (toLowerCase p) "n"); [apply Jump|].
  destruct (ascii_eqb (toLowerCase p) "b"); [apply Slide|].
  destruct (ascii_eqb (toLowerCase p) "r"); [apply Slide|].
  destruct (ascii_eqb (toLowerCase p) "q"); [apply Slide|].
  destruct (ascii_eqb (toLowerCase p) "k"); [apply Jump|].
  intros [].
Qed.

Lemma sideMoves_generated (st : SimpleChess) (mv : Move) :
  In mv (sideMoves st) -> generatedBy st mv.
Proof.
  intros Hin. unfold sideMoves in Hin.
  apply in_flat_map in Hin. destruct Hin as ([r c] & Hsq & Hin).
  apply allSquares_inBounds in Hsq. cbn [fst snd] in *.
  exists r, c. split; [exact Hsq|].
  destruct (cellAt (board st) r c); [|destruct Hin].
  by destruct (negb _); [destruct Hin|].
Qed.

Lemma legalMovesOf_generated (st st' : SimpleChess) (sq : option string)
    (legal : list Move) (mv : Move) :
  wfBoard (board st) ->
  legalMovesOf sq st = Some (legal, st') ->
  In mv legal ->
  st' = st /\ generatedBy st mv /\ leavesKingSafe st mv = true.
Proof.
  intros Hwf Hlegal Hin.
  assert (Side : legalMovesOf None st = Some (legal, st') ->
                 st' = st /\ generatedBy st mv /\ leavesKingSafe st mv = true).
  { rewrite (legalMovesOf_side st Hwf). intros [= <- <-].
    apply filter_In in Hin. destruct Hin as [Hin Hsafe].
    split; [done|]. split; [by apply sideMoves_generated | done]. }
  destruct sq as [s|]; [|by apply Side].
  destruct (truthy s) eqn:Ht.
  - destruct (_squareToCoords s) as [[[r|] c]|] eqn:Hco.
    + rewrite (legalMovesOf_square st s r c Hwf Hco) in Hlegal.
      injection Hlegal as <- <-.
      apply filter_In in Hin. destruct Hin as [Hin Hsafe].
      split; [done|]. split; [|done].
      exists r, c. split; [by eapply squareToCoords_inBounds | done].
    + unfold legalMovesOf, bind, getState in Hlegal.
      rewrite Ht, Hco in Hlegal. discriminate.
    + unfold legalMovesOf, bind, getState, ret in Hlegal.
      rewrite Ht, Hco in Hlegal. injection Hlegal as <- <-. destruct Hin.
  - apply Side. rewrite <- Hlegal.
    unfold legalMovesOf, bind, getState. by rewrite Ht.
Qed.

Lemma moves_listed_generated (st st' : SimpleChess) (opts : MovesOpts)
    (out : list MoveOut) (mv : Move) :
  wfBoard (board st) ->
  moves opts st = Some (out, st') ->
  In (Verbose mv) out ->
  generatedBy st mv /\ leavesKingSafe st mv = true.
Proof.
  intros Hwf Hmoves Hin. unfold moves, bind in Hmoves.
  destruct (legalMovesOf (square opts) st) as [[legal st1]|] eqn:Hlegal;
    [|discriminate].
  unfold ret in Hmoves. injection Hmoves as <- <-.
  apply in_rendered in Hin.
  by destruct (legalMovesOf_generated st st1 (square opts) legal mv Hwf Hlegal Hin)
    as (_ & ? & ?).
Qed.

Lemma generated_shape_at (st : SimpleChess) (r c : Z) (mv : Move) :
  _inBounds r c = true -> In mv (_generatePieceMoves st r c) ->
  exists rr cc p,
    _inBounds rr cc = true
    /\ (rr <> r \/ cc <> c)
    /\ mv_from mv = _coordsToSquare r c
    /\ mv_to mv = _coordsToSquare rr cc
    /\ cellAt (board st) r c = Some p
    /\ colorOfPiece p = turnColor st
    /\ mv_piece mv = toLowerCase p
    /\ mv_promotion mv = (if promotes p rr then Some "q"%char else None)
    /\ mv_captured mv = option_map toLowerCase (cellAt (board st) rr cc)
    /\ forall target,
         cellAt (board st) rr cc = Some target ->
         colorOfPiece target = opposite (turnColor st).
Proof.
  intros Hb Hin.
  destruct (generatePieceMoves_good st r c mv Hb Hin)
    as (p & rr & cc & Hcell & Hcol & Hbb & Hne & Hf & Ht & Hp & Hpr).
  destruct (generatePieceMoves_landsOn st r c mv Hin)
    as (p' & rr' & cc' & Hcell' & Hbb' & Ht' & Hcap & Henemy).
  rewrite Hcell in Hcell'. injection Hcell' as <-.
  rewrite Ht in Ht'.
  destruct (coordsToSquare_inj _ _ _ _ Hbb Hbb' Ht') as [<- <-].
  exists rr, cc, p. repeat (split; [done|]).
  intros target Htarget. specialize (Henemy target Htarget).
  rewrite <- Hcol. unfold colorOfPiece.
  by destruct (isWhitePiece target), (isWhitePiece p).
Qed.

Lemma generated_shape (st : SimpleChess) (mv : Move) :
  generatedBy st mv ->
  exists r c rr cc p,
    _inBounds r c = true /\ _inBounds rr cc = true
    /\ (rr <> r \/ cc <> c)
    /\ mv_from mv = _coordsToSquare r c
    /\ mv_to mv = _coordsToSquare rr cc
    /\ cellAt (board st) r c = Some p
    /\ colorOfPiece p = turnColor st
    /\ mv_piece mv = toLowerCase p
    /\ mv_promotion mv = (if promotes p rr then Some "q"%char else None)
    /\ mv_captured mv = option_map toLowerCase (cellAt (board st) rr cc)
    /\ forall target,
         cellAt (board st) rr cc = Some target ->
         colorOfPiece target = opposite (turnColor st).
Proof.
  intros (r & c & Hb & Hin).
  destruct (generated_shape_at st r c mv Hb Hin) as (rr & cc & p & H).
  exists r, c, rr, cc, p. by split.
Qed.

(** X2. In every reachable position, each move object that [moves] lists
    starts on a square holding a piece of the side to move and ends on a
    different square of the board that is empty or holds a piece of the other
    side; its [piece] field is that piece in lower case, its [captured] field
    is exactly the lower-cased piece standing on the destination (absent when
    the destination is empty), and it carries the promotion ["q"] exactly
    when a pawn reaches rank 0 or 7. *)
Theorem listed_moves_describe_the_board (st st' : SimpleChess)
    (opts : MovesOpts) (out : list MoveOut) (mv : Move) :
  reachable st ->
  moves opts st = Some (out, st') ->
  In (Verbose mv) out ->
  exists r c rr cc p,
    _inBounds r c = true /\ _inBounds rr cc = true
    /\ (rr <> r \/ cc <> c)
    /\ mv_from mv = _coordsToSquare r c
    /\ mv_to mv = _coordsToSquare rr cc
    /\ cellAt (board st) r c = Some p
    /\ colorOfPiece p = turnColor st
    /\ mv_piece mv = toLowerCase p
    /\ mv_promotion mv = (if promotes p rr then Some "q"%char else None)
    /\ mv_captured mv = option_map toLowerCase (cellAt (board st) rr cc)
    /\ forall target,
         cellAt (board st) rr cc = Some target ->
         colorOfPiece target = opposite (turnColor st).
Proof.
  intros Hreach Hmoves Hin.
  destruct (reachable_valid st Hreach) as [Hwf _].
  apply generated_shape.
  by destruct (moves_listed_generated st st' opts out mv Hwf Hmoves Hin).
Qed.

Lemma listed_moves_describe_the_board_witness :
  exists r c rr cc p,
    mv_from h7g8 = _coordsToSquare r c
    /\ mv_to h7g8 = _coordsToSquare rr cc
    /\ cellAt (board promotionPosition) r c = Some p
    /\ mv_captured h7g8
       = option_map toLowerCase (cellAt (board promotionPosition) rr cc).
Proof.
  pose (out := match moves (mkOpts true None) promotionPosition with
               | Some (o, _) => o
               | None => []
               end).
  assert (Hmoves : moves (mkOpts true None) promotionPosition
                   = Some (out, promotionPosition))
    by (vm_compute; reflexivity).
  assert (Hin : In (Verbose h7g8) out)
    by (vm_compute; repeat (first [left; reflexivity | right])).
  destruct (listed_moves_describe_the_board promotionPosition promotionPosition
              (mkOpts true None) out h7g8 promotionPosition_reachable Hmoves Hin)
    as (r & c & rr & cc & p & _ & _ & _ & Hf & Ht & Hcell & _ & _ & _ & Hcap & _).
  exists r, c, rr, cc, p. exact (conj Hf (conj Ht (conj Hcell Hcap))).
Defined.

(** ** What a call of [move] does to the engine *)

Lemma cellAt_movedBoard (bd : Board) (r c rr cc : Z) (p : ascii) (r' c' : Z) :
  wfBoard bd ->
  _inBounds r c = true -> _inBounds rr cc = true -> (rr <> r \/ cc <> c) ->
  _inBounds r' c' = true ->
  cellAt (movedBoard bd r c rr cc p) r' c' =
  if decide (r' = rr /\ c' = cc)
  then Some (if promotes p rr then (if isWhitePiece p then "Q" else "q")%char else p)
  else if decide (r' = r /\ c' = c) then None
  else cellAt bd r' c'.
Proof.
  intros Hwf Hb Hbb Hne Hb'.
  destruct (decide (r' = rr /\ c' = cc)) as [[-> ->]|Hn1].
  { by apply cellAt_movedBoard_dest. }
  assert (Hb2 : cellAt (setCell (setCell bd rr cc (Some p)) r c None) r' c'
                = if decide (r' = r /\ c' = c) then None else cellAt bd r' c').
  { rewrite cellAt_setCell by (try apply wfBoard_setCell; done).
    destruct (decide (r = r' /\ c = c')) as [[-> ->]|Hn2].
    - by rewrite decide_True.
    - rewrite decide_False by (intros [-> ->]; tauto).
      rewrite cellAt_setCell by done.
      by rewrite decide_False by (intros [-> ->]; tauto). }
  unfold movedBoard. destruct (promotes p rr); [|exact Hb2].
  rewrite cellAt_setCell by (repeat apply wfBoard_setCell; done).
  rewrite decide_False by (intros [-> ->]; tauto). exact Hb2.
Qed.

Lemma move_total (st : SimpleChess) (a : MoveArg) :
  wfBoard (board st) ->
  move a st = Some (None, st)
  \/ exists lm st', move a st = Some (Some lm, st').
Proof.
  intros Hwf.
  assert (E : move a st =
              match List.find (matchesRequest (requestOfArg a))
                              (List.filter (leavesKingSafe st) (sideMoves st)) with
              | Some lm => match _makeMove lm st with
                           | Some (_, st1) => Some (Some lm, st1)
                           | None => None
                           end
              | None => Some (None, st)
              end).
  { unfold move, bind at 1. rewrite (legalMovesOf_side st Hwf).
    by destruct (List.find _ _). }
  rewrite E. clear E.
  destruct (List.find _ _) as [lm|] eqn:Hfind; [|by left].
  right. apply List.find_some in Hfind. destruct Hfind as [Hin _].
  apply filter_In in Hin. destruct Hin as [_ Hsafe].
  unfold leavesKingSafe in Hsafe.
  destruct (_makeMove lm st) as [[[] st1]|]; [|discriminate].
  by exists lm, st1.
Qed.

(** X3. In a reachable position [move] never raises: either it answers
    [null] and leaves the engine exactly as it was, or it answers a move that
    fits the request and was generated for a piece of the side to move; then
    the side to move flips, the history grows by exactly this move, the
    origin square is emptied, the destination holds the moved piece (a queen
    of the mover's colour after a promotion), and every other square keeps
    its content. *)
Theorem move_is_all_or_nothing (st : SimpleChess) (a : MoveArg) :
  reachable st ->
  move a st = Some (None, st)
  \/ exists lm st' r c rr cc p,
       move a st = Some (Some lm, st')
       /\ matchesRequest (requestOfArg a) lm = true
       /\ _inBounds r c = true /\ _inBounds rr cc = true
       /\ mv_from lm = _coordsToSquare r c
       /\ mv_to lm = _coordsToSquare rr cc
       /\ cellAt (board st) r c = Some p
       /\ colorOfPiece p = turnColor st
       /\ turnColor st' = opposite (turnColor st)
       /\ history true st' = history true st ++ [Verbose lm]
       /\ history false st' = history false st ++ [Text (moveText lm)]
       /\ wfBoard (board st')
       /\ forall r' c',
            _inBounds r' c' = true ->
            cellAt (board st') r' c' =
            if decide (r' = rr /\ c' = cc)
            then Some (if promotes p rr then queenOf (turnColor st) else p)
            else if decide (r' = r /\ c' = c) then None
            else cellAt (board st) r' c'.
Proof.
  intros Hreach. destruct (reachable_valid st Hreach) as [Hwf _].
  destruct (move_total st a Hwf) as [Hnull|(lm & st' & Hmove)]; [by left|].
  right.
  destruct (move_inversion st st' a lm Hwf Hmove) as (Hin & _ & Hmatch & Hmk).
  destruct (sideMoves_candidates st lm Hin) as (r & c & Hb & Hgood).
  pose proof Hgood as (p0 & rr0 & cc0 & _ & _ & _ & _ & Hf & _).
  destruct (makeMove_good st r c lm Hb Hgood)
    as (p & rr & cc & Hcell & Hcol & Hbb & Hne & Ht & Hpr & Hmk').
  rewrite Hmk' in Hmk. injection Hmk as <-.
  eexists lm, _, r, c, rr, cc, p.
  split; [exact Hmove|]. repeat (split; [done|]).
  split; [unfold history; cbn [_history]; by rewrite map_app|].
  split; [unfold history; cbn [_history]; by rewrite map_app|].
  cbn [board]. split.
  { unfold movedBoard. destruct (promotes p rr); by repeat apply wfBoard_setCell. }
  intros r' c' Hb'. rewrite cellAt_movedBoard by done.
  replace (if isWhitePiece p then "Q"%char else "q"%char)
    with (queenOf (turnColor st)); [reflexivity|].
  rewrite <- Hcol. unfold colorOfPiece. by destruct (isWhitePiece p).
Qed.

Lemma move_is_all_or_nothing_witness :
  move (ArgText "e2e5") reset = Some (None, reset)
  /\ exists lm st', move (ArgText "e2e4") reset = Some (Some lm, st')
                    /\ turnColor st' = B.
Proof.
  split.
  - destruct (move_is_all_or_nothing reset (ArgText "e2e5") reachable_reset)
      as [H|(lm & st' & r & c & rr & cc & p & H & _)]; [exact H|].
    vm_compute in H. discriminate.
  - destruct (move_is_all_or_nothing reset (ArgText "e2e4") reachable_reset)
      as [H|(lm & st' & r & c & rr & cc & p & H & _ & _ & _ & _ & _ & _ & _ & Ht & _)].
    + vm_compute in H. discriminate.
    + exists lm, st'. split; [exact H | exact Ht].
Defined.

(** ** Undoing a whole game *)

Lemma move_then_undo (st st' : SimpleChess) (a : MoveArg) (lm : Move) :
  wfBoard (board st) ->
  move a st = Some (Some lm, st') ->
  undo st' = Some (Some lm, st)
  /\ length (_history st') = S (length (_history st)).
Proof.
  intros Hwf Hmove.
  destruct (move_inversion st st' a lm Hwf Hmove) as (Hin & _ & _ & Hmk).
  destruct (sideMoves_candidates st lm Hin) as (r & c & Hb & Hgood).
  destruct (makeMove_undo st r c lm Hwf Hb Hgood) as (st1 & Hmk1 & _ & Hun).
  rewrite Hmk1 in Hmk. injection Hmk as <-. split; [exact Hun|].
  destruct (makeMove_good st r c lm Hb Hgood) as (? & ? & ? & _ & _ & _ & _ & _ & _ & Hmk2).
  rewrite Hmk2 in Hmk1. injection Hmk1 as <-. cbn [_history].
  rewrite length_app. simpl. lia.
Qed.

(** X4. [undo] takes back exactly the moves that were made: in a position
    reached by play the history holds one entry per move made, a call of
    [undo] after an accepted [move] answers that move and restores the
    position before it, as many calls of [undo] as the history is long lead
    back to the initial position with an empty history, and one more call
    answers [null] and changes nothing. *)
Theorem undo_unwinds_the_game (st : SimpleChess) :
  reachable st ->
  (forall a lm st',
      move a st = Some (Some lm, st') -> undo st' = Some (Some lm, st))
  /\ undoTimes (length (_history st)) st = Some (tt, reset)
  /\ undo reset = Some (None, reset).
Proof.
  intros Hreach. split; [|split; [|reflexivity]].
  - intros a lm st' Hmove.
    by destruct (move_then_undo st st' a lm
                   (proj1 (reachable_valid st Hreach)) Hmove).
  - induction Hreach as [|st st' a lm Hreach IH Hmove]; [reflexivity|].
    destruct (move_then_undo st st' a lm
                (proj1 (reachable_valid st Hreach)) Hmove) as [Hun ->].
    cbn [undoTimes]. unfold bind at 1. rewrite Hun. exact IH.
Qed.

Lemma undo_unwinds_the_game_witness :
  undoTimes (length (_history promotionPosition)) promotionPosition
  = Some (tt, reset).
Proof.
  exact (proj1 (proj2 (undo_unwinds_the_game promotionPosition
                         promotionPosition_reachable))).
Defined.

(** ** Checkmate, stalemate and the end of the game *)

(** X5. In a reachable position the three end-of-game queries never raise
    and leave the engine untouched; with [legal] the list that [moves]
    answers, [in_checkmate] holds exactly when the side to move is in check
    and [legal] is empty, [in_stalemate] (and [in_draw]) exactly when it is
    not in check and [legal] is empty, so the two never hold together, and
    [game_over] holds exactly when [legal] is empty. *)
Theorem checkmate_and_stalemate_exclusive (st : SimpleChess) :
  reachable st ->
  exists legal,
    (forall v, moves (mkOpts v None) st = Some (map (renderMove v) legal, st))
    /\ in_checkmate st = Some (in_check st && (length legal =? 0)%nat, st)
    /\ in_stalemate st = Some (negb (in_check st) && (length legal =? 0)%nat, st)
    /\ in_draw st = in_stalemate st
    /\ game_over st = Some ((length legal =? 0)%nat, st)
    /\ ~ (in_checkmate st = Some (true, st) /\ in_stalemate st = Some (true, st)).
Proof.
  intros Hreach. destruct (reachable_valid st Hreach) as [Hwf _].
  exists (List.filter (leavesKingSafe st) (sideMoves st)).
  set (legal := List.filter (leavesKingSafe st) (sideMoves st)).
  assert (Hmoves : forall v, moves (mkOpts v None) st
                             = Some (map (renderMove v) legal, st)).
  { intros v. unfold moves, bind. cbn [square verbose].
    by rewrite legalMovesOf_side. }
  assert (Hmate : in_checkmate st
                  = Some (in_check st && (length legal =? 0)%nat, st)).
  { unfold in_checkmate, bind at 1, getState, in_check.
    destruct (_currentInCheck st); [|reflexivity].
    cbn [negb]. unfold bind, ret. rewrite Hmoves. by rewrite length_map. }
  assert (Hstale : in_stalemate st
                   = Some (negb (in_check st) && (length legal =? 0)%nat, st)).
  { unfold in_stalemate, bind at 1, getState, in_check.
    destruct (_currentInCheck st); [reflexivity|].
    cbn [negb]. unfold bind, ret. rewrite Hmoves. by rewrite length_map. }
  repeat (split; [done|]). split.
  - unfold game_over, bind. rewrite Hmate.
    destruct (in_check st); cbn [andb].
    + destruct (length legal =? 0)%nat; [reflexivity|].
      by rewrite Hstale.
    + by rewrite Hstale.
  - rewrite Hmate, Hstale. intros [[= H1] [= H2]].
    destruct (in_check st); discriminate.
Qed.

Lemma foolsMate_reachable : reachable foolsMate.
Proof.
  apply (playText_reachable ["f2f3"; "e7e5"; "g2g4"; "d8h4"]%string reset);
    [apply reachable_reset|].
  vm_compute. reflexivity.
Qed.

Lemma checkmate_and_stalemate_exclusive_witness :
  in_checkmate foolsMate = Some (true, foolsMate)
  /\ in_stalemate foolsMate <> Some (true, foolsMate).
Proof.
  destruct (checkmate_and_stalemate_exclusive foolsMate foolsMate_reachable)
    as (legal & _ & _ & _ & _ & _ & Hex).
  assert (Hmate : in_checkmate foolsMate = Some (true, foolsMate))
    by (vm_compute; reflexivity).
  split; [exact Hmate|]. intros Hstale. apply Hex. exact (conj Hmate Hstale).
Defined.

(** ** The side that has just moved is never in check *)

(** X6. In every position reached by play the side that is not to move (the
    one that has just moved) is not in check. *)
Theorem side_not_to_move_is_not_in_check (st : SimpleChess) :
  reachable st -> _isInCheck st (opposite (turnColor st)) = false.
Proof.
  induction 1 as [|st st' a lm Hreach IH Hmove]; [by vm_compute|].
  destruct (reachable_valid st Hreach) as [Hwf _].
  destruct (move_inversion st st' a lm Hwf Hmove) as (Hin & Hsafe & _ & Hmk).
  destruct (sideMoves_candidates st lm Hin) as (r & c & Hb & Hgood).
  destruct (makeMove_undo st r c lm Hwf Hb Hgood) as (st1 & Hmk1 & Hturn & _).
  rewrite Hmk1 in Hmk. injection Hmk as <-.
  unfold leavesKingSafe in Hsafe. rewrite Hmk1 in Hsafe.
  rewrite Hturn. apply negb_true_iff in Hsafe.
  by destruct (turnColor st).
Qed.

Lemma side_not_to_move_is_not_in_check_witness :
  _isInCheck foolsMate (opposite (turnColor foolsMate)) = false.
Proof.
  exact (side_not_to_move_is_not_in_check foolsMate foolsMate_reachable).
Defined.

(** ** [get] and [boardState] agree *)

(** X7. On a board of eight ranks of eight files whose occupied cells hold
    piece letters, [get] on the text of a square inside the board never
    raises, leaves the engine untouched, and answers the very entry that
    [boardState] holds at that rank and file: [null] for an empty square,
    otherwise the lower-cased piece letter with the colour white exactly
    for an upper-case letter. *)
Theorem get_agrees_with_boardState (st : SimpleChess) (r c : Z) :
  validState st -> _inBounds r c = true ->
  exists info,
    get (_coordsToSquare r c) st = Some (info, st)
    /\ boardState st !! Z.to_nat r ≫= (fun row => row !! Z.to_nat c) = Some info
    /\ info = option_map pieceInfo (cellAt (board st) r c).
Proof.
  intros [Hwf _] Hb. exists (option_map pieceInfo (cellAt (board st) r c)).
  split; [|split; [|reflexivity]].
  - unfold get, bind, getState. rewrite squareToCoords_coordsToSquare by done.
    by destruct (cellAt (board st) r c).
  - apply inBounds_iff in Hb. destruct Hb as [Hr Hc].
    destruct (wfBoard_row (board st) r Hwf Hr) as (row & Hrow & Hlen).
    unfold boardState, cellAt. rewrite list_lookup_fmap, Hrow. cbn.
    rewrite list_lookup_fmap.
    destruct (lookup_lt_is_Some_2 row (Z.to_nat c)) as [x Hx]; [lia|].
    by rewrite Hx.
Qed.

Lemma get_agrees_with_boardState_witness :
  get "e1" reset = Some (Some (mkPieceInfo "k" W), reset).
Proof.
  destruct (get_agrees_with_boardState reset 7 4) as (info & Hget & _ & ->).
  - apply validState_reset.
  - reflexivity.
  - exact Hget.
Defined.

(** ** Kings are never captured *)

Lemma isKingOf_kingAt (bd : Board) (col : Color) (r c : Z) :
  isKingOf (Color_eqb col W) (cellAt bd r c) = true <-> kingAt bd col r c.
Proof.
  unfold isKingOf, kingAt. destruct (cellAt bd r c) as [p|]; split.
  - intros H. apply andb_true_iff in H. destruct H as [Hk Hc].
    exists p. split; [done|]. split; [by apply Ascii.eqb_eq|].
    apply Bool.eqb_prop in Hc. unfold colorOfPiece. rewrite <- Hc.
    by destruct col.
  - intros (q & [= <-] & Hk & Hc). apply andb_true_iff. split.
    + by apply Ascii.eqb_eq.
    + rewrite <- Hc. unfold colorOfPiece. by destruct (isWhitePiece p).
  - discriminate.
  - by intros (q & ? & _).
Qed.

Lemma findKing_unique (bd : Board) (col : Color) (kr kc : Z) :
  _inBounds kr kc = true -> kingAt bd col kr kc ->
  (forall r c, _inBounds r c = true -> kingAt bd col r c -> r = kr /\ c = kc) ->
  findKing bd (Color_eqb col W) = Some (kr, kc).
Proof.
  intros Hb Hk Huniq. unfold findKing.
  destruct (find_some_exists
              (fun rc : Z * Z => isKingOf (Color_eqb col W) (cellAt bd rc.1 rc.2))
              allSquares (kr, kc)) as [[r c] Hfind].
  - by apply inBounds_allSquares.
  - by apply isKingOf_kingAt.
  - rewrite Hfind. apply List.find_some in Hfind. destruct Hfind as [Hin Hking].
    apply allSquares_inBounds in Hin. cbn [fst snd] in *.
    apply isKingOf_kingAt in Hking.
    by destruct (Huniq r c Hin Hking) as [-> ->].
Qed.

Lemma generatePieceMoves_withTurn (st : SimpleChess) (r c : Z) :
  _generatePieceMoves (withTurn st (turnColor st)) r c
  = _generatePieceMoves st r c.
Proof. reflexivity. Qed.

(** A generated move that lands on the king of the side not to move means
    that this side is in check. *)
Lemma landing_on_king_is_check (st : SimpleChess) (mv : Move) (kr kc : Z) :
  generatedBy st mv ->
  uniqueKing (board st) (opposite (turnColor st)) ->
  kingAt (board st) (opposite (turnColor st)) kr kc ->
  _inBounds kr kc = true ->
  mv_to mv = _coordsToSquare kr kc ->
  _isInCheck st (opposite (turnColor st)) = true.
Proof.
  intros (r & c & Hb & Hin) (kr0 & kc0 & Hb0 & Hk0 & Huniq) Hk Hkb Hto.
  destruct (Huniq kr kc Hkb Hk) as [-> ->].
  unfold _isInCheck.
  rewrite (findKing_unique _ _ kr0 kc0 Hb0 Hk0 Huniq).
  apply existsb_exists. exists (r, c).
  split; [by apply inBounds_allSquares|].
  unfold attacksFrom. cbn [fst snd].
  destruct (generatePieceMoves_good st r c mv Hb Hin)
    as (p & _ & _ & Hcell & Hcol & _).
  rewrite Hcell.
  assert (Hp : (if isWhitePiece p then W else B) = turnColor st) by exact Hcol.
  replace (Bool.eqb (isWhitePiece p) (Color_eqb (opposite (turnColor st)) W))
    with false
    by (rewrite <- Hp; by destruct (isWhitePiece p)).
  rewrite Hp, generatePieceMoves_withTurn.
  apply existsb_exists. exists mv. split; [exact Hin|].
  unfold hitsSquare. rewrite Hto, squareToCoords_coordsToSquare by done.
  by rewrite !Z.eqb_refl.
Qed.

Lemma kingAt_color (bd : Board) (col : Color) (r c : Z) (p : ascii) :
  cellAt bd r c = Some p -> kingAt bd col r c ->
  toLowerCase p = "k"%char /\ colorOfPiece p = col.
Proof. intros Hcell (q & Hq & Hk & Hc). rewrite Hcell in Hq. by injection Hq as <-. Qed.

Lemma queen_not_king (b : bool) :
  toLowerCase (if b then "Q" else "q")%char <> "k"%char.
Proof. by destruct b. Qed.

Lemma isPawn_not_king (p : ascii) :
  toLowerCase p = "k"%char -> isPawn p = false.
Proof. unfold isPawn. by intros ->. Qed.

(** The effect of an accepted [move] on the board, square by square. *)
Lemma move_effect (st st' : SimpleChess) (a : MoveArg) (lm : Move) :
  wfBoard (board st) ->
  move a st = Some (Some lm, st') ->
  exists r c rr cc p,
    _inBounds r c = true /\ In lm (_generatePieceMoves st r c)
    /\ _inBounds rr cc = true /\ (rr <> r \/ cc <> c)
    /\ mv_to lm = _coordsToSquare rr cc
    /\ cellAt (board st) r c = Some p
    /\ colorOfPiece p = turnColor st
    /\ (forall target, cellAt (board st) rr cc = Some target ->
                       colorOfPiece target = opposite (turnColor st))
    /\ turnColor st' = opposite (turnColor st)
    /\ wfBoard (board st')
    /\ forall r' c',
         _inBounds r' c' = true ->
         cellAt (board st') r' c' =
         if decide (r' = rr /\ c' = cc)
         then Some (if promotes p rr
                    then (if isWhitePiece p then "Q" else "q")%char else p)
         else if decide (r' = r /\ c' = c) then None
         else cellAt (board st) r' c'.
Proof.
  intros Hwf Hmove.
  destruct (move_inversion st st' a lm Hwf Hmove) as (Hin & _ & _ & Hmk).
  destruct (sideMoves_generated st lm Hin) as (r & c & Hb & Hgen).
  destruct (generated_shape_at st r c lm Hb Hgen)
    as (rr & cc & p & Hbb & Hne & Hf & Ht & Hcell & Hcol & _ & _ & _ & Henemy).
  destruct (makeMove_good st r c lm Hb (generatePieceMoves_good st r c lm Hb Hgen))
    as (p1 & rr1 & cc1 & Hcell1 & _ & Hbb1 & _ & Ht1 & _ & Hmk1).
  rewrite Hcell in Hcell1. injection Hcell1 as <-.
  rewrite Ht in Ht1.
  destruct (coordsToSquare_inj _ _ _ _ Hbb Hbb1 Ht1) as [<- <-].
  rewrite Hmk1 in Hmk. injection Hmk as <-. cbn [board turnColor].
  exists r, c, rr, cc, p. repeat (split; [done|]). split.
  { unfold movedBoard. destruct (promotes p rr); by repeat apply wfBoard_setCell. }
  intros r' c' Hb'. by apply cellAt_movedBoard.
Qed.

Lemma move_keeps_kings (st st' : SimpleChess) (a : MoveArg) (lm : Move) :
  wfBoard (board st) ->
  _isInCheck st (opposite (turnColor st)) = false ->
  uniqueKing (board st) W -> uniqueKing (board st) B ->
  move a st = Some (Some lm, st') ->
  uniqueKing (board st') W /\ uniqueKing (board st') B.
Proof.
  intros Hwf Hsafe HW HB Hmove.
  destruct (move_effect st st' a lm Hwf Hmove)
    as (r & c & rr & cc & p & Hb & Hgen & Hbb & Hne & Hto & Hcell & Hcol
        & Henemy & _ & _ & Hcells).
  set (placed := if promotes p rr
                 then (if isWhitePiece p then "Q" else "q")%char else p) in *.
  assert (Hplaced_col : colorOfPiece placed = turnColor st).
  { unfold placed. destruct (promotes p rr); [|exact Hcol].
    rewrite <- Hcol. unfold colorOfPiece. by destruct (isWhitePiece p). }
  assert (Hplaced_king : toLowerCase placed = "k"%char -> toLowerCase p = "k"%char).
  { unfold placed. destruct (promotes p rr); [|done].
    intros H. by apply queen_not_king in H. }
  assert (Hking_placed : toLowerCase p = "k"%char -> placed = p).
  { intros H. unfold placed, promotes. by rewrite (isPawn_not_king p H). }
  (* the side that moves *)
  assert (Mover : uniqueKing (board st) (turnColor st) ->
                  uniqueKing (board st') (turnColor st)).
  { intros (kr & kc & Hkb & Hk & Huniq).
    destruct (decide (toLowerCase p = "k"%char)) as [Hpk|Hpk].
    - (* the king itself moves *)
      assert (Hfrom : r = kr /\ c = kc).
      { apply Huniq; [done|]. by exists p. }
      destruct Hfrom as [-> ->].
      exists rr, cc. split; [done|]. split.
      + exists placed. rewrite Hcells, decide_True by done.
        split; [done|]. split; [|done]. by rewrite (Hking_placed Hpk).
      + intros r' c' Hb' (q & Hq & Hqk & Hqc).
        rewrite Hcells in Hq by done.
        destruct (decide (r' = rr /\ c' = cc)) as [|Hn1]; [done|].
        destruct (decide (r' = kr /\ c' = kc)) as [|Hn2]; [discriminate|].
        exfalso. apply Hn2. apply Huniq; [done|]. by exists q.
    - (* another piece moves: the king stays where it is *)
      assert (Hnot_from : ~ (kr = r /\ kc = c)).
      { intros [-> ->]. by destruct (kingAt_color _ _ _ _ p Hcell Hk). }
      assert (Hnot_to : ~ (kr = rr /\ kc = cc)).
      { intros [-> ->]. destruct Hk as (q & Hq & _ & Hqc).
        specialize (Henemy q Hq). rewrite Hqc in Henemy.
        by destruct (turnColor st). }
      exists kr, kc. split; [done|]. split.
      + destruct Hk as (q & Hq & Hqk & Hqc). exists q.
        by rewrite Hcells, !decide_False.
      + intros r' c' Hb' (q & Hq & Hqk & Hqc).
        rewrite Hcells in Hq by done.
        destruct (decide (r' = rr /\ c' = cc)) as [|Hn1].
        { injection Hq as <-. by apply Hplaced_king in Hqk. }
        destruct (decide (r' = r /\ c' = c)) as [|Hn2]; [discriminate|].
        apply Huniq; [done|]. by exists q. }
  (* the side that does not move *)
  assert (Other : uniqueKing (board st) (opposite (turnColor st)) ->
                  uniqueKing (board st') (opposite (turnColor st))).
  { intros Hu. pose proof Hu as (kr & kc & Hkb & Hk & Huniq).
    assert (Hnot_from : ~ (kr = r /\ kc = c)).
    { intros [-> ->]. destruct (kingAt_color _ _ _ _ p Hcell Hk) as [_ Hc].
      rewrite Hcol in Hc. by destruct (turnColor st). }
    assert (Hnot_to : ~ (kr = rr /\ kc = cc)).
    { intros [-> ->].
      assert (Hcheck : _isInCheck st (opposite (turnColor st)) = true).
      { apply (landing_on_king_is_check st lm rr cc); try done.
        by exists r, c. }
      congruence. }
    exists kr, kc. split; [done|]. split.
    - destruct Hk as (q & Hq & Hqk & Hqc). exists q.
      by rewrite Hcells, !decide_False.
    - intros r' c' Hb' (q & Hq & Hqk & Hqc).
      rewrite Hcells in Hq by done.
      destruct (decide (r' = rr /\ c' = cc)) as [|Hn1].
      { injection Hq as <-. rewrite Hplaced_col in Hqc.
        by destruct (turnColor st). }
      destruct (decide (r' = r /\ c' = c)) as [|Hn2]; [discriminate|].
      apply Huniq; [done|]. by exists q. }
  destruct (turnColor st); cbn [opposite] in *; split; auto.
Qed.

Lemma uniqueKing_reset : uniqueKing (board reset) W /\ uniqueKing (board reset) B.
Proof.
  assert (F : forall col kr kc,
    forallb (fun rc : Z * Z =>
               implb (isKingOf (Color_eqb col W) (cellAt (board reset) rc.1 rc.2))
                     ((rc.1 =? kr) && (rc.2 =? kc))) allSquares = true ->
    isKingOf (Color_eqb col W) (cellAt (board reset) kr kc) = true ->
    _inBounds kr kc = true ->
    uniqueKing (board reset) col).
  { intros col kr kc Hall Hk Hb. exists kr, kc. split; [done|].
    split; [by apply isKingOf_kingAt|].
    intros r c Hrc Hking. apply isKingOf_kingAt in Hking.
    pose proof (on_all_squares _ Hall r c Hrc) as H. cbn [fst snd] in H.
    rewrite Hking in H. cbn [implb] in H.
    apply andb_true_iff in H. lia. }
  split; [apply (F W 7 4) | apply (F B 0 4)]; reflexivity.
Qed.

Lemma reachable_kings (st : SimpleChess) :
  reachable st ->
  _isInCheck st (opposite (turnColor st)) = false
  /\ uniqueKing (board st) W /\ uniqueKing (board st) B.
Proof.
  induction 1 as [|st st' a lm Hreach (Hsafe & HW & HB) Hmove].
  - split; [by vm_compute | apply uniqueKing_reset].
  - destruct (reachable_valid st Hreach) as [Hwf _]. split.
    + destruct (move_inversion st st' a lm Hwf Hmove) as (Hin & Hs & _ & Hmk).
      destruct (sideMoves_candidates st lm Hin) as (r & c & Hb & Hgood).
      destruct (makeMove_undo st r c lm Hwf Hb Hgood) as (st1 & Hmk1 & Hturn & _).
      rewrite Hmk1 in Hmk. injection Hmk as <-.
      unfold leavesKingSafe in Hs. rewrite Hmk1 in Hs.
      rewrite Hturn. apply negb_true_iff in Hs. by destruct (turnColor st).
    + by apply (move_keeps_kings st st' a lm).
Qed.

(** X8. In every position reached by play each side has exactly one king on
    the board, and no move that [moves] lists captures a king: its
    destination is never the square of a king and its [captured] field is
    never ["k"]. *)
Theorem kings_are_never_captured (st : SimpleChess) :
  reachable st ->
  uniqueKing (board st) W /\ uniqueKing (board st) B
  /\ forall opts out st' mv,
       moves opts st = Some (out, st') ->
       In (Verbose mv) out ->
       mv_captured mv <> Some "k"%char
       /\ forall col kr kc,
            _inBounds kr kc = true -> kingAt (board st) col kr kc ->
            mv_to mv <> _coordsToSquare kr kc.
Proof.
  intros Hreach.
  destruct (reachable_kings st Hreach) as (Hsafe & HW & HB).
  destruct (reachable_valid st Hreach) as [Hwf _].
  split; [exact HW|]. split; [exact HB|].
  intros opts out st' mv Hmoves Hin.
  destruct (moves_listed_generated st st' opts out mv Hwf Hmoves Hin) as [Hgen _].
  pose proof Hgen as (r & c & Hb & Hg).
  destruct (generated_shape_at st r c mv Hb Hg)
    as (rr & cc & p & Hbb & _ & _ & Hto & Hcell & Hcol & _ & _ & Hcap & Henemy).
  assert (Hnoking : forall col kr kc,
            _inBounds kr kc = true -> kingAt (board st) col kr kc ->
            mv_to mv <> _coordsToSquare kr kc).
  { intros col kr kc Hkb Hk Hsame.
    rewrite Hto in Hsame.
    destruct (coordsToSquare_inj _ _ _ _ Hbb Hkb Hsame) as [-> ->].
    destruct Hk as (q & Hq & Hqk & Hqc).
    pose proof (Henemy q Hq) as Hopp. rewrite Hqc in Hopp. subst col.
    assert (Hcheck : _isInCheck st (opposite (turnColor st)) = true).
    { apply (landing_on_king_is_check st mv kr kc); try done.
      - by destruct (turnColor st).
      - by exists q. }
    congruence. }
  split; [|exact Hnoking].
  intros Hk. rewrite Hcap in Hk.
  destruct (cellAt (board st) rr cc) as [q|] eqn:Hq; [|discriminate].
  injection Hk as Hk.
  apply (Hnoking (colorOfPiece q) rr cc Hbb); [|exact Hto].
  by exists q.
Qed.

Lemma kings_are_never_captured_witness :
  uniqueKing (board foolsMate) W /\ uniqueKing (board foolsMate) B.
Proof.
  destruct (kings_are_never_captured foolsMate foolsMate_reachable)
    as (HW & HB & _).
  by split.
Defined.

(** ** The ray loop ends *)

(** X9. The loop of a sliding piece along a ray ends within eight
    iterations: started on the square next to a square of the board in one
    of the eight directions, it yields the same moves under every iteration
    bound of at least eight as under the bound of eight that the generator
    uses. *)
Theorem slide_loop_ends_within_eight (bd : Board) (fromSquare : string)
    (piece : ascii) (r c : Z) (d : Z * Z) (n : nat) :
  _inBounds r c = true -> In d queenDirs -> (8 <= n)%nat ->
  slideMoves bd fromSquare piece n (r + d.1) (c + d.2) d.1 d.2
  = slideMoves bd fromSquare piece slideFuel (r + d.1) (c + d.2) d.1 d.2.
Proof.
  intros Hb Hd Hn. apply inBounds_iff in Hb.
  assert (Hdir : (d.1 = -1 \/ d.1 = 0 \/ d.1 = 1)
                 /\ (d.2 = -1 \/ d.2 = 0 \/ d.2 = 1)
                 /\ (d.1 <> 0 \/ d.2 <> 0)).
  { simpl in Hd.
    repeat (destruct Hd as [<-|Hd]; [cbn [fst snd]; lia|]). destruct Hd. }
  destruct Hdir as (H1 & H2 & H3).
  apply slideMoves_fuel; try done; unfold slideFuel;
    destruct (d.1 =? 1) eqn:E1; try lia;
    destruct (d.1 =? -1) eqn:E2; try lia;
    destruct (d.2 =? 1) eqn:E3; lia.
Qed.

Lemma slide_loop_ends_within_eight_witness :
  slideMoves initialBoard "a1" "R" 50 6 0 (-1) 0
  = slideMoves initialBoard "a1" "R" slideFuel 6 0 (-1) 0.
Proof.
  apply (slide_loop_ends_within_eight initialBoard "a1" "R" 7 0 (-1, 0) 50).
  - reflexivity.
  - simpl. tauto.
  - lia.
Defined.

(** ** Maps in insertion order *)

Lemma mapGet_mapSet_eq {V : Type} (m : list (string * V)) (k : string) (v : V) :
  mapGet (mapSet k v m) k = Some v.
Proof.
  induction m as [|[k' v'] rest IH]; simpl.
  - by rewrite String.eqb_refl.
  - destruct (String.eqb k' k) eqn:E; simpl.
    + by rewrite String.eqb_refl.
    + by rewrite E.
Qed.

Lemma mapGet_mapSet_ne {V : Type} (m : list (string * V)) (k k' : string) (v : V) :
  k <> k' -> mapGet (mapSet k v m) k' = mapGet m k'.
Proof.
  intros Hne. induction m as [|[k0 v0] rest IH]; simpl.
  - by replace (String.eqb k k') with false
      by (symmetry; by apply String.eqb_neq).
  - destruct (String.eqb k0 k) eqn:E; simpl.
    + apply String.eqb_eq in E. subst k0.
      by replace (String.eqb k k') with false
        by (symmetry; by apply String.eqb_neq).
    + by rewrite IH.
Qed.

Lemma mapSet_same {V : Type} (m : list (string * V)) (k : string) (v : V) :
  mapGet m k = Some v -> mapSet k v m = m.
Proof.
  induction m as [|[k' v'] rest IH]; simpl; [discriminate|].
  destruct (String.eqb k' k) eqn:E.
  - apply String.eqb_eq in E. subst k'. by intros [= ->].
  - intros H. by rewrite IH.
Qed.

Lemma mapGet_In {V : Type} (m : list (string * V)) (k : string) (v : V) :
  mapGet m k = Some v -> In (k, v) m.
Proof.
  induction m as [|[k' v'] rest IH]; simpl; [discriminate|].
  destruct (String.eqb k' k) eqn:E.
  - apply String.eqb_eq in E. subst k'. intros [= ->]. by left.
  - intros H. right. by apply IH.
Qed.

Lemma mapGet_Forall {V : Type} (P : string * V -> Prop) (m : list (string * V))
    (k : string) (v : V) :
  Forall P m -> mapGet m k = Some v -> P (k, v).
Proof.
  intros Hall Hget. rewrite Forall_forall in Hall. apply Hall.
  apply list_elem_of_In. by apply mapGet_In.
Qed.

Lemma Forall_mapSet {V : Type} (P : string * V -> Prop) (m : list (string * V))
    (k : string) (v : V) :
  P (k, v) -> Forall P m -> Forall P (mapSet k v m).
Proof.
  intros Hnew. induction m as [|[k' v'] rest IH]; simpl; intros Hall.
  - by constructor.
  - apply Forall_cons in Hall. destruct Hall as [Hhd Htl].
    destruct (String.eqb k' k); constructor; auto.
Qed.

Lemma keys_mapSet {V : Type} (m : list (string * V)) (k : string) (v : V) :
  map fst (mapSet k v m) = map fst m
  \/ ((k ∉ map fst m) /\ map fst (mapSet k v m) = map fst m ++ [k]).
Proof.
  induction m as [|[k' v'] rest IH]; simpl.
  - right. split; [apply not_elem_of_nil | reflexivity].
  - destruct (String.eqb k' k) eqn:E; simpl.
    + apply String.eqb_eq in E. subst k'. by left.
    + apply String.eqb_neq in E. destruct IH as [IH|[Hfresh IH]].
      * left. by rewrite IH.
      * right. split; [|by rewrite IH].
        rewrite not_elem_of_cons. split; [congruence | exact Hfresh].
Qed.

Lemma NoDup_mapSet {V : Type} (m : list (string * V)) (k : string) (v : V) :
  NoDup (map fst m) -> NoDup (map fst (mapSet k v m)).
Proof.
  intros Hnd. destruct (keys_mapSet m k v) as [->|[Hfresh ->]]; [exact Hnd|].
  apply NoDup_app. split; [exact Hnd|]. split.
  - intros x Hx Hk. apply list_elem_of_singleton in Hk. by subst x.
  - apply NoDup_singleton.
Qed.

Lemma mapGet_mapDelete_eq {V : Type} (m : list (string * V)) (k : string) :
  mapGet (mapDelete k m) k = None.
Proof.
  induction m as [|[k' v'] rest IH]; simpl; [reflexivity|].
  destruct (String.eqb k' k) eqn:E; simpl; [exact IH|]. by rewrite E.
Qed.

Lemma mapGet_mapDelete_ne {V : Type} (m : list (string * V)) (k k' : string) :
  k <> k' -> mapGet (mapDelete k m) k' = mapGet m k'.
Proof.
  intros Hne. induction m as [|[k0 v0] rest IH]; simpl; [reflexivity|].
  destruct (String.eqb k0 k) eqn:E; simpl.
  - apply String.eqb_eq in E. subst k0.
    by replace (String.eqb k k') with false
      by (symmetry; by apply String.eqb_neq).
  - by rewrite IH.
Qed.

Lemma queueGet_mapGet (queue : Queue) (id : string) :
  queueGet queue id = mapGet queue id.
Proof.
  induction queue as [|[k u] rest IH]; simpl; [reflexivity|]. by rewrite IH.
Qed.

Lemma mapGet_lookup {V : Type} (m : list (string * V)) (i : nat) (k : string)
    (v : V) :
  NoDup (map fst m) -> m !! i = Some (k, v) -> mapGet m k = Some v.
Proof.
  revert i. induction m as [|[k0 v0] rest IH]; intros i Hnd Hi;
    [by destruct i|].
  simpl in Hnd. apply NoDup_cons in Hnd. destruct Hnd as [Hfresh Hnd].
  destruct i as [|i]; simpl in Hi.
  - injection Hi as -> ->. simpl. by rewrite String.eqb_refl.
  - simpl. destruct (String.eqb k0 k) eqn:E; [|by eapply IH].
    apply String.eqb_eq in E. subst k0. exfalso. apply Hfresh.
    apply list_elem_of_fmap. exists (k, v). split; [reflexivity|].
    by eapply list_elem_of_lookup_2.
Qed.

Lemma mapGet_None_keys {V : Type} (m : list (string * V)) (k : string) :
  mapGet m k = None <-> k ∉ map fst m.
Proof.
  induction m as [|[k0 v0] rest IH]; simpl.
  - split; [intros _; apply not_elem_of_nil | reflexivity].
  - rewrite not_elem_of_cons. destruct (String.eqb k0 k) eqn:E.
    + apply String.eqb_eq in E. subst k0. split; [discriminate|]. by intros [? _].
    + apply String.eqb_neq in E. rewrite IH. split; [|by intros [_ ?]].
      intros H. split; [congruence | exact H].
Qed.

(** ** The engine calls of the move handler, resolved *)

Lemma in_checkmate_run (st : SimpleChess) :
  wfBoard (board st) ->
  in_checkmate st = Some (in_check st && (length (legalNow st) =? 0)%nat, st).
Proof.
  intros Hwf.
  assert (Hmoves : moves (mkOpts false None) st
                   = Some (map (renderMove false) (legalNow st), st)).
  { unfold moves, bind. cbn [square verbose]. by rewrite legalMovesOf_side. }
  unfold in_checkmate, bind at 1, getState, in_check.
  destruct (_currentInCheck st); [|reflexivity].
  cbn [negb]. unfold bind, ret. rewrite Hmoves. by rewrite length_map.
Qed.

Lemma in_stalemate_run (st : SimpleChess) :
  wfBoard (board st) ->
  in_stalemate st
  = Some (negb (in_check st) && (length (legalNow st) =? 0)%nat, st).
Proof.
  intros Hwf.
  assert (Hmoves : moves (mkOpts false None) st
                   = Some (map (renderMove false) (legalNow st), st)).
  { unfold moves, bind. cbn [square verbose]. by rewrite legalMovesOf_side. }
  unfold in_stalemate, bind at 1, getState, in_check.
  destruct (_currentInCheck st); [reflexivity|].
  cbn [negb]. unfold bind, ret. rewrite Hmoves. by rewrite length_map.
Qed.

Lemma move_run (st : SimpleChess) (a : MoveArg) :
  wfBoard (board st) ->
  move a st =
  match List.find (matchesRequest (requestOfArg a)) (legalNow st) with
  | Some lm => match _makeMove lm st with
               | Some (_, st1) => Some (Some lm, st1)
               | None => None
               end
  | None => Some (None, st)
  end.
Proof.
  intros Hwf. unfold move, bind at 1. rewrite (legalMovesOf_side st Hwf).
  fold (legalNow st).
  destruct (List.find _ _) as [lm|]; [|reflexivity].
  unfold bind, ret. by destruct (_makeMove lm st) as [[[] st1]|].
Qed.

Lemma setEngine_same (game : Game) : setEngine game (engine game) = game.
Proof. by destruct game. Qed.

Lemma putGame_same (gameId : string) (game : Game) (s : Server) :
  mapGet (sv_games s) gameId = Some game ->
  putGame gameId game (sv_scoreboard s) s = s.
Proof.
  intros Hget. unfold putGame. rewrite (mapSet_same _ _ _ Hget). by destruct s.
Qed.

Lemma putGame_get (g gameId : string) (x : Game) (sb : gmap string Z)
    (s : Server) :
  mapGet (sv_games (putGame g x sb s)) gameId
  = if String.eqb g gameId then Some x else mapGet (sv_games s) gameId.
Proof.
  unfold putGame. cbn [sv_games].
  destruct (String.eqb g gameId) eqn:E.
  - apply String.eqb_eq in E. subst g. apply mapGet_mapSet_eq.
  - apply String.eqb_neq in E. by apply mapGet_mapSet_ne.
Qed.

Lemma checkTimeoutIn_run (now : Z) (gameId : string) (game : Game) (s : Server) :
  mapGet (sv_games s) gameId = Some game ->
  checkTimeoutIn now gameId game s =
  if expired now game
  then (true, forfeit game,
        putGame gameId (forfeit game)
                (updateRatings (winnerOf game) (loserOf game) (sv_scoreboard s)) s)
  else (false, game, s).
Proof.
  intros Hget. unfold checkTimeoutIn, checkTimeout, expired.
  cbn [ts_game ts_scoreboard].
  destruct (over game); cbn [negb andb].
  { cbn [fst snd ts_game ts_scoreboard default from_option]. unfold id.
    fold (putGame gameId game (sv_scoreboard s) s). by rewrite putGame_same. }
  destruct (negb (lastMove game =? 0) && (MOVE_TIMEOUT_MS <? now - lastMove game)).
  - reflexivity.
  - cbn [fst snd ts_game ts_scoreboard default from_option]. unfold id.
    fold (putGame gameId game (sv_scoreboard s) s). by rewrite putGame_same.
Qed.

Lemma postMove_resolved (now stamp : Z) (gameId : string) (body : MoveBody)
    (s : Server) :
  (forall game, mapGet (sv_games s) gameId = Some game ->
                reachable (engine game)) ->
  postMove now stamp gameId body s = postMoveResolved now stamp gameId body s.
Proof.
  intros Hok. unfold postMove, postMoveResolved.
  destruct (mapGet (sv_games s) gameId) as [game|] eqn:Hget; [|reflexivity].
  specialize (Hok game eq_refl).
  rewrite (checkTimeoutIn_run now gameId game s Hget).
  destruct (expired now game); [reflexivity|].
  fold (missingFields body). destruct (missingFields body); [reflexivity|].
  destruct (over game); [reflexivity|].
  destruct (seatOf game (mb_playerId body)) as [myColor|]; [|reflexivity].
  destruct (negb (Color_eqb myColor (turn (engine game)))); [reflexivity|].
  destruct (reachable_valid _ Hok) as [Hwf _].
  pose proof (move_run (engine game) (ArgObject (requestOfBody body)) Hwf) as Hrun.
  cbn [requestOfArg] in Hrun.
  destruct (List.find _ _) as [lm|] eqn:Hfind.
  - destruct (_makeMove lm (engine game)) as [[[] e1]|] eqn:Hmk;
      rewrite Hrun; [|reflexivity].
    assert (Hreach1 : reachable e1)
      by (eapply reachable_move; [exact Hok|]; rewrite Hrun; reflexivity).
    destruct (reachable_valid _ Hreach1) as [Hwf1 _].
    rewrite (in_checkmate_run e1 Hwf1).
    unfold settle, played. cbn [engine stampMove setEngine].
    destruct (in_check e1) eqn:Hchk; cbn [andb negb].
    + destruct (length (legalNow e1) =? 0)%nat eqn:Hlen.
      * reflexivity.
      * rewrite (in_stalemate_run e1 Hwf1), Hchk. reflexivity.
    + rewrite (in_stalemate_run e1 Hwf1), Hchk. cbn [andb negb].
      destruct (length (legalNow e1) =? 0)%nat; reflexivity.
  - rewrite Hrun. rewrite setEngine_same. by rewrite putGame_same.
Qed.

(** ** Joining the queue *)

Lemma findBestOpponent_cases (queue : Queue) (playerId : string)
    (playerRating : option Z) :
  queueKeys queue ->
  (findBestOpponent queue playerId playerRating = None
   /\ forall k u, In (k, u) queue -> k = playerId)
  \/ exists u, findBestOpponent queue playerId playerRating = Some u
               /\ mapGet queue (qe_id u) = Some u /\ qe_id u <> playerId.
Proof.
  intros [Hnd Hkeys]. unfold findBestOpponent.
  destruct (scan_spec playerId playerRating queue (None, None))
    as [[Hres Hall]|(i & k & u & Hi & Hk & Hres & _ & _)].
  - left. rewrite Hres. split; [reflexivity|].
    intros k u Hin. destruct (decide (k = playerId)) as [|Hne]; [done|].
    apply list_elem_of_In, list_elem_of_lookup_1 in Hin. destruct Hin as [j Hj].
    specialize (Hall j k u Hj Hne). discriminate.
  - right. exists u. rewrite Hres. cbn [fst].
    assert (Hin : (k, u) ∈ queue) by (by eapply list_elem_of_lookup_2).
    rewrite Forall_forall in Hkeys. destruct (Hkeys _ Hin) as [Hid Htruthy].
    cbn [fst snd] in Hid, Htruthy. rewrite Htruthy, queueGet_mapGet.
    rewrite <- Hid. split; [by eapply mapGet_lookup|].
    split; [by eapply mapGet_lookup | exact Hk].
Qed.

Lemma queueKeys_mapSet (queue : Queue) (u : QueueEntry) :
  truthy (qe_id u) = true ->
  queueKeys queue -> queueKeys (mapSet (qe_id u) u queue).
Proof.
  intros Hid [Hnd Hkeys]. split; [by apply NoDup_mapSet|].
  apply Forall_mapSet; [by split | exact Hkeys].
Qed.

Lemma queueKeys_mapDelete (queue : Queue) (k : string) :
  queueKeys queue -> queueKeys (mapDelete k queue).
Proof.
  intros [Hnd Hkeys]. unfold mapDelete. split.
  - induction queue as [|[k0 u0] rest IH]; simpl; [constructor|].
    simpl in Hnd. apply NoDup_cons in Hnd. destruct Hnd as [Hfresh Hnd].
    apply Forall_cons in Hkeys. destruct Hkeys as [_ Hkeys].
    destruct (negb (String.eqb k0 k)); simpl; [|by apply IH].
    apply NoDup_cons. split; [|by apply IH].
    intros Hin. apply Hfresh. apply list_elem_of_fmap in Hin.
    destruct Hin as [[k1 u1] [-> Hin]]. apply list_elem_of_In, filter_In in Hin.
    apply list_elem_of_fmap. exists (k1, u1). split; [reflexivity|].
    apply list_elem_of_In. tauto.
  - rewrite Forall_forall. intros kv Hin. apply list_elem_of_In, filter_In in Hin.
    rewrite Forall_forall in Hkeys. apply Hkeys. apply list_elem_of_In. tauto.
Qed.

(** The two outcomes of a well-formed join, read off the handler. *)
Lemma postMatch_run (env : MatchEnv) (rq : MatchRequest) (s : Server) :
  wellFormedJoin rq ->
  let queue := mapSet (mr_id rq) (entryOf env rq s) (sv_queue s) in
  postMatch env rq s =
  match findBestOpponent queue (mr_id rq) (qe_rating (entryOf env rq s)) with
  | Some opp =>
      let game :=
        createGame (me_whiteFirst env) (me_gameId env) (me_gameNow env)
                   (mr_id rq) (mr_name rq) (qe_id opp) (qe_name opp) in
      (Matched (me_gameId env)
               (if String.eqb (player_id (players_w game)) (mr_id rq)
                then W else B)
               (mkOpponent (qe_id opp) (qe_name opp)
                           (getRating (registered rq s) (qe_id opp)))
               (fen reset),
       mkServer (mapDelete (qe_id opp) (mapDelete (mr_id rq) queue))
                (registered rq s)
                (mapSet (me_gameId env) game (sv_games s)))
  | None => (NotMatched, mkServer queue (registered rq s) (sv_games s))
  end.
Proof.
  intros [Hid Hname]. unfold postMatch. rewrite Hid, Hname. cbn [negb orb].
  reflexivity.
Qed.

Lemma length_mapDelete_le {V : Type} (m : list (string * V)) (k : string) :
  (length (mapDelete k m) <= length m)%nat.
Proof. unfold mapDelete. apply filter_length_le. Qed.

Lemma createGame_ok (whiteFirst : bool) (gameId : string) (now : Z)
    (aId aName bId bName : string) :
  aId <> bId ->
  gameOk (gameId, createGame whiteFirst gameId now aId aName bId bName).
Proof.
  intros Hne. unfold gameOk, createGame. cbn [fst snd].
  destruct whiteFirst; cbn;
    (split; [reflexivity|]); (split; [apply reachable_reset|]);
    (split; [congruence|]); (split; [reflexivity|]);
    unfold ended; cbn; split; [discriminate | congruence | discriminate | congruence].
Qed.

Lemma postMatch_ok (env : MatchEnv) (rq : MatchRequest) (s : Server) :
  serverOk s -> serverOk (postMatch env rq s).2.
Proof.
  intros (Hkeys & Hlen & Hgames).
  destruct (truthy (mr_id rq)) eqn:Hid;
    [|unfold postMatch; rewrite Hid; cbn [negb orb snd]; done].
  destruct (truthy (mr_name rq)) eqn:Hname;
    [|unfold postMatch; rewrite Hid, Hname; cbn [negb orb snd]; done].
  rewrite (postMatch_run env rq s (conj Hid Hname)). cbn zeta.
  set (me := entryOf env rq s).
  assert (Hkeys' : queueKeys (mapSet (mr_id rq) me (sv_queue s)))
    by (apply (queueKeys_mapSet (sv_queue s) me); [exact Hid | exact Hkeys]).
  destruct (findBestOpponent_cases _ (mr_id rq) (qe_rating me) Hkeys')
    as [[Hnone Honly]|(opp & Hsome & Hget & Hne)].
  - rewrite Hnone. cbn [snd]. split; [exact Hkeys'|]. split; [|exact Hgames].
    cbn [sv_queue]. destruct (sv_queue s) as [|[k u] rest] eqn:Hq; [simpl; lia|].
    destruct rest; [|simpl in Hlen; lia]. simpl.
    destruct (String.eqb k (mr_id rq)) eqn:E; [simpl; lia|].
    exfalso. apply String.eqb_neq in E. apply E.
    apply (Honly k u). simpl. rewrite (proj2 (String.eqb_neq _ _) E). by left.
  - rewrite Hsome. cbn [snd]. split; [|split]; cbn [sv_queue sv_games].
    + by do 2 apply queueKeys_mapDelete.
    + destruct (sv_queue s) as [|[k u] rest] eqn:Hq.
      { simpl. rewrite String.eqb_refl. simpl. lia. }
      destruct rest; [|simpl in Hlen; lia]. simpl.
      destruct (String.eqb k (mr_id rq)) eqn:E; simpl.
      * rewrite String.eqb_refl. simpl. lia.
      * rewrite E, String.eqb_refl. simpl.
        destruct (negb (String.eqb k (qe_id opp))); simpl; lia.
    + apply Forall_mapSet; [|exact Hgames]. apply createGame_ok. congruence.
Qed.

(** ** The invariant of the server *)

Lemma forfeit_ok (gameId : string) (game : Game) :
  gameOk (gameId, game) -> gameOk (gameId, forfeit game).
Proof.
  unfold gameOk, forfeit, ended. cbn [fst snd].
  intros (Hid & Hreach & Hseats & Hturn & _). cbn.
  do 4 (split; [done|]). split; [by intros _ | by intros _].
Qed.

Lemma settle_ok (gameId : string) (game1 : Game) (sb : gmap string Z) :
  gameOk (gameId, game1) -> gameOk (gameId, (settle game1 sb).1).
Proof.
  intros Hok. unfold settle.
  assert (Hfin : forall r, gameOk (gameId, finished game1 r)).
  { intros r. destruct Hok as (Hid & Hreach & Hseats & Hturn & _).
    unfold gameOk, finished, ended in *. cbn [fst snd] in *. cbn.
    do 4 (split; [done|]). split; [by intros _ | by intros _]. }
  destruct (in_check (engine game1) && _); [apply Hfin|].
  destruct (length _ =? 0)%nat; [apply Hfin | exact Hok].
Qed.

Lemma played_ok (gameId : string) (game : Game) (e1 : SimpleChess) (stamp : Z) :
  gameOk (gameId, game) -> over game = false -> reachable e1 ->
  gameOk (gameId, played game e1 stamp).
Proof.
  intros (Hid & Hreach & Hseats & Hturn & Hended) Hover Hreach1.
  unfold gameOk, played, stampMove, setEngine, ended in *. cbn [fst snd] in *. cbn.
  do 4 (split; [done|]).
  rewrite Hover in *. split; [discriminate|]. intros Hres. apply Hended in Hres.
  discriminate.
Qed.

Lemma makeMove_of_legal (st : SimpleChess) (rq : MoveRequest) (lm : Move) :
  wfBoard (board st) ->
  List.find (matchesRequest rq) (legalNow st) = Some lm ->
  exists st1, _makeMove lm st = Some (tt, st1)
              /\ move (ArgObject rq) st = Some (Some lm, st1).
Proof.
  intros Hwf Hfind.
  pose proof (move_run st (ArgObject rq) Hwf) as Hrun.
  cbn [requestOfArg] in Hrun. rewrite Hfind in Hrun.
  destruct (move_total st (ArgObject rq) Hwf) as [Hnone|(lm' & st' & Hsome)].
  - rewrite Hnone in Hrun. destruct (_makeMove lm st) as [[[] ?]|]; discriminate.
  - rewrite Hsome in Hrun.
    destruct (_makeMove lm st) as [[[] st1]|]; [|discriminate].
    injection Hrun as -> ->. exists st1. by split.
Qed.

Lemma putGame_ok (gameId : string) (game : Game) (sb : gmap string Z)
    (s : Server) :
  serverOk s -> gameOk (gameId, game) -> serverOk (putGame gameId game sb s).
Proof.
  intros (Hkeys & Hlen & Hgames) Hok. unfold putGame.
  split; [exact Hkeys|]. split; [exact Hlen|]. cbn [sv_games].
  by apply Forall_mapSet.
Qed.

Lemma stored_game_ok (s : Server) (gameId : string) (game : Game) :
  serverOk s -> mapGet (sv_games s) gameId = Some game -> gameOk (gameId, game).
Proof. intros (_ & _ & Hgames) Hget. by eapply mapGet_Forall. Qed.

Lemma postMoveResolved_ok (now stamp : Z) (gameId : string) (body : MoveBody)
    (s : Server) :
  serverOk s ->
  exists r, postMoveResolved now stamp gameId body s = Some r /\ serverOk r.2.
Proof.
  intros Hs. unfold postMoveResolved.
  destruct (mapGet (sv_games s) gameId) as [game|] eqn:Hget; [|by eexists].
  pose proof (stored_game_ok s gameId game Hs Hget) as Hok.
  destruct (expired now game).
  { eexists. split; [reflexivity|]. cbn [snd].
    apply putGame_ok; [exact Hs | by apply forfeit_ok]. }
  destruct (missingFields body); [by eexists|].
  destruct (over game) eqn:Hover; [by eexists|].
  destruct (seatOf game (mb_playerId body)) as [myColor|]; [|by eexists].
  destruct (negb (Color_eqb myColor (turn (engine game)))); [by eexists|].
  destruct (List.find _ _) as [lm|] eqn:Hfind; [|by eexists].
  pose proof Hok as (_ & Hreach & _). cbn [fst snd] in Hreach.
  destruct (reachable_valid _ Hreach) as [Hwf _].
  destruct (makeMove_of_legal _ _ _ Hwf Hfind) as (e1 & Hmk & Hmove).
  rewrite Hmk. eexists. split; [reflexivity|]. cbn [snd].
  apply putGame_ok; [exact Hs|]. apply settle_ok. apply played_ok.
  - exact Hok.
  - exact Hover.
  - by eapply reachable_move.
Qed.

Lemma getGame_ok (now : Z) (gameId : string) (s : Server) :
  serverOk s -> serverOk (getGame now gameId s).2.
Proof.
  intros Hs. unfold getGame.
  destruct (mapGet (sv_games s) gameId) as [game|] eqn:Hget; [|exact Hs].
  rewrite (checkTimeoutIn_run now gameId game s Hget).
  destruct (expired now game); cbn [snd]; [|exact Hs].
  apply putGame_ok; [exact Hs|]. apply forfeit_ok. by eapply stored_game_ok.
Qed.

Lemma serverOk_start : serverOk emptyServer.
Proof.
  split; [|split]; cbn.
  - split; [constructor | constructor].
  - lia.
  - constructor.
Qed.

Lemma handle_ok (rq : Request) (s : Server) :
  serverOk s -> exists s', handle rq s = Some s' /\ serverOk s'.
Proof.
  intros Hs. destruct rq as [env mr|id|now gid|now stamp gid body|id]; cbn [handle].
  - eexists. split; [reflexivity|]. by apply postMatch_ok.
  - by eexists.
  - eexists. split; [reflexivity|]. by apply getGame_ok.
  - rewrite postMove_resolved
      by (intros game Hget; by destruct (stored_game_ok s gid game Hs Hget) as (_ & ? & _)).
    destruct (postMoveResolved_ok now stamp gid body s Hs) as (r & -> & Hr).
    by exists r.2.
  - by eexists.
Qed.

Lemma serverReachable_ok (s : Server) : serverReachable s -> serverOk s.
Proof.
  induction 1 as [|s s' rq _ IH Hstep]; [apply serverOk_start|].
  destruct (handle_ok rq s IH) as (s1 & Hs1 & Hok). congruence.
Qed.

Lemma handleAll_reachable (rqs : list Request) (s s' : Server) :
  serverReachable s -> handleAll rqs s = Some s' -> serverReachable s'.
Proof.
  revert s. induction rqs as [|rq rest IH]; intros s Hs; simpl.
  - by intros [= <-].
  - destruct (handle rq s) as [s1|] eqn:Hstep; [|discriminate].
    apply IH. by eapply serverReachable_step.
Qed.

(** ** A sample session: two joins, then fool's mate *)

Lemma sampleLobby_reachable : serverReachable sampleLobby.
Proof.
  apply (handleAll_reachable [annJoins] emptyServer);
    [apply serverReachable_start | reflexivity].
Qed.

Lemma sampleTable_reachable : serverReachable sampleTable.
Proof.
  apply (handleAll_reachable [annJoins; bobJoins] emptyServer);
    [apply serverReachable_start | reflexivity].
Qed.

Lemma sampleBeforeMate_reachable : serverReachable sampleBeforeMate.
Proof.
  apply (handleAll_reachable
           [annJoins; bobJoins; moveOf 3000 "bob" "f2" "f3";
            moveOf 4000 "ann" "E7" "E5"; moveOf 5000 "bob" "g2" "g4"]
           emptyServer);
    [apply serverReachable_start | vm_compute; reflexivity].
Qed.

Lemma sampleAfterMate_reachable : serverReachable sampleAfterMate.
Proof.
  apply (serverReachable_step sampleBeforeMate _ (PostMove 6000 6001 "g1" mateBody));
    [apply sampleBeforeMate_reachable | vm_compute; reflexivity].
Qed.

Lemma sampleMatedGame_stored :
  mapGet (sv_games sampleAfterMate) "g1" = Some sampleMatedGame.
Proof. vm_compute. reflexivity. Qed.

Lemma sampleMatedGame_over : over sampleMatedGame = true.
Proof. vm_compute. reflexivity. Qed.

Lemma sample_out_of_turn :
  postMove 6000 6001 "g1" (mkMoveBody "bob" "d8" "h4" None) sampleBeforeMate
  = Some (GameError 400 "not your turn", sampleBeforeMate).
Proof. vm_compute. reflexivity. Qed.

Lemma sample_game_stored :
  mapGet (sv_games sampleBeforeMate) "g1"
  = Some (default sampleGame (mapGet (sv_games sampleBeforeMate) "g1")).
Proof. vm_compute. reflexivity. Qed.

(** ** Ratings: who is touched, and the sum of points *)

Lemma updateRatings_other (sb : gmap string Z) (winner loser other : string) :
  other <> winner -> other <> loser ->
  updateRatings winner loser sb !! other = sb !! other
  /\ Earlier.updateRatings winner loser sb !! other = sb !! other.
Proof.
  intros Hw Hl. unfold updateRatings, Earlier.updateRatings.
  by rewrite !lookup_insert_ne by congruence.
Qed.

Lemma getRating_updateRatings_winner (sb : gmap string Z) (winner loser : string) :
  winner <> loser ->
  getRating (updateRatings winner loser sb) winner = getRating sb winner + 5.
Proof.
  intros Hne. unfold updateRatings.
  rewrite getRating_insert_ne by congruence. by rewrite getRating_insert_eq.
Qed.

(** X10. A rating adjustment, in both revisions of the server, leaves the
    entry of every player other than the winner and the loser as it was
    (absent entries stay absent), and for two distinct players with plain
    integer ratings the sum of their two ratings grows by at least one
    point: the winner's gain of 5 exceeds the loser's penalty. *)
Theorem updateRatings_touches_two_and_adds_points (sb : gmap string Z)
    (winner loser : string) :
  winner <> loser ->
  plainRating (getRating sb winner) ->
  plainRating (getRating sb loser) ->
  (forall other, other <> winner -> other <> loser ->
     updateRatings winner loser sb !! other = sb !! other
     /\ Earlier.updateRatings winner loser sb !! other = sb !! other)
  /\ getRating sb winner + getRating sb loser + 1
     <= getRating (updateRatings winner loser sb) winner
        + getRating (updateRatings winner loser sb) loser
  /\ getRating sb winner + getRating sb loser + 1
     <= getRating (Earlier.updateRatings winner loser sb) winner
        + getRating (Earlier.updateRatings winner loser sb) loser.
Proof.
  intros Hne _ _. split; [intros other; apply updateRatings_other|].
  unfold updateRatings, Earlier.updateRatings.
  rewrite !getRating_insert_eq.
  rewrite !(getRating_insert_ne _ loser winner) by congruence.
  rewrite !getRating_insert_eq.
  destruct (getRating sb winner <? getRating sb loser),
           (getRating sb loser <? getRating sb winner); lia.
Qed.

Lemma sample_table_plain :
  plainRating (getRating {["bob" := 2; "carl" := 1700]} "ann")
  /\ plainRating (getRating {["bob" := 2; "carl" := 1700]} "bob").
Proof. split; vm_compute; discriminate. Qed.

Lemma updateRatings_touches_two_and_adds_points_witness :
  updateRatings "ann" "bob" {["bob" := 2; "carl" := 1700]} !! "carl"%string
  = Some 1700
  /\ 1500 + 2 + 1
     <= getRating (updateRatings "ann" "bob" {["bob" := 2; "carl" := 1700]}) "ann"
        + getRating (updateRatings "ann" "bob" {["bob" := 2; "carl" := 1700]}) "bob".
Proof.
  assert (Hne : "ann"%string <> "bob"%string) by discriminate.
  destruct (updateRatings_touches_two_and_adds_points
              {["bob" := 2; "carl" := 1700]} "ann" "bob" Hne
              (proj1 sample_table_plain) (proj2 sample_table_plain))
    as (Hframe & Hsum & _).
  split.
  - destruct (Hframe "carl"%string) as [H _]; [discriminate | discriminate|].
    rewrite H. reflexivity.
  - exact Hsum.
Defined.

(** ** What holds in every state the server reaches *)

(** X11. Whatever requests the server has handled since its start, the next
    request, of any kind and with any ids, squares and clock readings, is
    handled without an exception out of the engine. *)
Theorem every_request_is_handled (s : Server) (rq : Request) :
  serverReachable s ->
  exists s', handle rq s = Some s' /\ serverReachable s'.
Proof.
  intros Hs. destruct (handle_ok rq s (serverReachable_ok s Hs)) as (s' & Hstep & _).
  exists s'. split; [exact Hstep|]. by eapply serverReachable_step.
Qed.

Lemma every_request_is_handled_witness :
  exists s', handle (PostMove 6000 6001 "g1" (mkMoveBody "ann" "zz" "d8?" (Some "x")))
                    sampleBeforeMate = Some s'
             /\ serverReachable s'.
Proof.
  exact (every_request_is_handled sampleBeforeMate
           (PostMove 6000 6001 "g1" (mkMoveBody "ann" "zz" "d8?" (Some "x")))
           sampleBeforeMate_reachable).
Defined.

Lemma serverReachablePlain_reachable (s : Server) :
  serverReachablePlain s -> serverReachable s.
Proof.
  induction 1 as [|s s' rq _ IH _ Hstep _]; [apply serverReachable_start|].
  by eapply serverReachable_step.
Qed.

(** X12. In every state the server reaches through requests with text ids,
    while every rating involved is a plain integer, at most one player
    waits in the queue: a second player who joins is paired at once.  The
    waiting entry is filed under its own id, which is not empty. *)
Theorem at_most_one_player_waits (s : Server) :
  serverReachablePlain s ->
  (length (sv_queue s) <= 1)%nat
  /\ forall k u, mapGet (sv_queue s) k = Some u -> qe_id u = k /\ truthy k = true.
Proof.
  intros Hs. apply serverReachablePlain_reachable in Hs.
  destruct (serverReachable_ok s Hs) as ([_ Hkeys] & Hlen & _).
  split; [exact Hlen|]. intros k u Hget.
  destruct (mapGet_Forall _ _ _ _ Hkeys Hget) as [Hid Htruthy].
  cbn [fst snd] in Hid, Htruthy. by split.
Qed.

Lemma sampleLobby_plain : serverReachablePlain sampleLobby.
Proof.
  apply (serverReachablePlain_step emptyServer sampleLobby annJoins).
  - apply serverReachablePlain_start.
  - vm_compute. discriminate.
  - reflexivity.
  - unfold plainServer, plainQueue, plainRating.
    split; apply (bool_decide_unpack _); vm_compute; exact I.
Qed.

Lemma at_most_one_player_waits_witness :
  (length (sv_queue sampleLobby) <= 1)%nat
  /\ forall k u, mapGet (sv_queue sampleLobby) k = Some u ->
                 qe_id u = k /\ truthy k = true.
Proof.
  exact (at_most_one_player_waits sampleLobby sampleLobby_plain).
Defined.

(** X13. Every game the server stores is filed under its own id, its
    position has been reached from the initial one by legal moves, its two
    seats are held by players with different ids, its [turn] field equals
    the engine's side to move, and it is marked over exactly when it has a
    result. *)
Theorem stored_games_are_consistent (s : Server) (gameId : string) (game : Game) :
  serverReachable s ->
  mapGet (sv_games s) gameId = Some game ->
  game_id game = gameId
  /\ reachable (engine game)
  /\ player_id (players_w game) <> player_id (players_b game)
  /\ game_turn game = turn (engine game)
  /\ (over game = true <-> result game <> None).
Proof.
  intros Hs Hget.
  exact (stored_game_ok s gameId game (serverReachable_ok s Hs) Hget).
Qed.

Lemma stored_games_are_consistent_witness :
  game_id sampleMatedGame = "g1"%string
  /\ reachable (engine sampleMatedGame)
  /\ player_id (players_w sampleMatedGame) <> player_id (players_b sampleMatedGame)
  /\ game_turn sampleMatedGame = turn (engine sampleMatedGame)
  /\ (over sampleMatedGame = true <-> result sampleMatedGame <> None).
Proof.
  exact (stored_games_are_consistent sampleAfterMate "g1" sampleMatedGame
           sampleAfterMate_reachable sampleMatedGame_stored).
Defined.

(** ** Moves that are turned down *)

(** X14. A move request that is answered with an error (unknown game,
    missing field, game already over, not a player of the game, not the
    player's turn, illegal move) leaves the whole server state as it was:
    queue, ratings and every game, including the position and the time of
    the last move of the game addressed. *)
Theorem rejected_move_changes_nothing (s s' : Server) (now stamp : Z)
    (gameId : string) (body : MoveBody) (status : Z) (error : string) :
  serverReachable s ->
  postMove now stamp gameId body s = Some (GameError status error, s') ->
  s' = s.
Proof.
  intros Hs. pose proof (serverReachable_ok s Hs) as Hok.
  rewrite postMove_resolved
    by (intros game Hget; by destruct (stored_game_ok s gameId game Hok Hget)
                               as (_ & ? & _)).
  unfold postMoveResolved.
  destruct (mapGet (sv_games s) gameId) as [game|]; [|by intros [= _ _ <-]].
  destruct (expired now game); [discriminate|].
  destruct (missingFields body); [by intros [= _ _ <-]|].
  destruct (over game); [by intros [= _ _ <-]|].
  destruct (seatOf game (mb_playerId body)) as [myColor|]; [|by intros [= _ _ <-]].
  destruct (negb (Color_eqb myColor (turn (engine game)))); [by intros [= _ _ <-]|].
  destruct (List.find _ _) as [lm|]; [|by intros [= _ _ <-]].
  destruct (_makeMove lm (engine game)) as [[[] e1]|]; discriminate.
Qed.

Lemma rejected_move_changes_nothing_witness :
  postMove 6000 6001 "g1" (mkMoveBody "bob" "d8" "h4" None) sampleBeforeMate
  = Some (GameError 400 "not your turn", sampleBeforeMate)
  /\ sampleBeforeMate = sampleBeforeMate.
Proof.
  split; [exact sample_out_of_turn|].
  exact (rejected_move_changes_nothing sampleBeforeMate sampleBeforeMate
           6000 6001 "g1" (mkMoveBody "bob" "d8" "h4" None) 400 "not your turn"
           sampleBeforeMate_reachable sample_out_of_turn).
Defined.

(** X15. A game that is over stays as it is: reading it answers its stored
    state and changes nothing, however late, and every move request for it
    is answered with status 400 and changes nothing, so it is never rated a
    second time. *)
Theorem finished_game_is_final (s : Server) (gameId : string) (game : Game) :
  mapGet (sv_games s) gameId = Some game ->
  over game = true ->
  (forall now,
     getGame now gameId s
     = (GameState (viewOf (sv_scoreboard s) game (Some (lastMove game))), s))
  /\ forall now stamp body,
       exists error, postMove now stamp gameId body s
                     = Some (GameError 400 error, s).
Proof.
  intros Hget Hover.
  assert (Hexp : forall now, expired now game = false)
    by (intros now; unfold expired; by rewrite Hover).
  split.
  - intros now. unfold getGame. rewrite Hget.
    by rewrite (checkTimeoutIn_run now gameId game s Hget), Hexp.
  - intros now stamp body. unfold postMove. rewrite Hget.
    rewrite (checkTimeoutIn_run now gameId game s Hget), Hexp.
    fold (missingFields body). destruct (missingFields body); [by eexists|].
    rewrite Hover. by eexists.
Qed.

Lemma finished_game_is_final_witness :
  (forall now,
     getGame now "g1" sampleAfterMate
     = (GameState (viewOf (sv_scoreboard sampleAfterMate) sampleMatedGame
                          (Some (lastMove sampleMatedGame))), sampleAfterMate))
  /\ forall now stamp body,
       exists error, postMove now stamp "g1" body sampleAfterMate
                     = Some (GameError 400 error, sampleAfterMate).
Proof.
  exact (finished_game_is_final sampleAfterMate "g1" sampleMatedGame
           sampleMatedGame_stored sampleMatedGame_over).
Defined.

(** ** Pairing *)

Lemma mapSet_fresh {V : Type} (m : list (string * V)) (k : string) (v : V) :
  mapGet m k = None -> mapSet k v m = m ++ [(k, v)].
Proof.
  induction m as [|[k' v'] rest IH]; simpl; [reflexivity|].
  destruct (String.eqb k' k); [discriminate|]. intros H. by rewrite IH.
Qed.

Lemma find_app_none {A : Type} (f : A -> bool) (l : list A) (x : A) :
  List.find f l = None -> List.find f (l ++ [x]) = if f x then Some x else None.
Proof.
  induction l as [|y l IH]; simpl; [reflexivity|].
  destruct (f y); [discriminate | exact IH].
Qed.

Lemma eqb_false (a b : string) : a <> b -> String.eqb a b = false.
Proof. apply String.eqb_neq. Qed.

(** X16. A well-formed join with a plain integer rating, against a queue
    with distinct, non-empty keys and plain integer ratings, has two
    outcomes.  If nobody else waits, the answer is [matched: false],
    the joiner waits under their id with the rating read from the request or
    the scoreboard, and no game is created.  Otherwise the answer names an
    opponent who was waiting and whose id differs from the joiner's, both
    leave the queue while every other entry stays, and a new game is stored
    under the answered id: initial position, not over, stamped with the
    clock, the joiner on the answered colour (white exactly when the coin
    says so) and the opponent on the other. *)
Theorem join_pairs_two_different_players (env : MatchEnv) (rq : MatchRequest)
    (s : Server) :
  queueKeys (sv_queue s) -> wellFormedJoin rq ->
  plainQueue (sv_queue s) ->
  plainRating (parsedRatingOf (sv_scoreboard s) (mr_id rq) (mr_rating rq)) ->
  let r := postMatch env rq s in
  match r.1 with
  | MatchError _ _ => False
  | NotMatched =>
      (forall k u, mapGet (sv_queue s) k = Some u -> k = mr_id rq)
      /\ mapGet (sv_queue r.2) (mr_id rq) = Some (entryOf env rq s)
      /\ sv_games r.2 = sv_games s
  | Matched gameId color opponent fenText =>
      op_id opponent <> mr_id rq
      /\ (exists u, mapGet (sv_queue s) (op_id opponent) = Some u
                    /\ qe_name u = op_name opponent)
      /\ mapGet (sv_queue r.2) (mr_id rq) = None
      /\ mapGet (sv_queue r.2) (op_id opponent) = None
      /\ (forall k, k <> mr_id rq -> k <> op_id opponent ->
                    mapGet (sv_queue r.2) k = mapGet (sv_queue s) k)
      /\ op_rating opponent = getRating (sv_scoreboard r.2) (op_id opponent)
      /\ gameId = me_gameId env /\ fenText = fen reset
      /\ color = (if me_whiteFirst env then W else B)
      /\ exists game,
           mapGet (sv_games r.2) gameId = Some game
           /\ playerOf game color = mkPlayer (mr_id rq) (mr_name rq)
           /\ playerOf game (opposite color)
              = mkPlayer (op_id opponent) (op_name opponent)
           /\ engine game = reset /\ over game = false /\ result game = None
           /\ lastMove game = me_gameNow env
  end.
Proof.
  intros Hkeys Hjoin _ _. cbn zeta. rewrite (postMatch_run env rq s Hjoin). cbn zeta.
  set (me := entryOf env rq s).
  assert (Hkeys' : queueKeys (mapSet (mr_id rq) me (sv_queue s)))
    by (apply (queueKeys_mapSet (sv_queue s) me); [apply Hjoin | exact Hkeys]).
  destruct (findBestOpponent_cases _ (mr_id rq) (qe_rating me) Hkeys')
    as [[Hnone Honly]|(opp & Hsome & Hget & Hne)].
  - rewrite Hnone. cbn [fst snd sv_queue sv_games]. split; [|split].
    + intros k u Hk. destruct (decide (k = mr_id rq)) as [|Hother]; [done|].
      apply (Honly k u), mapGet_In. rewrite mapGet_mapSet_ne by congruence. exact Hk.
    + apply mapGet_mapSet_eq.
    + reflexivity.
  - rewrite Hsome. cbn [fst snd sv_queue sv_games sv_scoreboard op_id op_name op_rating].
    split; [exact Hne|]. split.
    { exists opp. split; [|reflexivity].
      rewrite <- Hget. symmetry. apply mapGet_mapSet_ne. congruence. }
    split.
    { rewrite mapGet_mapDelete_ne by exact Hne. apply mapGet_mapDelete_eq. }
    split; [apply mapGet_mapDelete_eq|]. split.
    { intros k Hk1 Hk2. rewrite !mapGet_mapDelete_ne by congruence.
      apply mapGet_mapSet_ne. congruence. }
    split; [reflexivity|]. split; [reflexivity|]. split; [reflexivity|].
    assert (Hcolor : (if String.eqb
                           (player_id (players_w
                              (createGame (me_whiteFirst env) (me_gameId env)
                                 (me_gameNow env) (mr_id rq) (mr_name rq)
                                 (qe_id opp) (qe_name opp)))) (mr_id rq)
                      then W else B)
                     = if me_whiteFirst env then W else B).
    { unfold createGame. destruct (me_whiteFirst env); cbn.
      - by rewrite String.eqb_refl.
      - by rewrite (eqb_false _ _ Hne). }
    rewrite Hcolor. split; [reflexivity|].
    eexists. split; [apply mapGet_mapSet_eq|].
    unfold createGame. by destruct (me_whiteFirst env).
Qed.

Lemma sample_join : queueKeys (sv_queue sampleLobby)
                    /\ wellFormedJoin (mkMatchRequest "bob" "Bob" None).
Proof.
  split; [|by split]. split.
  - apply (bool_decide_unpack _). vm_compute. exact I.
  - repeat constructor.
Qed.

Lemma sample_join_plain :
  plainQueue (sv_queue sampleLobby)
  /\ plainRating (parsedRatingOf (sv_scoreboard sampleLobby) "bob" None).
Proof.
  split.
  - unfold plainQueue, plainRating. apply (bool_decide_unpack _). vm_compute. exact I.
  - vm_compute. discriminate.
Qed.

Lemma join_pairs_two_different_players_witness :
  let r := postMatch (mkMatchEnv 2000 true "g1" 2001)
                     (mkMatchRequest "bob" "Bob" None) sampleLobby in
  match r.1 with
  | MatchError _ _ => False
  | NotMatched =>
      (forall k u, mapGet (sv_queue sampleLobby) k = Some u -> k = "bob"%string)
      /\ mapGet (sv_queue r.2) "bob"
         = Some (entryOf (mkMatchEnv 2000 true "g1" 2001)
                         (mkMatchRequest "bob" "Bob" None) sampleLobby)
      /\ sv_games r.2 = sv_games sampleLobby
  | Matched gameId color opponent fenText =>
      op_id opponent <> "bob"%string
      /\ (exists u, mapGet (sv_queue sampleLobby) (op_id opponent) = Some u
                    /\ qe_name u = op_name opponent)
      /\ mapGet (sv_queue r.2) "bob" = None
      /\ mapGet (sv_queue r.2) (op_id opponent) = None
      /\ (forall k, k <> "bob"%string -> k <> op_id opponent ->
                    mapGet (sv_queue r.2) k = mapGet (sv_queue sampleLobby) k)
      /\ op_rating opponent = getRating (sv_scoreboard r.2) (op_id opponent)
      /\ gameId = "g1"%string /\ fenText = fen reset
      /\ color = W
      /\ exists game,
           mapGet (sv_games r.2) gameId = Some game
           /\ playerOf game color = mkPlayer "bob" "Bob"
           /\ playerOf game (opposite color)
              = mkPlayer (op_id opponent) (op_name opponent)
           /\ engine game = reset /\ over game = false /\ result game = None
           /\ lastMove game = 2001
  end.
Proof.
  exact (join_pairs_two_different_players (mkMatchEnv 2000 true "g1" 2001)
           (mkMatchRequest "bob" "Bob" None) sampleLobby
           (proj1 sample_join) (proj2 sample_join)
           (proj1 sample_join_plain) (proj2 sample_join_plain)).
Defined.

(** X17. When a join is answered with a match, the game identifier is new
    and the opponent named in the answer has no unfinished game from before,
    the opponent's next poll of [GET /match/:id] finds that very game: same
    identifier and position, the opposite colour, and the joiner as the
    opponent. *)
Theorem poll_finds_the_new_game (env : MatchEnv) (rq : MatchRequest) (s : Server)
    (gameId : string) (color : Color) (opponent : Opponent) (fenText : string) :
  queueKeys (sv_queue s) ->
  (postMatch env rq s).1 = Matched gameId color opponent fenText ->
  mapGet (sv_games s) gameId = None ->
  getMatch (op_id opponent) s = NotMatched ->
  getMatch (op_id opponent) (postMatch env rq s).2
  = Matched gameId (opposite color)
            (mkOpponent (mr_id rq) (mr_name rq)
                        (getRating (sv_scoreboard (postMatch env rq s).2) (mr_id rq)))
            fenText.
Proof.
  intros Hkeys Hpost Hfresh Hidle.
  assert (Hjoin : wellFormedJoin rq).
  { unfold postMatch in Hpost. unfold wellFormedJoin.
    destruct (truthy (mr_id rq)); [|discriminate].
    destruct (truthy (mr_name rq)); [done | discriminate]. }
  assert (Hnone : List.find (activeFor (op_id opponent)) (sv_games s) = None).
  { unfold getMatch in Hidle. fold (activeFor (op_id opponent)) in Hidle.
    destruct (List.find _ _) as [[gid game]|]; [discriminate | reflexivity]. }
  revert Hpost. rewrite (postMatch_run env rq s Hjoin). cbn zeta.
  set (me := entryOf env rq s).
  assert (Hkeys' : queueKeys (mapSet (mr_id rq) me (sv_queue s)))
    by (apply (queueKeys_mapSet (sv_queue s) me); [apply Hjoin | exact Hkeys]).
  destruct (findBestOpponent_cases _ (mr_id rq) (qe_rating me) Hkeys')
    as [[Hno _]|(opp & Hsome & _ & Hne)]; [by rewrite Hno|].
  rewrite Hsome. cbn [fst snd]. intros [= <- <- <- <-].
  cbn [op_id]. cbn [op_id] in Hnone, Hfresh.
  unfold getMatch. fold (activeFor (qe_id opp)). cbn [sv_games sv_scoreboard].
  rewrite (mapSet_fresh _ _ _ Hfresh), (find_app_none _ _ _ Hnone).
  unfold activeFor, createGame. cbn [fst snd].
  pose proof (eqb_false _ _ Hne) as E1.
  assert (E2 : String.eqb (mr_id rq) (qe_id opp) = false)
    by (apply eqb_false; congruence).
  destruct (me_whiteFirst env); cbn;
    rewrite ?String.eqb_refl, ?E1, ?E2; cbn;
    rewrite ?String.eqb_refl, ?E1, ?E2; reflexivity.
Qed.

Lemma sample_pairing :
  (postMatch (mkMatchEnv 2000 true "g1" 2001) (mkMatchRequest "bob" "Bob" None)
             sampleLobby).1
  = Matched "g1" W (mkOpponent "ann" "Ann" 1500) (fen reset)
  /\ mapGet (sv_games sampleLobby) "g1" = None
  /\ getMatch "ann" sampleLobby = NotMatched.
Proof. vm_compute. done. Qed.

Lemma poll_finds_the_new_game_witness :
  getMatch "ann"
           (postMatch (mkMatchEnv 2000 true "g1" 2001)
                      (mkMatchRequest "bob" "Bob" None) sampleLobby).2
  = Matched "g1" B
            (mkOpponent "bob" "Bob"
               (getRating (sv_scoreboard
                  (postMatch (mkMatchEnv 2000 true "g1" 2001)
                             (mkMatchRequest "bob" "Bob" None) sampleLobby).2) "bob"))
            (fen reset).
Proof.
  exact (poll_finds_the_new_game (mkMatchEnv 2000 true "g1" 2001)
           (mkMatchRequest "bob" "Bob" None) sampleLobby "g1" W
           (mkOpponent "ann" "Ann" 1500) (fen reset)
           (proj1 sample_join) (proj1 sample_pairing)
           (proj1 (proj2 sample_pairing)) (proj2 (proj2 sample_pairing))).
Defined.

(** ** Ratings move only when a game ends *)

Lemma expired_running (now : Z) (game : Game) :
  expired now game = true -> over game = false.
Proof. unfold expired. by destruct (over game). Qed.

Lemma seats_forfeit (game : Game) : seats game (winnerOf game) (loserOf game).
Proof.
  unfold seats, winnerOf, loserOf. destruct (turn (engine game)); cbn; tauto.
Qed.

Lemma seats_played (game : Game) (e1 : SimpleChess) (stamp : Z) :
  seats game (winnerOf (played game e1 stamp)) (loserOf (played game e1 stamp)).
Proof.
  unfold seats, winnerOf, loserOf, played, stampMove, setEngine. cbn.
  destruct (turn e1); cbn; tauto.
Qed.

Lemma forfeit_rated (now : Z) (gameId : string) (game : Game) (s : Server) :
  mapGet (sv_games s) gameId = Some game -> expired now game = true ->
  ratedNow s (putGame gameId (forfeit game)
                      (updateRatings (winnerOf game) (loserOf game)
                                     (sv_scoreboard s)) s) gameId.
Proof.
  intros Hget Hexp.
  exists game, (forfeit game), (winnerOf game), (loserOf game), "timeout"%string.
  split; [exact Hget|]. split; [by eapply expired_running|].
  split; [apply mapGet_mapSet_eq|]. split; [reflexivity|].
  split; [reflexivity|]. split; [apply seats_forfeit | reflexivity].
Qed.

(** What one request can do to the rating table. *)
Lemma rating_change_cases (s s' : Server) (rq : Request) :
  serverReachable s ->
  handle rq s = Some s' ->
  sv_scoreboard s' = sv_scoreboard s
  \/ (exists env mr,
        rq = PostMatch env mr /\ sv_scoreboard s !! mr_id mr = None
        /\ sv_scoreboard s'
           = <[mr_id mr := parsedRatingOf (sv_scoreboard s) (mr_id mr) (mr_rating mr)]>
               (sv_scoreboard s))
  \/ (exists gameId, addresses rq gameId /\ ratedNow s s' gameId).
Proof.
  intros Hs. pose proof (serverReachable_ok s Hs) as Hok.
  destruct rq as [env mr|id|now gid|now stamp gid body|id]; cbn [handle].
  - intros [= <-].
    destruct (truthy (mr_id mr)) eqn:Hid;
      [|left; unfold postMatch; by rewrite Hid].
    destruct (truthy (mr_name mr)) eqn:Hname;
      [|left; unfold postMatch; by rewrite Hid, Hname].
    rewrite (postMatch_run env mr s (conj Hid Hname)). cbn zeta.
    assert (Hreg : registered mr s = sv_scoreboard s
                   \/ (sv_scoreboard s !! mr_id mr = None
                       /\ registered mr s
                          = <[mr_id mr := parsedRatingOf (sv_scoreboard s)
                                            (mr_id mr) (mr_rating mr)]>
                              (sv_scoreboard s))).
    { unfold registered. destruct (sv_scoreboard s !! mr_id mr); [by left|by right]. }
    destruct (findBestOpponent _ _ _); cbn [snd sv_scoreboard];
      (destruct Hreg as [->|[Hnew ->]];
       [by left | right; left; by exists env, mr]).
  - intros [= <-]. by left.
  - intros [= <-]. unfold getGame.
    destruct (mapGet (sv_games s) gid) as [game|] eqn:Hget; [|by left].
    rewrite (checkTimeoutIn_run now gid game s Hget).
    destruct (expired now game) eqn:Hexp; cbn [snd]; [|by left].
    right; right. exists gid. split; [reflexivity|]. by eapply forfeit_rated.
  - rewrite postMove_resolved
      by (intros game Hget; by destruct (stored_game_ok s gid game Hok Hget)
                                 as (_ & ? & _)).
    unfold postMoveResolved.
    destruct (mapGet (sv_games s) gid) as [game|] eqn:Hget;
      [|intros [= <-]; by left].
    destruct (expired now game) eqn:Hexp.
    { intros [= <-]. right; right. exists gid. split; [reflexivity|].
      by eapply forfeit_rated. }
    destruct (missingFields body); [intros [= <-]; by left|].
    destruct (over game) eqn:Hover; [intros [= <-]; by left|].
    destruct (seatOf game (mb_playerId body)) as [myColor|];
      [|intros [= <-]; by left].
    destruct (negb (Color_eqb myColor (turn (engine game))));
      [intros [= <-]; by left|].
    destruct (List.find _ _) as [lm|]; [|intros [= <-]; by left].
    destruct (_makeMove lm (engine game)) as [[[] e1]|]; [|discriminate].
    cbn [fmap option_fmap option_map snd]. intros [= <-]. unfold settle.
    destruct (in_check (engine (played game e1 stamp)) && _).
    + right; right. exists gid. split; [reflexivity|].
      exists game, (finished (played game e1 stamp)
                      (mkResult (Some (winnerOf (played game e1 stamp)))
                                (Some (loserOf (played game e1 stamp))) "checkmate")),
             (winnerOf (played game e1 stamp)), (loserOf (played game e1 stamp)),
             "checkmate"%string.
      cbn [fst snd]. split; [exact Hget|]. split; [exact Hover|].
      split; [apply mapGet_mapSet_eq|]. split; [reflexivity|].
      split; [reflexivity|]. split; [apply seats_played | reflexivity].
    + left. by destruct (length _ =? 0)%nat.
  - intros [= <-]. by left.
Qed.

(** A game that a request takes from running to over with a winner and a
    loser was rated for exactly that pair by the same request. *)
Lemma ended_game_is_rated (s s' : Server) (rq : Request) (gameId : string)
    (game game' : Game) (w l why : string) :
  serverReachable s ->
  handle rq s = Some s' ->
  mapGet (sv_games s) gameId = Some game -> over game = false ->
  mapGet (sv_games s') gameId = Some game' -> over game' = true ->
  result game' = Some (mkResult (Some w) (Some l) why) ->
  sv_scoreboard s' = updateRatings w l (sv_scoreboard s).
Proof.
  intros Hs Hstep Hget Hrun Hget' Hover' Hres.
  pose proof (serverReachable_ok s Hs) as Hok.
  assert (Same : mapGet (sv_games s') gameId = mapGet (sv_games s) gameId ->
                 sv_scoreboard s' = updateRatings w l (sv_scoreboard s)).
  { intros E. rewrite Hget, Hget' in E. injection E as ->. congruence. }
  destruct rq as [env mr|id|now gid|now stamp gid body|id]; cbn [handle] in Hstep.
  - injection Hstep as <-. revert Hget' Same.
    destruct (truthy (mr_id mr)) eqn:Hid;
      [|unfold postMatch; rewrite Hid; cbn [negb orb snd]; auto].
    destruct (truthy (mr_name mr)) eqn:Hname;
      [|unfold postMatch; rewrite Hid, Hname; cbn [negb orb snd]; auto].
    rewrite (postMatch_run env mr s (conj Hid Hname)). cbn zeta.
    destruct (findBestOpponent _ _ _) as [opp|]; cbn [snd sv_games sv_scoreboard];
      [|auto].
    destruct (decide (me_gameId env = gameId)) as [<-|Hother].
    + rewrite mapGet_mapSet_eq. intros [= <-]. exfalso.
      unfold createGame in Hover'. cbn in Hover'. discriminate.
    + rewrite mapGet_mapSet_ne by exact Hother. auto.
  - injection Hstep as <-. by apply Same.
  - injection Hstep as <-. revert Hget' Same. unfold getGame.
    destruct (mapGet (sv_games s) gid) as [g0|] eqn:Hg0; [|cbn [snd]; auto].
    rewrite (checkTimeoutIn_run now gid g0 s Hg0).
    destruct (expired now g0) eqn:Hexp; cbn [snd]; [|auto].
    rewrite putGame_get. destruct (String.eqb gid gameId) eqn:E; [|auto].
    apply String.eqb_eq in E. subst gid. intros [= <-] _.
    rewrite Hget in Hg0. injection Hg0 as <-.
    unfold forfeit in Hres. cbn in Hres. injection Hres as <- <- _.
    reflexivity.
  - revert Hstep. rewrite postMove_resolved
      by (intros g0 Hg0; by destruct (stored_game_ok s gid g0 Hok Hg0)
                              as (_ & ? & _)).
    unfold postMoveResolved.
    destruct (mapGet (sv_games s) gid) as [g0|] eqn:Hg0;
      [|intros [= <-]; by apply Same].
    destruct (expired now g0) eqn:Hexp.
    { intros [= <-]. revert Hget' Same. rewrite putGame_get.
      destruct (String.eqb gid gameId) eqn:E; [|auto].
      apply String.eqb_eq in E. subst gid. intros [= <-] _.
      rewrite Hget in Hg0. injection Hg0 as <-.
      unfold forfeit in Hres. cbn in Hres. injection Hres as <- <- _.
      reflexivity. }
    destruct (missingFields body); [intros [= <-]; by apply Same|].
    destruct (over g0) eqn:Hover0; [intros [= <-]; by apply Same|].
    destruct (seatOf g0 (mb_playerId body)) as [myColor|];
      [|intros [= <-]; by apply Same].
    destruct (negb (Color_eqb myColor (turn (engine g0))));
      [intros [= <-]; by apply Same|].
    destruct (List.find _ _) as [lm|]; [|intros [= <-]; by apply Same].
    destruct (_makeMove lm (engine g0)) as [[[] e1]|]; [|discriminate].
    cbn [fmap option_fmap option_map snd]. intros [= <-].
    revert Hget' Same. rewrite putGame_get.
    destruct (String.eqb gid gameId) eqn:E; [|auto].
    apply String.eqb_eq in E. subst gid. intros [= <-] _.
    rewrite Hget in Hg0. injection Hg0 as <-.
    revert Hover' Hres. unfold settle.
    destruct (in_check (engine (played game e1 stamp)) && _); cbn [fst snd].
    + intros _ Hres. unfold finished in Hres. cbn [result] in Hres.
      injection Hres as <- <- _. reflexivity.
    + destruct (length _ =? 0)%nat; cbn [fst snd].
      * intros _ Hres. unfold finished in Hres. cbn [result] in Hres. discriminate.
      * intros Hover' _. unfold played in Hover'. cbn in Hover'. congruence.
  - injection Hstep as <-. by apply Same.
Qed.

(** X18. One request changes the rating table in two ways only.  A join
    files the joiner's rating when the table has no entry for that id, and
    every well-formed join of an id without an entry does so.  A read of a
    game or a move in it adjusts the ratings of the two players of that
    game, and then that game was running before the request and is over
    after it, with the winner and loser of the adjustment as its result;
    and whenever a request takes a game from running to over with a winner
    and a loser, the table after it is the table before it adjusted for
    that pair.  Every other request, a stalemate included, leaves all
    ratings as they were. *)
Theorem ratings_change_only_when_a_game_ends (s s' : Server) (rq : Request) :
  serverReachable s ->
  handle rq s = Some s' ->
  (sv_scoreboard s' = sv_scoreboard s
   \/ (exists env mr,
         rq = PostMatch env mr /\ sv_scoreboard s !! mr_id mr = None
         /\ sv_scoreboard s'
            = <[mr_id mr := parsedRatingOf (sv_scoreboard s) (mr_id mr) (mr_rating mr)]>
                (sv_scoreboard s))
   \/ (exists gameId, addresses rq gameId /\ ratedNow s s' gameId))
  /\ (forall gameId game game' w l why,
        mapGet (sv_games s) gameId = Some game -> over game = false ->
        mapGet (sv_games s') gameId = Some game' -> over game' = true ->
        result game' = Some (mkResult (Some w) (Some l) why) ->
        sv_scoreboard s' = updateRatings w l (sv_scoreboard s))
  /\ (forall env mr,
        rq = PostMatch env mr -> wellFormedJoin mr ->
        sv_scoreboard s !! mr_id mr = None ->
        sv_scoreboard s'
        = <[mr_id mr := parsedRatingOf (sv_scoreboard s) (mr_id mr) (mr_rating mr)]>
            (sv_scoreboard s)).
Proof.
  intros Hs Hstep. split; [by apply rating_change_cases|]. split.
  - intros gameId game game' w l why. by apply ended_game_is_rated with (rq := rq).
  - intros env mr -> Hjoin Hnew. cbn [handle] in Hstep. injection Hstep as <-.
    rewrite (postMatch_run env mr s Hjoin). cbn zeta.
    assert (Hreg : registered mr s
                   = <[mr_id mr := parsedRatingOf (sv_scoreboard s)
                                     (mr_id mr) (mr_rating mr)]>
                       (sv_scoreboard s))
      by (unfold registered; by rewrite Hnew).
    by destruct (findBestOpponent _ _ _).
Qed.

Lemma sample_mate_step :
  handle (PostMove 6000 6001 "g1" mateBody) sampleBeforeMate = Some sampleAfterMate.
Proof. vm_compute. reflexivity. Qed.

Lemma sample_ratings_of_ann :
  getRating (sv_scoreboard sampleBeforeMate) "ann" = 1500
  /\ getRating (sv_scoreboard sampleAfterMate) "ann" = 1505.
Proof. split; vm_compute; reflexivity. Qed.

Lemma sample_ratings_moved :
  sv_scoreboard sampleAfterMate <> sv_scoreboard sampleBeforeMate.
Proof.
  intros E.
  pose proof (f_equal (fun sb => getRating sb "ann") E) as H. cbv beta in H.
  rewrite (proj1 sample_ratings_of_ann), (proj2 sample_ratings_of_ann) in H.
  discriminate H.
Qed.

Lemma sample_game_running :
  over (default sampleGame (mapGet (sv_games sampleBeforeMate) "g1")) = false.
Proof. vm_compute. reflexivity. Qed.

Lemma sampleMatedGame_result :
  result sampleMatedGame = Some (mkResult (Some "ann") (Some "bob") "checkmate").
Proof. vm_compute. reflexivity. Qed.

Lemma ratings_change_only_when_a_game_ends_witness :
  ratedNow sampleBeforeMate sampleAfterMate "g1"
  /\ sv_scoreboard sampleAfterMate
     = updateRatings "ann" "bob" (sv_scoreboard sampleBeforeMate).
Proof.
  destruct (ratings_change_only_when_a_game_ends sampleBeforeMate sampleAfterMate
              (PostMove 6000 6001 "g1" mateBody)
              sampleBeforeMate_reachable sample_mate_step)
    as (Hcases & Hended & _).
  split.
  - destruct Hcases as [Hsame|[(env & mr & Hrq & _)|(gameId & Haddr & Hrated)]].
    + exfalso. exact (sample_ratings_moved Hsame).
    + discriminate Hrq.
    + cbn in Haddr. by subst gameId.
  - exact (Hended "g1"%string (default sampleGame (mapGet (sv_games sampleBeforeMate) "g1")) sampleMatedGame "ann"%string
             "bob"%string "checkmate"%string
             sample_game_stored sample_game_running
             sampleMatedGame_stored sampleMatedGame_over sampleMatedGame_result).
Defined.

(** ** Checkmate over the wire *)

Lemma opposite_involutive (c : Color) : opposite (opposite c) = c.
Proof. by destruct c. Qed.

Lemma Color_eqb_eq (a b : Color) : Color_eqb a b = true -> a = b.
Proof. by destruct a, b. Qed.

Lemma seatOf_player (game : Game) (id : string) (c : Color) :
  seatOf game id = Some c -> player_id (playerOf game c) = id.
Proof.
  unfold seatOf.
  destruct (String.eqb (player_id (players_w game)) id) eqn:Ew.
  - intros [= <-]. by apply String.eqb_eq.
  - destruct (String.eqb (player_id (players_b game)) id) eqn:Eb; [|discriminate].
    intros [= <-]. by apply String.eqb_eq.
Qed.

(** X19. When a move request is answered with a result whose reason is
    checkmate, in any state the server reaches, and the requester's rating
    is a plain integer: the requester held the seat that was to move, is
    recorded as the winner and has 5 rating points more than before; the loser is the player of the other seat; the stored game
    is over with that result; and in its position the side now to move is in
    check and has no legal move. *)
Theorem checkmating_player_wins (s s' : Server) (now stamp : Z) (gameId : string)
    (body : MoveBody) (view : GameStateView) (r : GameResult) :
  serverReachable s ->
  plainRating (getRating (sv_scoreboard s) (mb_playerId body)) ->
  postMove now stamp gameId body s = Some (GameState view, s') ->
  gv_result view = Some r ->
  reason r = "checkmate"%string ->
  exists game game',
    mapGet (sv_games s) gameId = Some game
    /\ mapGet (sv_games s') gameId = Some game'
    /\ seatOf game (mb_playerId body) = Some (turn (engine game))
    /\ winnerId r = Some (mb_playerId body)
    /\ loserId r = Some (player_id (playerOf game (opposite (turn (engine game)))))
    /\ over game' = true /\ result game' = Some r /\ gv_over view = true
    /\ turn (engine game') = opposite (turn (engine game))
    /\ in_check (engine game') = true /\ legalNow (engine game') = []
    /\ getRating (sv_scoreboard s') (mb_playerId body)
       = getRating (sv_scoreboard s) (mb_playerId body) + 5.
Proof.
  intros Hs _. pose proof (serverReachable_ok s Hs) as Hok.
  rewrite postMove_resolved
    by (intros game Hget; by destruct (stored_game_ok s gameId game Hok Hget)
                               as (_ & ? & _)).
  unfold postMoveResolved.
  destruct (mapGet (sv_games s) gameId) as [game|] eqn:Hget; [|discriminate].
  pose proof (stored_game_ok s gameId game Hok Hget)
    as (_ & Hreach & Hseats & _ & Hended).
  cbn [fst snd] in Hreach, Hseats, Hended.
  destruct (expired now game).
  { intros [= <- _] [= <-]. discriminate. }
  destruct (missingFields body); [discriminate|].
  destruct (over game) eqn:Hover; [discriminate|].
  destruct (seatOf game (mb_playerId body)) as [myColor|] eqn:Hseat; [|discriminate].
  destruct (negb (Color_eqb myColor (turn (engine game)))) eqn:Hturn; [discriminate|].
  apply negb_false_iff, Color_eqb_eq in Hturn. subst myColor.
  destruct (List.find _ _) as [lm|] eqn:Hfind; [|discriminate].
  destruct (reachable_valid _ Hreach) as [Hwf _].
  destruct (makeMove_of_legal _ _ _ Hwf Hfind) as (e1 & Hmk & Hmove).
  rewrite Hmk.
  assert (Hflip : turn e1 = opposite (turn (engine game))).
  { destruct (move_effect _ _ _ _ Hwf Hmove)
      as (r0 & c0 & rr & cc & p & _ & _ & _ & _ & _ & _ & _ & _ & Hflip & _).
    exact Hflip. }
  unfold settle. cbn [engine played stampMove setEngine].
  destruct (in_check e1) eqn:Hchk; cbn [andb].
  - destruct (length (legalNow e1) =? 0)%nat eqn:Hlen; cbn [fst snd].
    + intros [= <- <-] [= <-] _.
      exists game. eexists. split; [reflexivity|].
      split; [apply mapGet_mapSet_eq|]. split; [exact Hseat|].
      assert (Hwinner : winnerOf (played game e1 stamp) = mb_playerId body).
      { unfold winnerOf. cbn. rewrite Hflip, opposite_involutive.
        by apply seatOf_player. }
      assert (Hloser : loserOf (played game e1 stamp)
                       = player_id (playerOf game (opposite (turn (engine game))))).
      { unfold loserOf. cbn. by rewrite Hflip. }
      unfold finished, viewOf. cbn [winnerId loserId over result gv_over].
      rewrite Hwinner, Hloser.
      cbn [engine played stampMove setEngine sv_scoreboard putGame].
      repeat (split; [first [reflexivity | exact Hflip | exact Hchk]|]).
      split.
      { apply Nat.eqb_eq in Hlen. by destruct (legalNow e1). }
      apply getRating_updateRatings_winner.
      rewrite <- (seatOf_player _ _ _ Hseat).
      destruct (turn (engine game)); cbn; congruence.
    + intros [= <- _]. cbn. intros Hres.
      assert (over game = true) by (apply Hended; congruence). congruence.
  - destruct (length (legalNow e1) =? 0)%nat; cbn [fst snd].
    + intros [= <- _] [= <-]. discriminate.
    + intros [= <- _]. cbn. intros Hres.
      assert (over game = true) by (apply Hended; congruence). congruence.
Qed.

Lemma sample_mate :
  postMove 6000 6001 "g1" mateBody sampleBeforeMate
  = Some (GameState
            (viewOf (sv_scoreboard sampleAfterMate) sampleMatedGame None),
          sampleAfterMate)
  /\ gv_result (viewOf (sv_scoreboard sampleAfterMate) sampleMatedGame None)
     = Some (mkResult (Some "ann") (Some "bob") "checkmate").
Proof. vm_compute. done. Qed.

Lemma sample_mover_plain :
  plainRating (getRating (sv_scoreboard sampleBeforeMate) (mb_playerId mateBody)).
Proof. vm_compute. discriminate. Qed.

Lemma checkmating_player_wins_witness :
  exists game game',
    mapGet (sv_games sampleBeforeMate) "g1" = Some game
    /\ mapGet (sv_games sampleAfterMate) "g1" = Some game'
    /\ seatOf game "ann" = Some (turn (engine game))
    /\ Some "ann"%string = Some "ann"%string
    /\ Some "bob"%string
       = Some (player_id (playerOf game (opposite (turn (engine game)))))
    /\ over game' = true
    /\ result game' = Some (mkResult (Some "ann") (Some "bob") "checkmate")
    /\ gv_over (viewOf (sv_scoreboard sampleAfterMate) sampleMatedGame None) = true
    /\ turn (engine game') = opposite (turn (engine game))
    /\ in_check (engine game') = true /\ legalNow (engine game') = []
    /\ getRating (sv_scoreboard sampleAfterMate) "ann"
       = getRating (sv_scoreboard sampleBeforeMate) "ann" + 5.
Proof.
  exact (checkmating_player_wins sampleBeforeMate sampleAfterMate 6000 6001 "g1"
           mateBody (viewOf (sv_scoreboard sampleAfterMate) sampleMatedGame None)
           (mkResult (Some "ann") (Some "bob") "checkmate")
           sampleBeforeMate_reachable sample_mover_plain
           (proj1 sample_mate) (proj2 sample_mate)
           eq_refl).
Defined.

(** ** Who can change a position *)

Lemma untouched_refl (game : Game) : untouched game game.
Proof. by repeat split. Qed.

(** X20. Games are never removed, and one request leaves the position, the
    two players and the move clock of a stored game as they were, with two
    exceptions: a join whose new game identifier collides with the game's
    (the game is then replaced by a fresh one), and a move request for that
    game, made while it is running and within the time limit, by the player
    whose seat is to move, with a move that the engine accepts; the new
    position is then the engine's result for that move. *)
Theorem only_the_player_to_move_changes_the_position (s s' : Server)
    (rq : Request) (gameId : string) (game : Game) :
  serverReachable s ->
  handle rq s = Some s' ->
  mapGet (sv_games s) gameId = Some game ->
  exists game',
    mapGet (sv_games s') gameId = Some game'
    /\ (untouched game game'
        \/ (exists env mr, rq = PostMatch env mr /\ me_gameId env = gameId
                           /\ engine game' = reset)
        \/ (exists now stamp body lm,
              rq = PostMove now stamp gameId body
              /\ over game = false /\ expired now game = false
              /\ seatOf game (mb_playerId body) = Some (turn (engine game))
              /\ move (ArgObject (requestOfBody body)) (engine game)
                 = Some (Some lm, engine game')
              /\ lastMove game' = stamp)).
Proof.
  intros Hs Hstep Hget. pose proof (serverReachable_ok s Hs) as Hok.
  assert (Same : forall s0, s0 = s -> exists game',
             mapGet (sv_games s0) gameId = Some game'
             /\ (untouched game game'
                 \/ (exists env mr, rq = PostMatch env mr /\ me_gameId env = gameId
                                    /\ engine game' = reset)
                 \/ (exists now stamp body lm,
                       rq = PostMove now stamp gameId body
                       /\ over game = false /\ expired now game = false
                       /\ seatOf game (mb_playerId body) = Some (turn (engine game))
                       /\ move (ArgObject (requestOfBody body)) (engine game)
                          = Some (Some lm, engine game')
                       /\ lastMove game' = stamp))).
  { intros s0 ->. exists game. split; [exact Hget|]. left. apply untouched_refl. }
  destruct rq as [env mr|id|now gid|now stamp gid body|id]; cbn [handle] in Hstep.
  - injection Hstep as <-.
    destruct (truthy (mr_id mr)) eqn:Hid;
      [|apply Same; unfold postMatch; by rewrite Hid].
    destruct (truthy (mr_name mr)) eqn:Hname;
      [|apply Same; unfold postMatch; by rewrite Hid, Hname].
    rewrite (postMatch_run env mr s (conj Hid Hname)). cbn zeta.
    destruct (findBestOpponent _ _ _) as [opp|]; cbn [snd sv_games];
      [|exists game; split; [exact Hget|]; left; apply untouched_refl].
    destruct (decide (me_gameId env = gameId)) as [<-|Hother].
    + eexists. split; [apply mapGet_mapSet_eq|]. right; left.
      exists env, mr. split; [reflexivity|]. split; [reflexivity|].
      unfold createGame. reflexivity.
    + exists game. rewrite mapGet_mapSet_ne by exact Hother.
      split; [exact Hget|]. left. apply untouched_refl.
  - injection Hstep as <-. by apply Same.
  - injection Hstep as <-. unfold getGame.
    destruct (mapGet (sv_games s) gid) as [g0|] eqn:Hg0; [|by apply Same].
    rewrite (checkTimeoutIn_run now gid g0 s Hg0).
    destruct (expired now g0); cbn [snd]; [|by apply Same].
    rewrite putGame_get. destruct (String.eqb gid gameId) eqn:E.
    + apply String.eqb_eq in E. subst gid.
      assert (g0 = game) as -> by congruence.
      eexists. split; [reflexivity|]. left. by repeat split.
    + exists game. split; [exact Hget|]. left. apply untouched_refl.
  - revert Hstep. rewrite postMove_resolved
      by (intros g0 Hg0; by destruct (stored_game_ok s gid g0 Hok Hg0)
                              as (_ & ? & _)).
    unfold postMoveResolved.
    destruct (mapGet (sv_games s) gid) as [g0|] eqn:Hg0;
      [|intros [= <-]; by apply Same].
    destruct (expired now g0) eqn:Hexp.
    { intros [= <-]. rewrite putGame_get. destruct (String.eqb gid gameId) eqn:E.
      - apply String.eqb_eq in E. subst gid.
        assert (g0 = game) as -> by congruence.
        eexists. split; [reflexivity|]. left. by repeat split.
      - exists game. split; [exact Hget|]. left. apply untouched_refl. }
    destruct (missingFields body); [intros [= <-]; by apply Same|].
    destruct (over g0) eqn:Hover; [intros [= <-]; by apply Same|].
    destruct (seatOf g0 (mb_playerId body)) as [myColor|] eqn:Hseat;
      [|intros [= <-]; by apply Same].
    destruct (negb (Color_eqb myColor (turn (engine g0)))) eqn:Hturn;
      [intros [= <-]; by apply Same|].
    apply negb_false_iff, Color_eqb_eq in Hturn. subst myColor.
    destruct (List.find _ _) as [lm|] eqn:Hfind; [|intros [= <-]; by apply Same].
    pose proof (stored_game_ok s gid g0 Hok Hg0) as (_ & Hreach & _).
    cbn [fst snd] in Hreach.
    destruct (reachable_valid _ Hreach) as [Hwf _].
    destruct (makeMove_of_legal _ _ _ Hwf Hfind) as (e1 & Hmk & Hmove).
    rewrite Hmk. cbn [fmap option_fmap option_map snd]. intros [= <-].
    rewrite putGame_get. destruct (String.eqb gid gameId) eqn:E.
    + apply String.eqb_eq in E. subst gid.
      assert (g0 = game) as -> by congruence.
      eexists. split; [reflexivity|]. right; right.
      exists now, stamp, body, lm. split; [reflexivity|].
      split; [exact Hover|]. split; [exact Hexp|]. split; [exact Hseat|].
      assert (Heng : engine (settle (played game e1 stamp) (sv_scoreboard s)).1 = e1
                     /\ lastMove (settle (played game e1 stamp) (sv_scoreboard s)).1
                        = stamp).
      { unfold settle. destruct (in_check _ && _); [by split|].
        by destruct (length _ =? 0)%nat. }
      destruct Heng as [-> ->]. by split.
    + exists game. split; [exact Hget|]. left. apply untouched_refl.
  - injection Hstep as <-. by apply Same.
Qed.

Lemma only_the_player_to_move_changes_the_position_witness :
  exists game',
    mapGet (sv_games sampleAfterMate) "g1" = Some game'
    /\ (untouched (default sampleGame (mapGet (sv_games sampleBeforeMate) "g1")) game'
        \/ (exists env mr,
              PostMove 6000 6001 "g1" mateBody = PostMatch env mr
              /\ me_gameId env = "g1"%string /\ engine game' = reset)
        \/ (exists now stamp body lm,
              PostMove 6000 6001 "g1" mateBody = PostMove now stamp "g1" body
              /\ over (default sampleGame (mapGet (sv_games sampleBeforeMate) "g1"))
                 = false
              /\ expired now (default sampleGame
                                (mapGet (sv_games sampleBeforeMate) "g1")) = false
              /\ seatOf (default sampleGame (mapGet (sv_games sampleBeforeMate) "g1"))
                        (mb_playerId body)
                 = Some (turn (engine (default sampleGame
                                 (mapGet (sv_games sampleBeforeMate) "g1"))))
              /\ move (ArgObject (requestOfBody body))
                      (engine (default sampleGame
                                 (mapGet (sv_games sampleBeforeMate) "g1")))
                 = Some (Some lm, engine game')
              /\ lastMove game' = stamp)).
Proof.
  exact (only_the_player_to_move_changes_the_position sampleBeforeMate
           sampleAfterMate (PostMove 6000 6001 "g1" mateBody) "g1"
           (default sampleGame (mapGet (sv_games sampleBeforeMate) "g1"))
           sampleBeforeMate_reachable sample_mate_step sample_game_stored).
Defined.

(** ** The first server: matchmaking with a notice box *)

(** X21. In the first server, when a join is answered with a match, the
    opponent is another player, and both players of the pair hold a notice:
    the first poll of either hands out the other player and removes the
    notice, and the next poll of the same player answers [matched: false].
    The joiner, who was already answered directly, is thus told of the same
    match once more on their first poll. *)
Theorem legacy_notice_is_handed_out_once (now : Z) (id name : string)
    (rating : option Z) (s : Legacy.State) (opponent : Legacy.Notice) :
  queueKeys (Legacy.st_queue s) ->
  (Legacy.postMatch now id name rating s).1 = Legacy.Matched opponent ->
  let s1 := (Legacy.postMatch now id name rating s).2 in
  let joiner := Legacy.mkNotice id name (Some (Legacy.ratingOf rating)) in
  Legacy.nt_id opponent <> id
  /\ (Legacy.getMatch (Legacy.nt_id opponent) s1).1 = Legacy.Matched joiner
  /\ (Legacy.getMatch (Legacy.nt_id opponent)
        (Legacy.getMatch (Legacy.nt_id opponent) s1).2).1 = Legacy.NotMatched
  /\ (Legacy.getMatch id s1).1 = Legacy.Matched opponent
  /\ (Legacy.getMatch id (Legacy.getMatch id s1).2).1 = Legacy.NotMatched.
Proof.
  intros Hkeys. unfold Legacy.postMatch.
  destruct (truthy id) eqn:Hid; cbn [negb]; [|discriminate].
  cbn zeta. cbn [qe_id qe_rating].
  set (me := mkQueueEntry id name (Some (Legacy.ratingOf rating)) now).
  assert (Hkeys' : queueKeys (mapSet id me (Legacy.st_queue s)))
    by (apply (queueKeys_mapSet (Legacy.st_queue s) me); [exact Hid | exact Hkeys]).
  destruct (findBestOpponent_cases _ id (Some (Legacy.ratingOf rating)) Hkeys')
    as [[Hnone _]|(opp & Hsome & _ & Hne)]; [by rewrite Hnone|].
  rewrite Hsome. cbn [fst snd]. intros [= <-]. cbn zeta.
  unfold Legacy.noticeOf. cbn [Legacy.nt_id qe_id qe_name qe_rating me].
  split; [exact Hne|]. unfold Legacy.getMatch. cbn [Legacy.st_matches Legacy.st_queue].
  rewrite mapGet_mapSet_eq. cbn [fst snd Legacy.st_matches].
  rewrite mapGet_mapDelete_eq.
  rewrite (mapGet_mapSet_ne _ (qe_id opp) id) by exact Hne.
  rewrite mapGet_mapSet_eq. cbn [fst snd Legacy.st_matches].
  by rewrite mapGet_mapDelete_eq.
Qed.

Lemma legacy_sample :
  queueKeys (Legacy.st_queue legacyLobby)
  /\ (Legacy.postMatch 20 "bob" "Bob" None legacyLobby).1
     = Legacy.Matched (Legacy.mkNotice "ann" "Ann" (Some 1500)).
Proof.
  split; [|reflexivity]. split.
  - apply (bool_decide_unpack _). vm_compute. exact I.
  - repeat constructor.
Qed.

Lemma legacy_notice_is_handed_out_once_witness :
  let s1 := (Legacy.postMatch 20 "bob" "Bob" None legacyLobby).2 in
  let joiner := Legacy.mkNotice "bob" "Bob" (Some (Legacy.ratingOf None)) in
  "ann"%string <> "bob"%string
  /\ (Legacy.getMatch "ann" s1).1 = Legacy.Matched joiner
  /\ (Legacy.getMatch "ann" (Legacy.getMatch "ann" s1).2).1 = Legacy.NotMatched
  /\ (Legacy.getMatch "bob" s1).1
     = Legacy.Matched (Legacy.mkNotice "ann" "Ann" (Some 1500))
  /\ (Legacy.getMatch "bob" (Legacy.getMatch "bob" s1).2).1 = Legacy.NotMatched.
Proof.
  exact (legacy_notice_is_handed_out_once 20 "bob" "Bob" None legacyLobby
           (Legacy.mkNotice "ann" "Ann" (Some 1500))
           (proj1 legacy_sample) (proj2 legacy_sample)).
Defined.
